(** * path_to_regex: percent codec, separator detection, pattern compiler
      and matcher of [include/path_to_regex.hpp], with the properties the
      specification states about them. *)

From Stdlib Require Import Ascii String List ZArith Lia Bool.
From stdpp Require Import base gmap strings.
Import ListNotations.

Local Open Scope Z_scope.
Local Open Scope list_scope.

(** ** Text

    [std::string] and [std::string_view] are sequences of bytes; a byte is an
    [ascii] (eight bits), its numeric value is [code]. *)

Abbreviation str := (list ascii).

Definition lit (s : string) : str := list_ascii_of_string s.

Definition code (c : ascii) : Z := Z.of_N (N_of_ascii c).

Definition chr (z : Z) : ascii := ascii_of_N (Z.to_N z).

Definition in_range (lo hi c : ascii) : bool :=
  (code lo <=? code c) && (code c <=? code hi).

(** [<cctype>] in the default "C" locale. *)
Definition isdigit (c : ascii) : bool := in_range "0" "9" c.
Definition isupper (c : ascii) : bool := in_range "A" "Z" c.
Definition islower (c : ascii) : bool := in_range "a" "z" c.
Definition isalnum (c : ascii) : bool := isdigit c || isupper c || islower c.
Definition isxdigit (c : ascii) : bool :=
  isdigit c || in_range "A" "F" c || in_range "a" "f" c.
Definition toupper (c : ascii) : Z :=
  if islower c then code c - 32 else code c.

(** [s[i]]; the source never reads out of range, the default is unused. *)
Definition at_ (s : str) (i : nat) : ascii := nth i s zero.

(** The longest prefix whose characters satisfy [p]. *)
Fixpoint take_while (p : ascii -> bool) (s : str) : str :=
  match s with
  | c :: r => if p c then c :: take_while p r else []
  | [] => []
  end.

Definition not_char (c a : ascii) : bool := negb (Ascii.eqb a c).

(** ** Types of the public interface and of [<regex>] *)

Inductive case_sensitivity := case_sensitive | case_insensitive.

(** [std::regex_constants::syntax_option_type], the two bits in use. *)
Record syntax_option_type := {
  ECMAScript : bool;
  icase : bool
}.

Module details.

(** *** percent_encode *)

Definition hex_chars : str := lit "0123456789ABCDEF".

Definition special_chars : str :=
  lit "!" ++ [chr 34] ++ lit "#$%&'()*+,-./:;<=>?@[\]^_{|}~`".

(** [special_chars.find(ch) != npos] *)
Definition is_special (ch : ascii) : bool :=
  existsb (Ascii.eqb ch) special_chars.

(** One iteration of the [for (unsigned char ch : str)] loop. *)
Definition encode_step (encoded : str) (ch : ascii) : str :=
  if isalnum ch || is_special ch then encoded ++ [ch]
  else encoded
         ++ ["%"%char]
         ++ [at_ hex_chars (Z.to_nat (Z.shiftr (code ch) 4))]
         ++ [at_ hex_chars (Z.to_nat (Z.land (code ch) 15))].

Definition percent_encode (s : str) : str := fold_left encode_step s [].

(** *** percent_decode *)

(** The value of one hex digit, as the conditional expression computes it. *)
Definition hex_value (hex : ascii) : Z :=
  if (code "0" <=? code hex) && (code hex <=? code "9")
  then code hex - code "0"
  else toupper hex - code "A" + 10.

(** The inner loop [for (int j = 1; j < 3; ++j)]; [ch] is a [char], kept
    here as its value modulo 256. *)
Definition decode_escape (s : str) (i : nat) : ascii :=
  let step (ch : Z) (j : nat) : Z :=
    Z.lor (Z.shiftl ch 4 mod 256) (hex_value (at_ s (i + j))) mod 256 in
  chr (step (step 0 1%nat) 2%nat).

(** The outer loop; [fuel] bounds the number of iterations, every iteration
    advances [i], so [length s] iterations always suffice. *)
Fixpoint decode_loop (fuel : nat) (s : str) (i : nat) (decoded : str) : str :=
  match fuel with
  | O => decoded
  | S fuel' =>
      if (i <? length s)%nat then
        if Ascii.eqb (at_ s i) "%" && (i + 2 <? length s)%nat
           && isxdigit (at_ s (i + 1)) && isxdigit (at_ s (i + 2))
        then decode_loop fuel' s (i + 3) (decoded ++ [decode_escape s i])
        else decode_loop fuel' s (i + 1) (decoded ++ [at_ s i])
      else decoded
  end.

Definition percent_decode (s : str) : str := decode_loop (length s) s 0 [].

(** *** find_separator *)

(** [std::string_view::npos], the largest [size_t]. *)
Definition npos : Z := 2 ^ 64 - 1.

(** [s.find(c)], searching the suffix that starts at index [i]. *)
Fixpoint find_from (c : ascii) (s : str) (i : Z) : Z :=
  match s with
  | [] => npos
  | a :: r => if Ascii.eqb a c then i else find_from c r (i + 1)
  end.

Definition find (c : ascii) (s : str) : Z := find_from c s 0.

Definition find_separator (path : str) : ascii :=
  if find "/" path <=? find "\" path then "/"%char else "\"%char.

(** *** The tokenizer regex of make_pattern *)

(** The text of the constant [rx]. *)
Definition rx_text : str :=
  lit "\{([^}]*)\}|:([\w%]+)(\([^)]+\))?|\*([\w%]+)|([.\^$*+?()|\[\]{}\\])".

(** [rx] has four alternatives and five groups:
      - an opening brace, group 1 = any run of characters other than a
        closing brace (possibly empty), a closing brace;
      - a colon, group 2 = one or more of [\w] or [%], then optionally
        group 3 = an opening parenthesis, one or more characters other than
        a closing parenthesis, a closing parenthesis;
      - a star, group 4 = one or more of [\w] or [%];
      - group 5 = one of the characters . ^ $ * + ? ( ) | [ ] { } \
    It is iterated over the path with [std::sregex_iterator]. A match
    carries its position, its length and the five sub-matches the loop body
    reads. The scanner below is that regex written out: at a given start the
    alternatives are tried in order and every quantifier is greedy. That
    it finds the matches of [rx_text] under the ECMAScript semantics is
    [scanner_is_engine]. *)

Record rx_match := {
  position : nat;
  length_ : nat;
  optional_param_key : option str;       (* match[1] *)
  required_param_key : option str;       (* match[2] *)
  required_param_pattern : option str;   (* match[3] *)
  wildcard_param_key : option str;       (* match[4] *)
  special_chars_key : option str         (* match[5] *)
}.

(** [sub_match::str()]: the empty string when the group did not match. *)
Definition sub_str (m : option str) : str := default [] m.

(** [sub_match::matched] *)
Definition sub_matched (m : option str) : bool :=
  match m with Some _ => true | None => false end.

(** The class of [\w] and [%]. *)
Definition is_key_char (c : ascii) : bool :=
  isalnum c || Ascii.eqb c "_" || Ascii.eqb c "%".

(** The class of alternative 4. *)
Definition is_rx_special (c : ascii) : bool :=
  existsb (Ascii.eqb c) (lit ".^$*+?()|[]{}\").

(** The sub-matches of a match of [rx] that begins at the head of [s],
    with its length; [None] when no alternative matches there. *)
Definition rx_at (pos : nat) (s : str) : option rx_match :=
  let special c :=
    Some {| position := pos; length_ := 1;
            optional_param_key := None; required_param_key := None;
            required_param_pattern := None; wildcard_param_key := None;
            special_chars_key := Some [c] |} in
  match s with
  | [] => None
  | c :: r =>
      if Ascii.eqb c "{" then
        (* alternative 1 *)
        let inner := take_while (not_char "}") r in
        match skipn (length inner) r with
        | _ :: _ =>
            Some {| position := pos; length_ := length inner + 2;
                    optional_param_key := Some inner; required_param_key := None;
                    required_param_pattern := None; wildcard_param_key := None;
                    special_chars_key := None |}
        | [] => special c
        end
      else if Ascii.eqb c ":" then
        (* alternative 2 *)
        let key := take_while is_key_char r in
        match key with
        | [] => None
        | _ :: _ =>
            let custom :=
              match skipn (length key) r with
              | o :: r' =>
                  if Ascii.eqb o "(" then
                    let body := take_while (not_char ")") r' in
                    match body, skipn (length body) r' with
                    | _ :: _, _ :: _ => Some (["("%char] ++ body ++ [")"%char])
                    | _, _ => None
                    end
                  else None
              | [] => None
              end in
            Some {| position := pos;
                    length_ := 1 + length key + length (sub_str custom);
                    optional_param_key := None; required_param_key := Some key;
                    required_param_pattern := custom; wildcard_param_key := None;
                    special_chars_key := None |}
        end
      else if Ascii.eqb c "*" then
        (* alternative 3, else the special character *)
        let key := take_while is_key_char r in
        match key with
        | [] => special c
        | _ :: _ =>
            Some {| position := pos; length_ := 1 + length key;
                    optional_param_key := None; required_param_key := None;
                    required_param_pattern := None; wildcard_param_key := Some key;
                    special_chars_key := None |}
        end
      else if is_rx_special c then special c
      else None
  end.

(** [std::sregex_iterator]: the successive leftmost matches of [rx].  [s] is
    the text from index [pos] on; [skip] counts the characters of [s] that
    the previous match still covers. *)
Fixpoint rx_iterate (s : str) (pos skip : nat) : list rx_match :=
  match s with
  | [] => []
  | _ :: r =>
      match skip with
      | S k => rx_iterate r (S pos) k
      | O =>
          match rx_at pos s with
          | Some m => m :: rx_iterate r (S pos) (length_ m - 1)
          | None => rx_iterate r (S pos) 0
          end
      end
  end.

Definition sregex_iterator (path : str) : list rx_match := rx_iterate path 0 0.

(** [path.substr(pos, n)] *)
Definition substr (s : str) (pos n : nat) : str := firstn n (skipn pos s).

(** *** make_pattern *)

(** The loop variables of [make_pattern]; [keys] is the caller's vector,
    passed by reference. *)
Record mp_state := {
  last_pos : nat;
  pattern : str;
  keys : list str
}.

(** The loop body, with the recursive call on an optional group abstracted
    as [self]. *)
Definition make_pattern_step
    (self : str -> list str -> ascii -> str * list str)
    (path : str) (separator : ascii) (st : mp_state) (m : rx_match) : mp_state :=
  let pattern0 :=
    if (last_pos st <? position m)%nat
    then pattern st ++ substr path (last_pos st) (position m - last_pos st)
    else pattern st in
  let '(pattern1, keys1) :=
    if sub_matched (optional_param_key m) then
      let '(subpattern, keys') := self (sub_str (optional_param_key m)) (keys st) separator in
      match subpattern with
      | [] => (pattern0, keys')
      | _ :: _ => (pattern0 ++ (lit "(?:" ++ subpattern ++ lit ")?"), keys')
      end
    else if sub_matched (required_param_key m) then
      let keys' := keys st ++ [percent_decode (sub_str (required_param_key m))] in
      let subpattern := sub_str (required_param_pattern m) in
      match subpattern with
      | [] => (pattern0 ++ lit "([^\" ++ [separator] ++ lit "]+?)", keys')
      | _ :: _ => (pattern0 ++ subpattern, keys')
      end
    else if sub_matched (wildcard_param_key m) then
      (pattern0 ++ lit "(\S+?)",
       keys st ++ [percent_decode (sub_str (wildcard_param_key m))])
    else if sub_matched (special_chars_key m) then
      (pattern0 ++ ["\"%char] ++ sub_str (special_chars_key m), keys st)
    else (pattern0, keys st) in
  {| last_pos := position m + length_ m; pattern := pattern1; keys := keys1 |}.

Definition make_pattern_body
    (self : str -> list str -> ascii -> str * list str)
    (path : str) (keys0 : list str) (separator : ascii) : str * list str :=
  let st := fold_left (make_pattern_step self path separator)
                      (sregex_iterator path)
                      {| last_pos := 0; pattern := []; keys := keys0 |} in
  let pattern' :=
    if (last_pos st <? length path)%nat
    then pattern st ++ substr path (last_pos st) (length path - last_pos st)
    else pattern st in
  (pattern', keys st).

(** The recursion of [make_pattern] into optional groups, unrolled [depth]
    times. A call on a path of length [n] only recurses on strictly shorter
    paths, so [S n] levels are never exhausted. *)
Fixpoint make_pattern_rec (depth : nat) : str -> list str -> ascii -> str * list str :=
  match depth with
  | O => fun _ keys0 _ => ([], keys0)
  | S d => make_pattern_body (make_pattern_rec d)
  end.

(** [make_pattern(const std::string&, std::vector<std::string>&, char)];
    the result pairs the returned pattern with the updated [keys]. *)
Definition make_pattern (path : str) (keys0 : list str) (separator : ascii)
  : str * list str :=
  make_pattern_rec (S (length path)) path keys0 separator.

(** [make_pattern(std::string_view, std::vector<std::string>&)] *)
Definition make_pattern_top (path : str) (keys0 : list str) : str * list str :=
  let encoded_path := percent_encode path in
  let separator := find_separator path in
  let '(pattern0, keys1) := make_pattern encoded_path keys0 separator in
  let pattern1 :=
    if match pattern0 with
       | [] => true
       | _ :: _ => negb (Ascii.eqb (List.last pattern0 zero) separator)
       end
    then pattern0 ++ ["\"%char] ++ [separator]
    else pattern0 in
  (["^"%char] ++ pattern1 ++ lit "?$", keys1).

(** *** make_regex_flags *)

Definition make_regex_flags (sensitivity : case_sensitivity) : syntax_option_type :=
  let flags := {| ECMAScript := true; icase := false |} in
  match sensitivity with
  | case_insensitive => {| ECMAScript := ECMAScript flags; icase := true |}
  | case_sensitive => flags
  end.

End details.

(** ** The public interface *)

(** [std::match_results]: one optional text per sub-expression, index 0 for
    the whole match. [match[n]] with [n] out of range is an unmatched
    sub-match. *)
Abbreviation smatch := (list (option str)).

Definition smatch_at (m : smatch) (n : nat) : option str := nth n m None.

(** What the header uses of [<regex>]: constructing a [std::regex] from a
    pattern and flags, which throws [std::regex_error] on a malformed pattern
    ([None]); [mark_count]; and [std::regex_match], which fills a
    [match_results] when the whole text matches. *)
Class RegexEngine := {
  regex : Type;
  regex_new : str -> syntax_option_type -> option regex;
  mark_count : regex -> nat;
  regex_match : regex -> str -> option smatch
}.

(** The fields of [class matcher]; [R] is the type of [m_regex]. *)
Record matcher_of (R : Type) := {
  m_pattern : str;
  m_regex : R;
  m_keys : list str
}.

Arguments m_pattern {R} _.
Arguments m_regex {R} _.
Arguments m_keys {R} _.

Record result := {
  matched : bool;
  params : gmap str str
}.

Abbreviation matcher := (matcher_of regex).

Section Matcher.

Context `{RegexEngine}.

(** The constructor; it fails when [std::regex] rejects the pattern. *)
Definition matcher_new (pattern : str) (keys : list str)
    (sensitivity : case_sensitivity) : option matcher :=
  match regex_new pattern (details.make_regex_flags sensitivity) with
  | Some rx => Some {| m_pattern := pattern; m_regex := rx; m_keys := keys |}
  | None => None
  end.

(** One iteration of the loop over [m_keys] in [operator()]. *)
Definition bind_param (keys : list str) (match_ : smatch)
    (params : gmap str str) (i : nat) : gmap str str :=
  <[nth i keys [] := details.percent_decode (details.sub_str (smatch_at match_ (i + 1)))]> params.

(** [matcher::operator()] *)
Definition matcher_call (m : matcher) (path : str) : result :=
  let encoded_path := details.percent_encode path in
  match regex_match (m_regex m) encoded_path with
  | Some match_ =>
      {| matched := true;
         params := fold_left (bind_param (m_keys m) match_)
                             (seq 0 (length (m_keys m))) ∅ |}
  | None => {| matched := false; params := ∅ |}
  end.

(** [matcher::pattern()] *)
Definition matcher_pattern (m : matcher) : str := m_pattern m.

(** [path_to_regex::match] *)
Definition match_ (path : str) (sensitivity : case_sensitivity) : option matcher :=
  let '(pattern, keys) := details.make_pattern_top path [] in
  matcher_new pattern keys sensitivity.

End Matcher.

(** ** A model of [std::regex] with the ECMAScript grammar

    [<regex>] is not part of the repository. The model follows ECMA-262
    (15.10), which the C++ standard prescribes for the ECMAScript flag: the
    pattern grammar, and the backtracking matcher written with
    continuations. Texts are byte strings in the "C" locale; the bracket
    extensions of C++ ([[:alpha:]], [[.a.]], [[=a=]]) are not modelled and
    are reported as errors. *)

Module ecma.

Inductive class_item :=
  | CChar (c : ascii)
  | CRange (lo hi : ascii)
  | CDigit (neg : bool)
  | CSpace (neg : bool)
  | CWord (neg : bool).

Inductive regex :=
  | Empty
  | Char (c : ascii)
  | Any
  | Class (neg : bool) (items : list class_item)
  | Seq (r1 r2 : regex)
  | Alt (r1 r2 : regex)
  | Quant (r : regex) (min : nat) (max : option nat) (greedy : bool)
  | Group (n : nat) (r : regex)
  | Backref (n : nat)
  | AssertBegin
  | AssertEnd
  | WordBoundary (neg : bool)
  | Lookahead (neg : bool) (r : regex).

(** *** Parsing a pattern *)

Inductive group_kind := Capture (n : nat) | NonCapture | Look (neg : bool).

(** The enclosing alternatives and terms saved at an opening parenthesis. *)
Record frame := {
  fr_kind : group_kind;
  fr_alts : list regex;
  fr_seq : list regex
}.

(** Parser state: the finished alternatives and the terms of the current
    alternative (both latest first), the open groups, the number of
    capturing parentheses seen and the largest back-reference. *)
Record pstate := {
  p_alts : list regex;
  p_seq : list regex;
  p_stack : list frame;
  p_groups : nat;
  p_maxref : nat
}.

Definition mk_seq (rev_terms : list regex) : regex :=
  fold_left (fun acc t => Seq t acc) rev_terms Empty.

Definition mk_alt (rev_alts : list regex) (last_alt : regex) : regex :=
  fold_left (fun acc a => Alt a acc) rev_alts last_alt.

Definition push_term (t : regex) (st : pstate) : pstate :=
  {| p_alts := p_alts st; p_seq := t :: p_seq st; p_stack := p_stack st;
     p_groups := p_groups st; p_maxref := p_maxref st |}.

Definition open_group (k : group_kind) (groups : nat) (st : pstate) : pstate :=
  {| p_alts := []; p_seq := [];
     p_stack := {| fr_kind := k; fr_alts := p_alts st; fr_seq := p_seq st |} :: p_stack st;
     p_groups := groups; p_maxref := p_maxref st |}.

Record quantifier := {
  q_min : nat;
  q_max : option nat;
  q_greedy : bool
}.

Definition digit_value (c : ascii) : nat := Z.to_nat (code c - code "0").

Definition decimal (ds : str) : nat :=
  fold_left (fun n d => (10 * n + digit_value d)%nat) ds 0%nat.

Definition hex_digit_value (c : ascii) : Z :=
  if isdigit c then code c - code "0"
  else if isupper c then code c - code "A" + 10
  else code c - code "a" + 10.

(** A quantifier at the head of [s]: [Some (None, 0)] when there is none,
    [None] when a brace does not form one. The second component is the
    number of characters read. *)
Definition parse_quant (s : str) : option (option quantifier * nat) :=
  let lazy (r : str) : bool * nat :=
    match r with
    | c :: _ => if Ascii.eqb c "?" then (false, 1%nat) else (true, 0%nat)
    | [] => (true, 0%nat)
    end in
  let mk (mn : nat) (mx : option nat) (n : nat) (r : str) :=
    let '(g, k) := lazy r in
    Some (Some {| q_min := mn; q_max := mx; q_greedy := g |}, (n + k)%nat) in
  match s with
  | [] => Some (None, 0%nat)
  | c :: r =>
      if Ascii.eqb c "*" then mk 0%nat None 1%nat r
      else if Ascii.eqb c "+" then mk 1%nat None 1%nat r
      else if Ascii.eqb c "?" then mk 0%nat (Some 1%nat) 1%nat r
      else if Ascii.eqb c "{" then
        let d1 := take_while isdigit r in
        match d1, skipn (length d1) r with
        | _ :: _, e :: r1 =>
            if Ascii.eqb e "}" then
              mk (decimal d1) (Some (decimal d1)) (length d1 + 2)%nat r1
            else if Ascii.eqb e "," then
              let d2 := take_while isdigit r1 in
              match d2, skipn (length d2) r1 with
              | [], f :: r2 =>
                  if Ascii.eqb f "}"
                  then mk (decimal d1) None (length d1 + 3)%nat r2
                  else None
              | _ :: _, f :: r2 =>
                  if Ascii.eqb f "}" && (decimal d1 <=? decimal d2)%nat
                  then mk (decimal d1) (Some (decimal d2))
                          (length d1 + length d2 + 3)%nat r2
                  else None
              | _, [] => None
              end
            else None
        | _, _ => None
        end
      else Some (None, 0%nat)
  end.

Definition apply_quant (q : option quantifier) (a : regex) : regex :=
  match q with
  | Some q => Quant a (q_min q) (q_max q) (q_greedy q)
  | None => a
  end.

(** What follows a backslash, outside or inside a class: a single character,
    a class of characters, or a back-reference. *)
Inductive escape :=
  | EChar (c : ascii)
  | EClass (it : class_item)
  | ERef (n : nat).

(** The escape at the head of [s] (the text after the backslash), with the
    number of characters read. *)
Definition parse_escape (in_class : bool) (s : str) : option (escape * nat) :=
  match s with
  | [] => None
  | c :: r =>
      if Ascii.eqb c "d" then Some (EClass (CDigit false), 1%nat)
      else if Ascii.eqb c "D" then Some (EClass (CDigit true), 1%nat)
      else if Ascii.eqb c "s" then Some (EClass (CSpace false), 1%nat)
      else if Ascii.eqb c "S" then Some (EClass (CSpace true), 1%nat)
      else if Ascii.eqb c "w" then Some (EClass (CWord false), 1%nat)
      else if Ascii.eqb c "W" then Some (EClass (CWord true), 1%nat)
      else if Ascii.eqb c "f" then Some (EChar (chr 12), 1%nat)
      else if Ascii.eqb c "n" then Some (EChar (chr 10), 1%nat)
      else if Ascii.eqb c "r" then Some (EChar (chr 13), 1%nat)
      else if Ascii.eqb c "t" then Some (EChar (chr 9), 1%nat)
      else if Ascii.eqb c "v" then Some (EChar (chr 11), 1%nat)
      else if Ascii.eqb c "b" && in_class then Some (EChar (chr 8), 1%nat)
      else if Ascii.eqb c "c" then
        match r with
        | l :: _ =>
            if isupper l || islower l
            then Some (EChar (chr (code l mod 32)), 2%nat)
            else None
        | [] => None
        end
      else if Ascii.eqb c "x" then
        match r with
        | h1 :: h2 :: _ =>
            if isxdigit h1 && isxdigit h2
            then Some (EChar (chr (16 * hex_digit_value h1 + hex_digit_value h2)), 3%nat)
            else None
        | _ => None
        end
      else if Ascii.eqb c "u" then
        match r with
        | h1 :: h2 :: h3 :: h4 :: _ =>
            if isxdigit h1 && isxdigit h2 && isxdigit h3 && isxdigit h4 then
              if Ascii.eqb h1 "0" && Ascii.eqb h2 "0"
              then Some (EChar (chr (16 * hex_digit_value h3 + hex_digit_value h4)), 5%nat)
              else Some (EClass (CRange (chr 1) (chr 0)), 5%nat)
            else None
        | _ => None
        end
      else if isdigit c then
        let ds := take_while isdigit s in
        if Ascii.eqb c "0" then
          match ds with
          | [_] => Some (EChar zero, 1%nat)
          | _ => None
          end
        else if in_class then None
        else Some (ERef (decimal ds), length ds)
      else Some (EChar c, 1%nat)
  end.

(** One class atom at the head of [s]. *)
Definition parse_class_atom (s : str) : option (escape * nat) :=
  match s with
  | [] => None
  | c :: r =>
      if Ascii.eqb c "\" then
        match parse_escape true r with
        | Some (e, n) => Some (e, S n)
        | None => None
        end
      else if Ascii.eqb c "[" then
        match r with
        | d :: _ =>
            if Ascii.eqb d ":" || Ascii.eqb d "." || Ascii.eqb d "="
            then None else Some (EChar c, 1%nat)
        | [] => Some (EChar c, 1%nat)
        end
      else Some (EChar c, 1%nat)
  end.

Definition escape_item (e : escape) : class_item :=
  match e with
  | EChar c => CChar c
  | EClass it => it
  | ERef _ => CRange (chr 1) (chr 0)
  end.

(** The class ranges up to the closing bracket. [s] is the remaining text,
    [skip] the number of its characters already read, [n] the number of
    characters read since the opening bracket. *)
Fixpoint parse_class_items (s : str) (skip n : nat) (acc : list class_item)
  : option (list class_item * nat) :=
  match s with
  | [] => None
  | c :: r =>
      match skip with
      | S k => parse_class_items r k (S n) acc
      | O =>
          if Ascii.eqb c "]" then Some (rev acc, S n)
          else
            match parse_class_atom s with
            | None => None
            | Some (a, na) =>
                match skipn na s with
                | d :: rest =>
                    if Ascii.eqb d "-" then
                      match rest with
                      | e :: _ =>
                          if Ascii.eqb e "]" then
                            parse_class_items r (na - 1) (S n) (escape_item a :: acc)
                          else
                            match a, parse_class_atom rest with
                            | EChar lo, Some (EChar hi, nb) =>
                                if code lo <=? code hi
                                then parse_class_items r (na + nb) (S n) (CRange lo hi :: acc)
                                else None
                            | _, _ => None
                            end
                      | [] => None
                      end
                    else parse_class_items r (na - 1) (S n) (escape_item a :: acc)
                | [] => None
                end
            end
      end
  end.

(** A character class; [s] is the text after the opening bracket. *)
Definition parse_class (s : str) : option (regex * nat) :=
  match s with
  | c :: r =>
      if Ascii.eqb c "^" then
        match parse_class_items r 0 0 [] with
        | Some (items, n) => Some (Class true items, S n)
        | None => None
        end
      else
        match parse_class_items s 0 0 [] with
        | Some (items, n) => Some (Class false items, n)
        | None => None
        end
  | [] => None
  end.

(** An atom other than a group at the head of [s]: the atom, the number of
    characters read and the back-reference it makes (0 for none). *)
Definition parse_atom (s : str) : option (regex * nat * nat) :=
  match s with
  | [] => None
  | c :: r =>
      if Ascii.eqb c "." then Some (Any, 1%nat, 0%nat)
      else if Ascii.eqb c "[" then
        match parse_class r with
        | Some (cl, n) => Some (cl, S n, 0%nat)
        | None => None
        end
      else if Ascii.eqb c "\" then
        match parse_escape false r with
        | Some (EChar a, n) => Some (Char a, S n, 0%nat)
        | Some (EClass it, n) => Some (Class false [it], S n, 0%nat)
        | Some (ERef k, n) => Some (Backref k, S n, k)
        | None => None
        end
      else if existsb (Ascii.eqb c) (lit "*+?{}]") then None
      else Some (Char c, 1%nat, 0%nat)
  end.

Definition wrap_group (k : group_kind) (r : regex) : regex :=
  match k with
  | Capture n => Group n r
  | NonCapture => r
  | Look neg => Lookahead neg r
  end.

(** One step of the parser at the head of [s]: the new state and the number
    of characters read. *)
Definition parse_step (st : pstate) (s : str) : option (pstate * nat) :=
  match s with
  | [] => None
  | c :: r =>
      if Ascii.eqb c "|" then
        Some ({| p_alts := mk_seq (p_seq st) :: p_alts st; p_seq := [];
                 p_stack := p_stack st; p_groups := p_groups st;
                 p_maxref := p_maxref st |}, 1%nat)
      else if Ascii.eqb c "(" then
        match r with
        | q :: k :: _ =>
            if Ascii.eqb q "?" then
              if Ascii.eqb k ":" then Some (open_group NonCapture (p_groups st) st, 3%nat)
              else if Ascii.eqb k "=" then Some (open_group (Look false) (p_groups st) st, 3%nat)
              else if Ascii.eqb k "!" then Some (open_group (Look true) (p_groups st) st, 3%nat)
              else None
            else Some (open_group (Capture (S (p_groups st))) (S (p_groups st)) st, 1%nat)
        | _ => Some (open_group (Capture (S (p_groups st))) (S (p_groups st)) st, 1%nat)
        end
      else if Ascii.eqb c ")" then
        match p_stack st with
        | [] => None
        | fr :: stack =>
            let inner := mk_alt (p_alts st) (mk_seq (p_seq st)) in
            let close (t : regex) (n : nat) :=
              Some ({| p_alts := fr_alts fr; p_seq := t :: fr_seq fr;
                       p_stack := stack; p_groups := p_groups st;
                       p_maxref := p_maxref st |}, n) in
            match fr_kind fr with
            | Look neg => close (Lookahead neg inner) 1%nat
            | k =>
                match parse_quant r with
                | Some (q, n) => close (apply_quant q (wrap_group k inner)) (S n)
                | None => None
                end
            end
        end
      else if Ascii.eqb c "^" then Some (push_term AssertBegin st, 1%nat)
      else if Ascii.eqb c "$" then Some (push_term AssertEnd st, 1%nat)
      else
        let atom :=
          match r with
          | b :: _ =>
              if Ascii.eqb c "\" && Ascii.eqb b "b" then Some (WordBoundary false)
              else if Ascii.eqb c "\" && Ascii.eqb b "B" then Some (WordBoundary true)
              else None
          | [] => None
          end in
        match atom with
        | Some a => Some (push_term a st, 2%nat)
        | None =>
            match parse_atom s with
            | Some (a, n, ref) =>
                match parse_quant (skipn n s) with
                | Some (q, k) =>
                    Some ({| p_alts := p_alts st; p_seq := apply_quant q a :: p_seq st;
                             p_stack := p_stack st; p_groups := p_groups st;
                             p_maxref := Nat.max ref (p_maxref st) |}, (n + k)%nat)
                | None => None
                end
            | None => None
            end
        end
  end.

(** The parser loop. [skip] counts the characters of [s] that the previous
    step has already read. *)
Fixpoint parse_loop (s : str) (skip : nat) (st : pstate) : option pstate :=
  match s with
  | [] => Some st
  | _ :: r =>
      match skip with
      | S k => parse_loop r k st
      | O =>
          match parse_step st s with
          | Some (st', n) => parse_loop r (n - 1) st'
          | None => None
          end
      end
  end.

(** A compiled regular expression: its syntax tree, the number of capturing
    groups and the icase flag. *)
Record compiled := {
  re_ast : regex;
  re_groups : nat;
  re_icase : bool
}.

Definition compile (pattern : str) (flags : syntax_option_type) : option compiled :=
  match parse_loop pattern 0
          {| p_alts := []; p_seq := []; p_stack := []; p_groups := 0; p_maxref := 0 |} with
  | Some st =>
      match p_stack st with
      | [] =>
          if (p_maxref st <=? p_groups st)%nat then
            Some {| re_ast := mk_alt (p_alts st) (mk_seq (p_seq st));
                    re_groups := p_groups st;
                    re_icase := icase flags |}
          else None
      | _ :: _ => None
      end
  | None => None
  end.

(** *** Matching *)

(** The matcher state of ECMA-262: the input split at the current position
    ([before] holds the characters already passed, nearest first) and the
    captures, one entry per capturing group. *)
Record mstate := {
  before : str;
  after : str;
  captures : list (option str)
}.

Definition cont := mstate -> option mstate.

Fixpoint set_nth {A} (n : nat) (v : A) (l : list A) : list A :=
  match l, n with
  | [], _ => []
  | _ :: r, O => v :: r
  | a :: r, S k => a :: set_nth k v r
  end.

(** Capturing group [n] is entry [n - 1]. *)
Definition set_capture (n : nat) (v : option str) (caps : list (option str))
  : list (option str) :=
  match n with
  | O => caps
  | S k => set_nth k v caps
  end.

Definition get_capture (n : nat) (caps : list (option str)) : option str :=
  match n with
  | O => None
  | S k => nth k caps None
  end.

(** The numbers of the capturing groups inside [r]. *)
Fixpoint groups_of (r : regex) : list nat :=
  match r with
  | Seq r1 r2 | Alt r1 r2 => groups_of r1 ++ groups_of r2
  | Quant r _ _ _ | Lookahead _ r => groups_of r
  | Group n r => n :: groups_of r
  | _ => []
  end.

Definition clear_captures (gs : list nat) (x : mstate) : mstate :=
  {| before := before x; after := after x;
     captures := fold_right (fun n caps => set_capture n None caps) (captures x) gs |}.

Definition is_word_char (c : ascii) : bool := isalnum c || Ascii.eqb c "_".

Definition is_space (c : ascii) : bool :=
  ((9 <=? code c) && (code c <=? 13)) || (code c =? 32).

Definition is_line_terminator (c : ascii) : bool :=
  (code c =? 10) || (code c =? 13).

Definition dec_max (max : option nat) : option nat :=
  match max with
  | Some n => Some (Nat.pred n)
  | None => None
  end.

Definition max_is_zero (max : option nat) : bool :=
  match max with
  | Some O => true
  | _ => false
  end.

Section Repeat.

(** RepeatMatcher of ECMA-262 for the matcher [mr] of the repeated atom,
    whose capturing groups are [gs], followed by the continuation [c]. *)
Variable mr : mstate -> cont -> option mstate.
Variable gs : list nat.
Variable greedy : bool.
Variable c : cont.

(** The iterations once the minimum is reached. An iteration that does not
    advance fails, so the recursion is bounded by the number of characters
    left, which [fuel] is at least. *)
Fixpoint repeat0 (fuel : nat) (max : option nat) (x : mstate) : option mstate :=
  if max_is_zero max then c x
  else
    match fuel with
    | O => c x
    | S fuel' =>
        let d : cont := fun y =>
          if (length (after y) =? length (after x))%nat then None
          else repeat0 fuel' (dec_max max) y in
        if greedy then
          match mr (clear_captures gs x) d with
          | Some z => Some z
          | None => c x
          end
        else
          match c x with
          | Some z => Some z
          | None => mr (clear_captures gs x) d
          end
    end.

Fixpoint repeat_matcher (min : nat) (max : option nat) (x : mstate) : option mstate :=
  match min with
  | O => repeat0 (length (after x)) max x
  | S min' =>
      if max_is_zero max then c x
      else mr (clear_captures gs x) (fun y => repeat_matcher min' (dec_max max) y)
  end.

End Repeat.

Section Match.

(** The icase flag. *)
Variable ic : bool.

Definition canonicalize (c : ascii) : ascii :=
  if ic && islower c then chr (code c - 32) else c.

Definition lower (c : ascii) : ascii :=
  if isupper c then chr (code c + 32) else c.

Definition class_item_matches (it : class_item) (c : ascii) : bool :=
  match it with
  | CChar a => Ascii.eqb (canonicalize a) (canonicalize c)
  | CRange lo hi =>
      in_range lo hi c
      || (ic && (in_range lo hi (canonicalize c) || in_range lo hi (lower c)))
  | CDigit neg => xorb neg (isdigit c)
  | CSpace neg => xorb neg (is_space c)
  | CWord neg => xorb neg (is_word_char c)
  end.

(** Consume one character that satisfies [p]. *)
Definition step_char (p : ascii -> bool) (x : mstate) (c : cont) : option mstate :=
  match after x with
  | a :: r =>
      if p a then c {| before := a :: before x; after := r; captures := captures x |}
      else None
  | [] => None
  end.

(** Consume the text [s], up to case when icase is set. *)
Fixpoint match_text (s : str) (x : mstate) : option mstate :=
  match s with
  | [] => Some x
  | a :: s' =>
      match after x with
      | b :: r =>
          if Ascii.eqb (canonicalize a) (canonicalize b)
          then match_text s' {| before := b :: before x; after := r; captures := captures x |}
          else None
      | [] => None
      end
  end.

Definition word_before (x : mstate) : bool :=
  match before x with
  | a :: _ => is_word_char a
  | [] => false
  end.

Definition word_after (x : mstate) : bool :=
  match after x with
  | a :: _ => is_word_char a
  | [] => false
  end.

(** The text between the positions of [x] and of the later state [y]. *)
Definition consumed (x y : mstate) : str :=
  firstn (length (after x) - length (after y)) (after x).

Fixpoint m (r : regex) (x : mstate) (c : cont) : option mstate :=
  match r with
  | Empty => c x
  | Char ch => step_char (fun a => Ascii.eqb (canonicalize a) (canonicalize ch)) x c
  | Any => step_char (fun a => negb (is_line_terminator a)) x c
  | Class neg items =>
      step_char (fun a => xorb neg (existsb (fun it => class_item_matches it a) items)) x c
  | Seq r1 r2 => m r1 x (fun y => m r2 y c)
  | Alt r1 r2 =>
      match m r1 x c with
      | Some z => Some z
      | None => m r2 x c
      end
  | Quant r1 min max greedy =>
      repeat_matcher (m r1) (groups_of r1) greedy c min max x
  | Group n r1 =>
      m r1 x (fun y =>
        c {| before := before y; after := after y;
             captures := set_capture n (Some (consumed x y)) (captures y) |})
  | Backref n =>
      match get_capture n (captures x) with
      | None => c x
      | Some s =>
          match match_text s x with
          | Some y => c y
          | None => None
          end
      end
  | AssertBegin =>
      match before x with
      | [] => c x
      | _ :: _ => None
      end
  | AssertEnd =>
      match after x with
      | [] => c x
      | _ :: _ => None
      end
  | WordBoundary neg =>
      if xorb neg (xorb (word_before x) (word_after x)) then c x else None
  | Lookahead neg r1 =>
      match m r1 x (fun y => Some y) with
      | Some y =>
          if neg then None
          else c {| before := before x; after := after x; captures := captures y |}
      | None => if neg then c x else None
      end
  end.

End Match.

(** [std::regex_match]: the whole text has to match. *)
Definition regex_match (re : compiled) (s : str) : option smatch :=
  match m (re_icase re) (re_ast re)
          {| before := []; after := s; captures := replicate (re_groups re) None |}
          (fun y => match after y with [] => Some y | _ :: _ => None end) with
  | Some y => Some (Some s :: captures y)
  | None => None
  end.

(** A match that starts at the position of [x] ([std::regex_search] with
    [match_continuous]): the text matched and the captures. *)
Definition match_here (re : compiled) (pre s : str) : option (str * list (option str)) :=
  let x := {| before := pre; after := s; captures := replicate (re_groups re) None |} in
  match m (re_icase re) (re_ast re) x (fun y => Some y) with
  | Some y => Some (consumed x y, captures y)
  | None => None
  end.

(** The successive leftmost matches in [s] ([std::regex_iterator]), each
    with its position. *)
Fixpoint regex_iterate (re : compiled) (pre s : str) (skip : nat)
  : list (nat * str * list (option str)) :=
  match s with
  | [] => []
  | a :: r =>
      match skip with
      | S k => regex_iterate re (a :: pre) r k
      | O =>
          match match_here re pre s with
          | Some (w, caps) =>
              (length pre, w, caps) :: regex_iterate re (a :: pre) r (length w - 1)
          | None => regex_iterate re (a :: pre) r 0
          end
      end
  end.

End ecma.

#[export] Instance ecma_engine : RegexEngine := {|
  regex := ecma.compiled;
  regex_new := ecma.compile;
  mark_count := ecma.re_groups;
  regex_match := ecma.regex_match
|}.

(** ** Notions used to state the properties *)

Import details.

(** The bytes that are copied unchanged. *)
Definition passes (c : ascii) : bool := isalnum c || is_special c.

(** The upper-case hexadecimal digit of a value below 16. *)
Definition hex_digit (v : Z) : ascii :=
  if v <? 10 then chr (code "0" + v) else chr (code "A" + (v - 10)).

Definition encode_byte (c : ascii) : str :=
  if passes c then [c]
  else ["%"%char; hex_digit (code c / 16); hex_digit (code c mod 16)].

(** The decoder as a recursion on the remaining text. *)
Fixpoint decode_from (s : str) : str :=
  match s with
  | [] => []
  | c :: r =>
      match r with
      | h1 :: h2 :: r' =>
          if Ascii.eqb c "%" && isxdigit h1 && isxdigit h2
          then chr (16 * hex_value h1 + hex_value h2) :: decode_from r'
          else c :: decode_from r
      | _ => c :: decode_from r
      end
  end.

Definition escape_at_head (s : str) : bool :=
  match s with
  | c :: h1 :: h2 :: _ => Ascii.eqb c "%" && isxdigit h1 && isxdigit h2
  | _ => false
  end.

(** [s] contains a percent sign followed by two hexadecimal digits. *)
Fixpoint has_escape (s : str) : bool :=
  match s with
  | [] => false
  | _ :: r => escape_at_head s || has_escape r
  end.

(** The hexadecimal digit [h] stands for the value [v]. *)
Definition denotes (h : ascii) (v : Z) : Prop :=
  (isdigit h = true /\ v = code h - code "0") \/
  (in_range "A" "F" h = true /\ v = code h - code "A" + 10) \/
  (in_range "a" "f" h = true /\ v = code h - code "a" + 10).

(** Every backslash of [p] has a slash at or before it: the first slash is
    at or before the first backslash, an absent character counting as
    later than any present one. *)
Definition slash_first (p : str) : Prop :=
  forall j, nth_error p j = Some "\"%char ->
  exists i, (i <= j)%nat /\ nth_error p i = Some "/"%char.

(** The value bound at index [i] of the key list. *)
Definition bound_value (match_ : smatch) (i : nat) : str :=
  percent_decode (sub_str (smatch_at match_ (i + 1))).

Definition bind_all (keys : list str) (match_ : smatch) (n : nat) : gmap str str :=
  fold_left (bind_param keys match_) (seq 0 n) ∅.

(** ** The compiler as a scanner of the remaining text *)

(** What the loop body of [make_pattern] appends for the match [m], and the
    keys after it. *)
Definition emit (self : str -> list str -> ascii -> str * list str)
    (separator : ascii) (m : rx_match) (keys0 : list str) : str * list str :=
  if sub_matched (optional_param_key m) then
    let '(subpattern, keys') := self (sub_str (optional_param_key m)) keys0 separator in
    match subpattern with
    | [] => ([], keys')
    | _ :: _ => (lit "(?:" ++ subpattern ++ lit ")?", keys')
    end
  else if sub_matched (required_param_key m) then
    let keys' := keys0 ++ [percent_decode (sub_str (required_param_key m))] in
    match sub_str (required_param_pattern m) with
    | [] => (lit "([^\" ++ [separator] ++ lit "]+?)", keys')
    | _ :: _ => (sub_str (required_param_pattern m), keys')
    end
  else if sub_matched (wildcard_param_key m) then
    (lit "(\S+?)", keys0 ++ [percent_decode (sub_str (wildcard_param_key m))])
  else if sub_matched (special_chars_key m) then
    (["\"%char] ++ sub_str (special_chars_key m), keys0)
  else ([], keys0).

(** [make_pattern] without positions: [s] is the text still to scan, [skip]
    the number of its characters that the last match covers. *)
Fixpoint scan (self : str -> list str -> ascii -> str * list str)
    (separator : ascii) (s : str) (skip : nat) (pat : str) (keys0 : list str)
  : str * list str :=
  match s with
  | [] => (pat, keys0)
  | c :: r =>
      match skip with
      | S k => scan self separator r k pat keys0
      | O =>
          match rx_at 0 s with
          | Some m =>
              scan self separator r (length_ m - 1)
                   (pat ++ fst (emit self separator m keys0))
                   (snd (emit self separator m keys0))
          | None => scan self separator r 0 (pat ++ [c]) keys0
          end
      end
  end.

Definition at_position (pos : nat) (m : rx_match) : rx_match :=
  {| position := pos; length_ := length_ m;
     optional_param_key := optional_param_key m;
     required_param_key := required_param_key m;
     required_param_pattern := required_param_pattern m;
     wildcard_param_key := wildcard_param_key m;
     special_chars_key := special_chars_key m |}.
(** The pattern and keys [make_pattern] returns from the loop state. *)
Definition finish (path : str) (st : mp_state) : str * list str :=
  (if (last_pos st <? length path)%nat
   then pattern st ++ substr path (last_pos st) (length path - last_pos st)
   else pattern st,
   keys st).

(** No required parameter matched in [s] carries a custom sub-pattern. *)
Definition plain_text (s : str) : bool :=
  forallb (fun m => negb (sub_matched (required_param_pattern m))) (sregex_iterator s).

(** The same for [s] and for the inside of each of its optional groups. *)
Definition plain (s : str) : bool :=
  plain_text s
  && forallb (fun m => plain_text (sub_str (optional_param_key m))) (sregex_iterator s).

(** The pieces of a compiled pattern without custom sub-patterns. *)
Inductive atom :=
  | ALit (c : ascii)
  | AEsc (c : ascii)
  | AParam
  | AWild.

Inductive item :=
  | IAtom (a : atom)
  | IOpt (inner : list atom).

Definition render_atom (sep : ascii) (a : atom) : str :=
  match a with
  | ALit c => [c]
  | AEsc c => ["\"%char; c]
  | AParam => lit "([^\" ++ [sep] ++ lit "]+?)"
  | AWild => lit "(\S+?)"
  end.

Definition render_atoms (sep : ascii) (atoms : list atom) : str :=
  flat_map (render_atom sep) atoms.

Definition render_item (sep : ascii) (i : item) : str :=
  match i with
  | IAtom a => render_atom sep a
  | IOpt inner => lit "(?:" ++ render_atoms sep inner ++ lit ")?"
  end.

Definition render (sep : ascii) (items : list item) : str :=
  flat_map (render_item sep) items.

Definition atom_ok (a : atom) : bool :=
  match a with
  | ALit c => negb (is_rx_special c)
  | AEsc c => is_rx_special c
  | AParam | AWild => true
  end.

Definition item_ok (i : item) : bool :=
  match i with
  | IAtom a => atom_ok a
  | IOpt inner =>
      match inner with
      | [] => false
      | _ :: _ => forallb atom_ok inner
      end
  end.

Definition atom_groups (a : atom) : nat :=
  match a with
  | AParam | AWild => 1
  | ALit _ | AEsc _ => 0
  end.

Definition atoms_groups (atoms : list atom) : nat :=
  list_sum (map atom_groups atoms).

Definition item_groups (i : item) : nat :=
  match i with
  | IAtom a => atom_groups a
  | IOpt inner => atoms_groups inner
  end.

Definition items_groups (items : list item) : nat :=
  list_sum (map item_groups items).

Definition mk_rx_match (len : nat) (g1 g2 g3 g4 g5 : option str) : rx_match :=
  {| position := 0; length_ := len;
     optional_param_key := g1; required_param_key := g2;
     required_param_pattern := g3; wildcard_param_key := g4;
     special_chars_key := g5 |}.

(** The shapes of the text at a match of the tokenizer regex. *)
Inductive rx_kind (s : str) : option rx_match -> Prop :=
  | K_end : s = [] -> rx_kind s None
  | K_literal c r :
      s = c :: r -> is_rx_special c = false -> rx_kind s None
  | K_optional inner rest :
      s = "{"%char :: inner ++ "}"%char :: rest ->
      forallb (not_char "}") inner = true ->
      rx_kind s (Some (mk_rx_match (length inner + 2) (Some inner) None None None None))
  | K_required key custom rest :
      s = ":"%char :: key ++ sub_str custom ++ rest ->
      key <> [] ->
      rx_kind s (Some (mk_rx_match (1 + length key + length (sub_str custom))
                                   None (Some key) custom None None))
  | K_wildcard key rest :
      s = "*"%char :: key ++ rest ->
      key <> [] ->
      rx_kind s (Some (mk_rx_match (1 + length key) None None None (Some key) None))
  | K_special c r :
      s = c :: r -> is_rx_special c = true ->
      rx_kind s (Some (mk_rx_match 1 None None None None (Some [c]))).

(** ** The tokenizer regex run by the engine model *)

(** The matches of [rx] in [s] as the engine model finds them: position,
    length and the five sub-matches. *)
Definition rx_by_engine (s : str) : option (list (nat * nat * list (option str))) :=
  match ecma.compile rx_text (make_regex_flags case_sensitive) with
  | Some re =>
      Some (map (fun '(pos, w, caps) => (pos, length w, caps))
                (ecma.regex_iterate re [] s 0))
  | None => None
  end.

(** The same from the scanner. *)
Definition rx_by_scanner (s : str) : option (list (nat * nat * list (option str))) :=
  Some (map (fun m => (position m, length_ m,
                       [optional_param_key m; required_param_key m;
                        required_param_pattern m; wildcard_param_key m;
                        special_chars_key m]))
            (sregex_iterator s)).

Section TokenizerTree.

Import ecma.

(** The syntax tree of [rx], one definition per alternative. *)
Definition rx_alt1 : regex :=
  Seq (Char "{")
    (Seq (Group 1 (Seq (Quant (Class true [CChar "}"]) 0 None true) Empty))
       (Seq (Char "}") Empty)).

(** The class of [\w] and [%]. *)
Definition rx_key_class : regex := Class false [CWord false; CChar "%"].

(** The parenthesised custom sub-pattern, group 3. *)
Definition rx_custom : regex :=
  Group 3
    (Seq (Char "(")
       (Seq (Quant (Class true [CChar ")"]) 1 None true) (Seq (Char ")") Empty))).

Definition rx_alt2 : regex :=
  Seq (Char ":")
    (Seq (Group 2 (Seq (Quant rx_key_class 1 None true) Empty))
       (Seq (Quant rx_custom 0 (Some 1%nat) true) Empty)).

Definition rx_alt3 : regex :=
  Seq (Char "*") (Seq (Group 4 (Seq (Quant rx_key_class 1 None true) Empty)) Empty).

Definition rx_alt4 : regex :=
  Seq (Group 5
         (Seq (Class false (map CChar (lit ".^$*+?()|[]{}\"))) Empty))
      Empty.

Definition rx_compiled : compiled :=
  {| re_ast := Alt rx_alt1 (Alt rx_alt2 (Alt rx_alt3 rx_alt4));
     re_groups := 5; re_icase := false |}.

(** The custom sub-pattern that [rx_at] finds after the key of a required
    parameter, [r1] being the text after the key. *)
Definition custom_at (r1 : str) : option str :=
  match r1 with
  | o :: r' =>
      if Ascii.eqb o "(" then
        let body := take_while (not_char ")") r' in
        match body, skipn (length body) r' with
        | _ :: _, _ :: _ => Some (["("%char] ++ body ++ [")"%char])
        | _, _ => None
        end
      else None
  | [] => None
  end.

End TokenizerTree.

(** ** The test fixtures of the repository *)

(** [struct TestCase] of [tests/src/main.cpp]. *)
Record TestCase := test {
  tc_path : str;
  tc_testPath : str;
  tc_matched : bool;
  tc_params : list (str * str);
  tc_sensitivity : case_sensitivity
}.

(** The body of [TEST_P(Test, Test)] with the engine model: the pattern
    compiles, and both expectations hold. *)
Definition test_passes (tc : TestCase) : bool :=
  match match_ (tc_path tc) (tc_sensitivity tc) with
  | Some M =>
      let r := matcher_call M (tc_testPath tc) in
      Bool.eqb (matched r) (tc_matched tc)
      && bool_decide (params r = list_to_map (tc_params tc))
  | None => false
  end.

(** The values of [INSTANTIATE_TEST_SUITE_P], in their order. *)
Definition test_cases : list TestCase := [
  test [] [] true [] case_sensitive;
  test [] (lit "/") true [] case_sensitive;
  test [] (lit "/foo") false [] case_sensitive;
  test (lit "/") [] true [] case_sensitive;
  test (lit "/") (lit "/") true [] case_sensitive;
  test (lit "/") (lit "/foo") false [] case_sensitive;
  test (lit "/foo") (lit "/") false [] case_sensitive;
  test (lit "/foo") (lit "/foo") true [] case_sensitive;
  test (lit "/foo") (lit "/foo/") true [] case_sensitive;
  test (lit "/foo") (lit "/bar") false [] case_sensitive;
  test (lit "/foo") (lit "/foo/bar") false [] case_sensitive;
  test (lit "/foo/") (lit "/") false [] case_sensitive;
  test (lit "/foo/") (lit "/foo") true [] case_sensitive;
  test (lit "/foo/") (lit "/foo/") true [] case_sensitive;
  test (lit "/foo/") (lit "/bar") false [] case_sensitive;
  test (lit "/foo/") (lit "/foo/bar") false [] case_sensitive;
  test (lit "/:foo") (lit "/") false [] case_sensitive;
  test (lit "/:foo") (lit "/x") true [(lit "foo", lit "x")] case_sensitive;
  test (lit "/:foo") (lit "/x/") true [(lit "foo", lit "x")] case_sensitive;
  test (lit "/:foo") (lit "/x/y") false [] case_sensitive;
  test (lit "/:foo/") (lit "/") false [] case_sensitive;
  test (lit "/:foo/") (lit "/x") true [(lit "foo", lit "x")] case_sensitive;
  test (lit "/:foo/") (lit "/x/") true [(lit "foo", lit "x")] case_sensitive;
  test (lit "/:foo/") (lit "/x/y") false [] case_sensitive;
  test (lit "/:foo(\d{3})/") (lit "/x") false [] case_sensitive;
  test (lit "/:foo(\d{3})/") (lit "/1") false [] case_sensitive;
  test (lit "/:foo(\d{3})/") (lit "/111") true [(lit "foo", lit "111")] case_sensitive;
  test (lit "/:foo(\d{3})/") (lit "/111/") true [(lit "foo", lit "111")] case_sensitive;
  test (lit "/:foo/:bar") (lit "/x") false [] case_sensitive;
  test (lit "/:foo/:bar") (lit "/x/y") true [(lit "foo", lit "x"); (lit "bar", lit "y")] case_sensitive;
  test (lit "/:foo/:bar") (lit "/x/y/") true [(lit "foo", lit "x"); (lit "bar", lit "y")] case_sensitive;
  test (lit "/:foo.:bar") (lit "/x.y") true [(lit "foo", lit "x"); (lit "bar", lit "y")] case_sensitive;
  test (lit "/:foo.:bar") (lit "/x.y") true [(lit "foo", lit "x"); (lit "bar", lit "y")] case_sensitive;
  test (lit "/:foo/:bar") (lit "/x/y/z") false [] case_sensitive;
  test (lit "/:foo/:bar/") (lit "/x") false [] case_sensitive;
  test (lit "/:foo/:bar/") (lit "/x/y") true [(lit "foo", lit "x"); (lit "bar", lit "y")] case_sensitive;
  test (lit "/:foo/:bar/") (lit "/x/y/") true [(lit "foo", lit "x"); (lit "bar", lit "y")] case_sensitive;
  test (lit "/:foo.:bar/") (lit "/x.y") true [(lit "foo", lit "x"); (lit "bar", lit "y")] case_sensitive;
  test (lit "/:foo.:bar/") (lit "/x.y") true [(lit "foo", lit "x"); (lit "bar", lit "y")] case_sensitive;
  test (lit "/:foo/:bar/") (lit "/x/y/z") false [] case_sensitive;
  test (lit "/foo/:bar") (lit "/foo") false [] case_sensitive;
  test (lit "/foo/:bar") (lit "/foo/y") true [(lit "bar", lit "y")] case_sensitive;
  test (lit "/foo/:bar") (lit "/foo/y/") true [(lit "bar", lit "y")] case_sensitive;
  test (lit "/foo.:bar") (lit "/foo.y") true [(lit "bar", lit "y")] case_sensitive;
  test (lit "/foo.:bar") (lit "/foo.y/") true [(lit "bar", lit "y")] case_sensitive;
  test (lit "/foo/:bar") (lit "/foo/y/z") false [] case_sensitive;
  test (lit "/foo/:bar/") (lit "/foo") false [] case_sensitive;
  test (lit "/foo/:bar/") (lit "/foo/y") true [(lit "bar", lit "y")] case_sensitive;
  test (lit "/foo/:bar/") (lit "/foo/y/") true [(lit "bar", lit "y")] case_sensitive;
  test (lit "/foo.:bar/") (lit "/foo.y") true [(lit "bar", lit "y")] case_sensitive;
  test (lit "/foo.:bar/") (lit "/foo.y/") true [(lit "bar", lit "y")] case_sensitive;
  test (lit "/foo/:bar/") (lit "/foo/y/z") false [] case_sensitive;
  test (lit "/:foo/bar") (lit "/x") false [] case_sensitive;
  test (lit "/:foo/bar") (lit "/x/bar") true [(lit "foo", lit "x")] case_sensitive;
  test (lit "/:foo/bar") (lit "/x/bar/") true [(lit "foo", lit "x")] case_sensitive;
  test (lit "/:foo.bar") (lit "/x.bar") true [(lit "foo", lit "x")] case_sensitive;
  test (lit "/:foo.bar") (lit "/x.bar/") true [(lit "foo", lit "x")] case_sensitive;
  test (lit "/:foo/bar") (lit "/x/bar/z") false [] case_sensitive;
  test (lit "/:foo/bar/") (lit "/x") false [] case_sensitive;
  test (lit "/:foo/bar/") (lit "/x/bar") true [(lit "foo", lit "x")] case_sensitive;
  test (lit "/:foo/bar/") (lit "/x/bar/") true [(lit "foo", lit "x")] case_sensitive;
  test (lit "/:foo.bar/") (lit "/x.bar") true [(lit "foo", lit "x")] case_sensitive;
  test (lit "/:foo.bar/") (lit "/x.bar/") true [(lit "foo", lit "x")] case_sensitive;
  test (lit "/:foo/bar/") (lit "/x/bar/z") false [] case_sensitive;
  test (lit "{}") [] true [] case_sensitive;
  test (lit "{}") (lit "/") true [] case_sensitive;
  test (lit "{}") (lit "/foo") false [] case_sensitive;
  test (lit "{/}") [] true [] case_sensitive;
  test (lit "{/}") (lit "/") true [] case_sensitive;
  test (lit "{/}") (lit "/foo") false [] case_sensitive;
  test (lit "{/foo}") (lit "/") true [] case_sensitive;
  test (lit "{/foo}") (lit "/foo") true [] case_sensitive;
  test (lit "{/foo}") (lit "/foo/") true [] case_sensitive;
  test (lit "{/foo}") (lit "/bar") false [] case_sensitive;
  test (lit "{/foo}") (lit "/foo/bar") false [] case_sensitive;
  test (lit "{/foo}/") (lit "/") true [] case_sensitive;
  test (lit "{/foo}/") (lit "/foo") true [] case_sensitive;
  test (lit "{/foo}/") (lit "/foo/") true [] case_sensitive;
  test (lit "{/foo}/") (lit "/bar") false [] case_sensitive;
  test (lit "{/foo}/") (lit "/foo/bar") false [] case_sensitive;
  test (lit "{/:foo}") [] true [(lit "foo", [])] case_sensitive;
  test (lit "{/:foo}") (lit "/x") true [(lit "foo", lit "x")] case_sensitive;
  test (lit "{/:foo}") (lit "/x/") true [(lit "foo", lit "x")] case_sensitive;
  test (lit "{/:foo}") (lit "/x/y") false [] case_sensitive;
  test (lit "{/:foo}/") [] true [(lit "foo", [])] case_sensitive;
  test (lit "{/:foo}/") (lit "/x") true [(lit "foo", lit "x")] case_sensitive;
  test (lit "{/:foo}/") (lit "/x/") true [(lit "foo", lit "x")] case_sensitive;
  test (lit "{/:foo}/") (lit "/x/y") false [] case_sensitive;
  test (lit "{/:foo}/:bar") [] false [] case_sensitive;
  test (lit "{/:foo}/:bar") (lit "/y") true [(lit "foo", []); (lit "bar", lit "y")] case_sensitive;
  test (lit "{/:foo}/:bar") (lit "/y/") true [(lit "foo", []); (lit "bar", lit "y")] case_sensitive;
  test (lit "{/:foo}/:bar") (lit "/x/y") true [(lit "foo", lit "x"); (lit "bar", lit "y")] case_sensitive;
  test (lit "{/:foo}/:bar") (lit "/x/y/") true [(lit "foo", lit "x"); (lit "bar", lit "y")] case_sensitive;
  test (lit "{/:foo/}:bar") (lit "/x/y/z") false [] case_sensitive;
  test (lit "{/:foo}/:bar/") [] false [] case_sensitive;
  test (lit "{/:foo}/:bar/") (lit "/y") true [(lit "foo", []); (lit "bar", lit "y")] case_sensitive;
  test (lit "{/:foo}/:bar/") (lit "/y/") true [(lit "foo", []); (lit "bar", lit "y")] case_sensitive;
  test (lit "{/:foo}/:bar/") (lit "/x/y") true [(lit "foo", lit "x"); (lit "bar", lit "y")] case_sensitive;
  test (lit "{/:foo}/:bar/") (lit "/x/y/") true [(lit "foo", lit "x"); (lit "bar", lit "y")] case_sensitive;
  test (lit "{/:foo/}:bar/") (lit "/x/y/z") false [] case_sensitive;
  test (lit "/:foo{/:bar}") [] false [] case_sensitive;
  test (lit "/:foo{/:bar}") (lit "/x") true [(lit "foo", lit "x"); (lit "bar", [])] case_sensitive;
  test (lit "/:foo{/:bar}") (lit "/x/") true [(lit "foo", lit "x"); (lit "bar", [])] case_sensitive;
  test (lit "/:foo{/:bar}") (lit "/x/y") true [(lit "foo", lit "x"); (lit "bar", lit "y")] case_sensitive;
  test (lit "/:foo{/:bar}") (lit "/x/y/") true [(lit "foo", lit "x"); (lit "bar", lit "y")] case_sensitive;
  test (lit "/:foo{/:bar}") (lit "/x/y/z") false [] case_sensitive;
  test (lit "/:foo{/:bar}/") [] false [] case_sensitive;
  test (lit "/:foo{/:bar}/") (lit "/x") true [(lit "foo", lit "x"); (lit "bar", [])] case_sensitive;
  test (lit "/:foo{/:bar}/") (lit "/x/") true [(lit "foo", lit "x"); (lit "bar", [])] case_sensitive;
  test (lit "/:foo{/:bar}/") (lit "/x/y") true [(lit "foo", lit "x"); (lit "bar", lit "y")] case_sensitive;
  test (lit "/:foo{/:bar}/") (lit "/x/y/") true [(lit "foo", lit "x"); (lit "bar", lit "y")] case_sensitive;
  test (lit "/:foo{/:bar}/") (lit "/x/y/z") false [] case_sensitive;
  test (lit "/*foo") [] false [] case_sensitive;
  test (lit "/*foo") (lit "/") false [] case_sensitive;
  test (lit "/*foo") (lit "/x") true [(lit "foo", lit "x")] case_sensitive;
  test (lit "/*foo") (lit "/x/") true [(lit "foo", lit "x")] case_sensitive;
  test (lit "/*foo") (lit "/x/y") true [(lit "foo", lit "x/y")] case_sensitive;
  test (lit "/*foo") (lit "/x/y/") true [(lit "foo", lit "x/y")] case_sensitive;
  test (lit "/foo/*bar") [] false [] case_sensitive;
  test (lit "/foo/*bar") (lit "/") false [] case_sensitive;
  test (lit "/foo/*bar") (lit "/x") false [] case_sensitive;
  test (lit "/foo/*bar") (lit "/foo/x") true [(lit "bar", lit "x")] case_sensitive;
  test (lit "/foo/*bar") (lit "/foo/x/") true [(lit "bar", lit "x")] case_sensitive;
  test (lit "/foo/*bar") (lit "/foo/x/y") true [(lit "bar", lit "x/y")] case_sensitive;
  test (lit "/foo/*bar") (lit "/foo/x/y/") true [(lit "bar", lit "x/y")] case_sensitive;
  test (lit "/:foo/*bar") [] false [] case_sensitive;
  test (lit "/:foo/*bar") (lit "/") false [] case_sensitive;
  test (lit "/:foo/*bar") (lit "/x") false [] case_sensitive;
  test (lit "/:foo/*bar") (lit "/x/y") true [(lit "foo", lit "x"); (lit "bar", lit "y")] case_sensitive;
  test (lit "/:foo/*bar") (lit "/x/y/") true [(lit "foo", lit "x"); (lit "bar", lit "y")] case_sensitive;
  test (lit "/:foo/*bar") (lit "/x/y/z") true [(lit "foo", lit "x"); (lit "bar", lit "y/z")] case_sensitive;
  test (lit "/:foo/*bar") (lit "/x/y/z/") true [(lit "foo", lit "x"); (lit "bar", lit "y/z")] case_sensitive;
  test (lit "/caf" ++ [chr 195; chr 169]) (lit "/caf" ++ [chr 195; chr 169]) true [] case_sensitive;
  test (lit "/caf" ++ [chr 195; chr 169]) (lit "/caf" ++ [chr 195; chr 169] ++ lit "/") true [] case_sensitive;
  test (lit "/caf" ++ [chr 195; chr 169]) (lit "/caf%C3%A9") true [] case_sensitive;
  test (lit "/caf" ++ [chr 195; chr 169]) (lit "/caf%C3%A9/") true [] case_sensitive;
  test (lit "/caf%C3%A9") (lit "/caf" ++ [chr 195; chr 169]) true [] case_sensitive;
  test (lit "/caf%C3%A9") (lit "/caf" ++ [chr 195; chr 169] ++ lit "/") true [] case_sensitive;
  test (lit "/a%2Fb") (lit "/a%2Fb") true [] case_sensitive;
  test (lit "/:caf" ++ [chr 195; chr 169]) (lit "/x") true [((lit "caf" ++ [chr 195; chr 169]), lit "x")] case_sensitive;
  test (lit "/:caf" ++ [chr 195; chr 169]) (lit "/x/") true [((lit "caf" ++ [chr 195; chr 169]), lit "x")] case_sensitive;
  test (lit "/:caf%C3%A9") (lit "/x") true [((lit "caf" ++ [chr 195; chr 169]), lit "x")] case_sensitive;
  test (lit "/:caf%C3%A9") (lit "/x/") true [((lit "caf" ++ [chr 195; chr 169]), lit "x")] case_sensitive;
  test (lit "/:foo") (lit "/a%2Fb") true [(lit "foo", lit "a/b")] case_sensitive;
  test (lit "/;,:@&=+$-_.!~*()") (lit "/;,:@&=+$-_.!~*()") true [] case_sensitive;
  test (lit "/:foo") (lit "/;,:@&=+$-_.!~*()") true [(lit "foo", lit ";,:@&=+$-_.!~*()")] case_sensitive;
  test (lit "/:foo") (lit "/param%2523") true [(lit "foo", lit "param%23")] case_sensitive;
  test (lit "C:\foo") (lit "C:\") false [] case_sensitive;
  test (lit "C:\foo") (lit "C:\foo") true [] case_sensitive;
  test (lit "C:\foo") (lit "C:\foo\") true [] case_sensitive;
  test (lit "C:\foo") (lit "C:\bar") false [] case_sensitive;
  test (lit "C:\foo") (lit "C:\foo\bar") false [] case_sensitive;
  test (lit "C:\:foo") (lit "C:\") false [] case_sensitive;
  test (lit "C:\:foo") (lit "C:\x") true [(lit "foo", lit "x")] case_sensitive;
  test (lit "C:\:foo") (lit "C:\x\") true [(lit "foo", lit "x")] case_sensitive;
  test (lit "C:\:foo") (lit "C:\x\y") false [] case_sensitive;
  test (lit "C:\:foo\") (lit "C:\") false [] case_sensitive;
  test (lit "C:\:foo\") (lit "C:\x") true [(lit "foo", lit "x")] case_sensitive;
  test (lit "C:\:foo\") (lit "C:\x\") true [(lit "foo", lit "x")] case_sensitive;
  test (lit "C:\:foo\") (lit "C:\x\y") false [] case_sensitive;
  test (lit "/foo") (lit "/FOO") false [] case_sensitive;
  test (lit "/foo") (lit "/FOO") true [] case_insensitive;
  test (lit "/foo/bar") (lit "/FOO/BAR") false [] case_sensitive;
  test (lit "/foo/bar") (lit "/FOO/BAR") true [] case_insensitive
].

(** ** Parsing a compiled pattern without custom sub-patterns *)

(** The separator is a slash or a backslash. *)
Definition is_separator (sep : ascii) : bool :=
  Ascii.eqb sep "/" || Ascii.eqb sep "\".

(** The term the parser builds for an atom when [n] capturing groups
    precede it. *)
Definition atom_term (sep : ascii) (n : nat) (a : atom) : ecma.regex :=
  match a with
  | ALit c | AEsc c => ecma.Char c
  | AParam =>
      ecma.Group (S n)
        (ecma.Seq (ecma.Quant (ecma.Class true [ecma.CChar sep]) 1 None false)
                  ecma.Empty)
  | AWild =>
      ecma.Group (S n)
        (ecma.Seq (ecma.Quant (ecma.Class false [ecma.CSpace true]) 1 None false)
                  ecma.Empty)
  end.

Fixpoint atoms_terms (sep : ascii) (n : nat) (atoms : list atom) : list ecma.regex :=
  match atoms with
  | [] => []
  | a :: r => atom_term sep n a :: atoms_terms sep (atom_groups a + n) r
  end.

Definition seq_of (ts : list ecma.regex) : ecma.regex :=
  fold_right ecma.Seq ecma.Empty ts.

Definition item_term (sep : ascii) (n : nat) (i : item) : ecma.regex :=
  match i with
  | IAtom a => atom_term sep n a
  | IOpt inner => ecma.Quant (seq_of (atoms_terms sep n inner)) 0 (Some 1%nat) true
  end.

Fixpoint items_terms (sep : ascii) (n : nat) (items : list item) : list ecma.regex :=
  match items with
  | [] => []
  | i :: r => item_term sep n i :: items_terms sep (item_groups i + n) r
  end.

(** The parser state after the terms [ts], which hold [g] capturing groups. *)
Definition add_terms (ts : list ecma.regex) (g : nat) (st : ecma.pstate) : ecma.pstate :=
  {| ecma.p_alts := ecma.p_alts st;
     ecma.p_seq := rev ts ++ ecma.p_seq st;
     ecma.p_stack := ecma.p_stack st;
     ecma.p_groups := (g + ecma.p_groups st)%nat;
     ecma.p_maxref := ecma.p_maxref st |}.

(** The text does not begin with a quantifier. *)
Definition no_quant (b : str) : bool :=
  match b with
  | c :: _ => negb (existsb (Ascii.eqb c) (lit "*+?{"))
  | [] => true
  end.
(** The regex compiled from [^], the items, the separator made optional and
    [$]. *)
Definition plain_regex (sep : ascii) (items : list item) (ic : bool) : ecma.compiled :=
  {| ecma.re_ast :=
       seq_of (ecma.AssertBegin
                 :: items_terms sep 0 items
                 ++ [ecma.Quant (ecma.Char sep) 0 (Some 1%nat) true; ecma.AssertEnd]);
     ecma.re_groups := items_groups items;
     ecma.re_icase := ic |}.

(** ** The language of a regex without assertions and back-references *)

(** No assertion, look-ahead or back-reference, and every bounded
    quantifier has its minimum below its maximum. *)
Fixpoint simple (r : ecma.regex) : bool :=
  match r with
  | ecma.Empty | ecma.Char _ | ecma.Any | ecma.Class _ _ => true
  | ecma.Seq r1 r2 | ecma.Alt r1 r2 => simple r1 && simple r2
  | ecma.Quant r1 mn mx _ =>
      simple r1 && match mx with Some k => (mn <=? k)%nat | None => true end
  | ecma.Group _ r1 => simple r1
  | ecma.Backref _ | ecma.AssertBegin | ecma.AssertEnd
  | ecma.WordBoundary _ | ecma.Lookahead _ _ => false
  end.

Definition within (mx : option nat) (k : nat) : Prop :=
  match mx with
  | Some n => (k <= n)%nat
  | None => True
  end.

(** [w] is the concatenation of at least [mn] and at most [mx] texts of [L]. *)
Definition repeats (L : str -> Prop) (mn : nat) (mx : option nat) (w : str) : Prop :=
  exists ws, w = concat ws /\ Forall L ws /\ (mn <= length ws)%nat /\ within mx (length ws).

(** The texts a simple regex matches, [ic] being the icase flag. *)
Fixpoint lang (ic : bool) (r : ecma.regex) (w : str) : Prop :=
  match r with
  | ecma.Empty => w = []
  | ecma.Char ch =>
      exists a, w = [a] /\
        Ascii.eqb (ecma.canonicalize ic a) (ecma.canonicalize ic ch) = true
  | ecma.Any => exists a, w = [a] /\ ecma.is_line_terminator a = false
  | ecma.Class neg items =>
      exists a, w = [a] /\
        xorb neg (existsb (fun it => ecma.class_item_matches ic it a) items) = true
  | ecma.Seq r1 r2 => exists w1 w2, w = w1 ++ w2 /\ lang ic r1 w1 /\ lang ic r2 w2
  | ecma.Alt r1 r2 => lang ic r1 w \/ lang ic r2 w
  | ecma.Quant r1 mn mx _ => repeats (lang ic r1) mn mx w
  | ecma.Group _ r1 => lang ic r1 w
  | _ => False
  end.

(** On states with at most [n] characters left, the continuation [k]
    succeeds exactly when the rest of the text satisfies [P]. *)
Definition accepts_at (k : ecma.cont) (n : nat) (P : str -> Prop) : Prop :=
  forall y, (length (ecma.after y) <= n)%nat -> (is_Some (k y) <-> P (ecma.after y)).

(** ** The tokens of a pattern *)

(** What [make_pattern] writes for a character outside parameters and
    optional groups: the characters that are special in a regular
    expression get a backslash. *)
Definition escape_char (c : ascii) : str :=
  if is_rx_special c then ["\"%char; c] else [c].

(** What [make_pattern] reads in a pattern: a character of literal text, a
    required parameter with the text of its custom sub-pattern (empty when
    it has none), a wildcard, or an optional group holding tokens of the
    first three kinds. *)
Inductive tok :=
  | TChar (c : ascii)
  | TParam (key custom : str)
  | TWild (key : str).

Inductive token :=
  | TOne (t : tok)
  | TOpt (inner : list tok).

(** The text of a token in the pattern. *)
Definition tok_text (t : tok) : str :=
  match t with
  | TChar c => [c]
  | TParam key custom => ":"%char :: key ++ custom
  | TWild key => "*"%char :: key
  end.

Definition token_text (t : token) : str :=
  match t with
  | TOne t => tok_text t
  | TOpt inner => "{"%char :: flat_map tok_text inner ++ ["}"%char]
  end.

(** The text of a token in the compiled pattern, for the separator [sep]:
    only a parameter without custom sub-pattern depends on it. *)
Definition tok_pattern (sep : ascii) (t : tok) : str :=
  match t with
  | TChar c => escape_char c
  | TParam _ [] => lit "([^\" ++ [sep] ++ lit "]+?)"
  | TParam _ (c :: custom) => c :: custom
  | TWild _ => lit "(\S+?)"
  end.

Definition token_pattern (sep : ascii) (t : token) : str :=
  match t with
  | TOne t => tok_pattern sep t
  | TOpt inner =>
      match flat_map (tok_pattern sep) inner with
      | [] => []
      | c :: sub => lit "(?:" ++ (c :: sub) ++ lit ")?"
      end
  end.

(** The keys of a token. *)
Definition tok_keys (t : tok) : list str :=
  match t with
  | TChar _ => []
  | TParam key _ | TWild key => [percent_decode key]
  end.

Definition token_keys (t : token) : list str :=
  match t with
  | TOne t => tok_keys t
  | TOpt inner => flat_map tok_keys inner
  end.

(** The end of a compiled pattern: the separator that ends [body], or else
    an escaped separator after it, is made optional. *)
Definition optional_separator (sep : ascii) (body : str) : str :=
  match rev body with
  | c :: _ => if Ascii.eqb c sep then body else body ++ ["\"%char; sep]
  | [] => ["\"%char; sep]
  end.

(** ** Further properties of the code: notions *)

(** The first separator character of [p], the slash when there is none. *)
Fixpoint first_separator (p : str) : ascii :=
  match p with
  | [] => "/"%char
  | c :: r =>
      if Ascii.eqb c "/" then "/"%char
      else if Ascii.eqb c "\" then "\"%char
      else first_separator r
  end.

(** The tokenizer finds no parameter and no optional group in [s]. *)
Definition static (s : str) : bool :=
  forallb (fun m => sub_matched (special_chars_key m)) (sregex_iterator s).

(** The text is not empty. *)
Definition nonempty (k : str) : bool := match k with [] => false | _ :: _ => true end.

(** [a] and [b] are the same character, up to case under the icase flag. *)
Definition same_char (ic : bool) (a b : ascii) : bool :=
  Ascii.eqb (ecma.canonicalize ic a) (ecma.canonicalize ic b).

(** The texts an atom of a compiled pattern stands for. *)
Definition atom_lang (ic : bool) (sep : ascii) (a : atom) (w : str) : Prop :=
  match a with
  | ALit c | AEsc c => exists x, w = [x] /\ same_char ic x c = true
  | AParam => w <> [] /\ forallb (not_char sep) w = true
  | AWild => w <> [] /\ forallb (fun x => negb (ecma.is_space x)) w = true
  end.

(** The texts of a sequence of atoms, of an item and of a sequence of
    items; an optional group stands for the texts of its atoms and for the
    empty text. *)
Fixpoint atoms_lang (ic : bool) (sep : ascii) (atoms : list atom) (w : str) : Prop :=
  match atoms with
  | [] => w = []
  | a :: r => exists w1 w2, w = w1 ++ w2 /\ atom_lang ic sep a w1 /\ atoms_lang ic sep r w2
  end.

Definition item_lang (ic : bool) (sep : ascii) (i : item) (w : str) : Prop :=
  match i with
  | IAtom a => atom_lang ic sep a w
  | IOpt inner => w = [] \/ atoms_lang ic sep inner w
  end.

Fixpoint items_lang (ic : bool) (sep : ascii) (items : list item) (w : str) : Prop :=
  match items with
  | [] => w = []
  | i :: r => exists w1 w2, w = w1 ++ w2 /\ item_lang ic sep i w1 /\ items_lang ic sep r w2
  end.

(** The items of a pattern without parameters and optional groups. *)
Definition items_static (s : str) : list item :=
  map (fun c => IAtom (if is_rx_special c then AEsc c else ALit c)) s.

(** [s] without its last character when that is the separator. *)
Definition strip_separator (sep : ascii) (s : str) : str :=
  match rev s with
  | c :: r => if Ascii.eqb c sep then rev r else s
  | [] => s
  end.

(** The text up to case when the matcher is case insensitive. *)
Definition fold_case (cs : case_sensitivity) (s : str) : str :=
  map (ecma.canonicalize (icase (make_regex_flags cs))) s.

(** No character of [s] starts a parameter, a wildcard or an optional
    group. *)
Definition literal (s : str) : bool :=
  forallb (fun c => negb (existsb (Ascii.eqb c) (lit ":*{"))) s.

(** [b] is empty or begins with the separator. *)
Definition starts_with_separator (sep : ascii) (b : str) : bool :=
  match b with
  | c :: _ => Ascii.eqb c sep
  | [] => true
  end.

(** [s] begins with the text [a], up to case under the icase flag. *)
Fixpoint prefix_match (ic : bool) (a s : str) : bool :=
  match a with
  | [] => true
  | c :: a' =>
      match s with
      | x :: s' => same_char ic x c && prefix_match ic a' s'
      | [] => false
      end
  end.

(** The state [x] moved [n] characters on. *)
Definition advance (n : nat) (x : ecma.mstate) : ecma.mstate :=
  {| ecma.before := rev (firstn n (ecma.after x)) ++ ecma.before x;
     ecma.after := skipn n (ecma.after x);
     ecma.captures := ecma.captures x |}.

(** The value of the parameter when the text [s] is [a], a non-empty run
    without the separator, [b0] and possibly one separator. *)
Definition match_single (ic : bool) (sep : ascii) (a b0 s : str) : option str :=
  if prefix_match ic a s then
    let r1 := skipn (length a) s in
    let v := take_while (not_char sep) r1 in
    let r2 := skipn (length v) r1 in
    match v with
    | [] => None
    | _ :: _ =>
        if prefix_match ic b0 r2 then
          match skipn (length b0) r2 with
          | [] => Some v
          | [c] => if Ascii.eqb c sep then Some v else None
          | _ => None
          end
        else None
    end
  else None.

(** The continuation of [std::regex_match]: the whole text is read. *)
Definition kend : ecma.cont :=
  fun y => match ecma.after y with [] => Some y | _ :: _ => None end.

(** The lazy loop over a class: the continuation is tried first at every
    position, and a character of the class is read when it fails. *)
Fixpoint lazy_scan (p : ascii -> bool) (c : ecma.cont) (s pre : str)
    (caps : list (option str)) : option ecma.mstate :=
  match c {| ecma.before := pre; ecma.after := s; ecma.captures := caps |} with
  | Some z => Some z
  | None =>
      match s with
      | a :: r => if p a then lazy_scan p c r (a :: pre) caps else None
      | [] => None
      end
  end.

(** The value of the wildcard when the text [s] is [a] followed by a
    non-empty rest: the rest without its trailing separator, unless it is
    the separator alone. *)
Definition match_wildcard (ic : bool) (sep : ascii) (a s : str) : option str :=
  if prefix_match ic a s then
    match skipn (length a) s with
    | x0 :: r => Some (x0 :: strip_separator sep r)
    | [] => None
    end
  else None.

(** A pattern made of literal chunks and required parameters: each pair is
    the chunk before a parameter and the name of the parameter, [b] is the
    chunk after the last parameter. *)
Fixpoint seg_text (segs : list (str * str)) (b : str) : str :=
  match segs with
  | [] => b
  | (a, key) :: r => a ++ ":"%char :: key ++ seg_text r b
  end.

(** Every chunk is literal, every chunk after a parameter begins with the
    separator (the last one may be empty), and every name is a non-empty
    run of name characters. *)
Fixpoint seg_ok (sep : ascii) (after_key : bool) (segs : list (str * str)) (b : str)
  : bool :=
  match segs with
  | [] => literal b && (negb after_key || starts_with_separator sep b)
  | (a, key) :: r =>
      literal a
      && (negb after_key || (nonempty a && starts_with_separator sep a))
      && nonempty key && forallb is_key_char key
      && seg_ok sep true r b
  end.

Fixpoint seg_items (segs : list (str * str)) (b : str) : list item :=
  match segs with
  | [] => items_static b
  | (a, _) :: r => items_static a ++ IAtom AParam :: seg_items r b
  end.

(** The values of the parameters when the text [s] is made of the chunks,
    a non-empty run without the separator for every parameter, and
    possibly one separator at the end. *)
Fixpoint match_segments (ic : bool) (sep : ascii) (segs : list (str * str))
    (b0 s : str) : option (list str) :=
  match segs with
  | [] =>
      if prefix_match ic b0 s then
        match skipn (length b0) s with
        | [] => Some []
        | [c] => if Ascii.eqb c sep then Some [] else None
        | _ => None
        end
      else None
  | (a, _) :: r =>
      if prefix_match ic a s then
        let s1 := skipn (length a) s in
        let v := take_while (not_char sep) s1 in
        match v with
        | [] => None
        | _ :: _ =>
            match match_segments ic sep r b0 (skipn (length v) s1) with
            | Some vs => Some (v :: vs)
            | None => None
            end
        end
      else None
  end.

(** The captures after the groups from [n + 1] on took the values [vs]. *)
Fixpoint fill (n : nat) (vs : list str) (caps : list (option str)) : list (option str) :=
  match vs with
  | [] => caps
  | v :: r => fill (S n) r (ecma.set_capture (S n) (Some v) caps)
  end.

(** The parameters bound in the order of the keys, a later one replacing
    an earlier one of the same name. *)
Definition bind_values (keys vs : list str) : gmap str str :=
  fold_left (fun m kv => <[fst kv := percent_decode (snd kv)]> m) (combine keys vs) ∅.

(** The end of every compiled pattern: the separator made optional and
    the end anchor. *)
Definition tail_terms (sep : ascii) : list ecma.regex :=
  [ecma.Quant (ecma.Char sep) 0 (Some 1%nat) true; ecma.AssertEnd].

(** The values of the capturing groups when the text [s] is made of the
    atoms and of a text that [k] accepts: a literal character stands for
    itself, a parameter for the longest run without the separator, which
    must not be empty. *)
Fixpoint match_atoms (ic : bool) (sep : ascii) (atoms : list atom)
    (k : str -> option (list (option str))) (s : str) : option (list (option str)) :=
  match atoms with
  | [] => k s
  | ALit c :: r | AEsc c :: r =>
      match s with
      | x :: s' => if same_char ic x c then match_atoms ic sep r k s' else None
      | [] => None
      end
  | AParam :: r =>
      let v := take_while (not_char sep) s in
      match v with
      | [] => None
      | _ :: _ =>
          option_map (cons (Some v)) (match_atoms ic sep r k (skipn (length v) s))
      end
  | AWild :: _ => None
  end.

(** The end of a path: nothing, or one separator. *)
Definition match_end (sep : ascii) (s : str) : option (list (option str)) :=
  match s with
  | [] => Some []
  | [c] => if Ascii.eqb c sep then Some [] else None
  | _ => None
  end.

(** The values of the capturing groups when the text [s] is made of the
    items: an optional group is taken when the text goes on with it and
    the rest of the text fits the rest of the items, and left out
    otherwise, its groups having no value. *)
Fixpoint match_items (ic : bool) (sep : ascii) (items : list item) (s : str)
  : option (list (option str)) :=
  match items with
  | [] => match_end sep s
  | IAtom a :: r => match_atoms ic sep [a] (match_items ic sep r) s
  | IOpt inner :: r =>
      match match_atoms ic sep inner (match_items ic sep r) s with
      | Some vs => Some vs
      | None =>
          option_map (app (replicate (atoms_groups inner) None))
                     (match_items ic sep r s)
      end
  end.

Definition is_sep_atom (sep : ascii) (a : atom) : bool :=
  match a with
  | ALit c | AEsc c => Ascii.eqb c sep
  | AParam | AWild => false
  end.

(** What comes after a parameter has to reject a text that begins with a
    character other than the separator: [stops_atoms] and [stops_items]
    say so for atoms followed by something that does ([kstop]) or does
    not, and for items followed by the end of the pattern. *)
Definition stops_atoms (sep : ascii) (atoms : list atom) (kstop : bool) : bool :=
  match atoms with
  | [] => kstop
  | a :: _ => is_sep_atom sep a
  end.

Fixpoint stops_items (sep : ascii) (items : list item) : bool :=
  match items with
  | [] => true
  | IAtom a :: _ => is_sep_atom sep a
  | IOpt inner :: r => stops_atoms sep inner false && stops_items sep r
  end.

Fixpoint delim_atoms (sep : ascii) (atoms : list atom) (kstop : bool) : bool :=
  match atoms with
  | [] => true
  | AParam :: r => stops_atoms sep r kstop && delim_atoms sep r kstop
  | AWild :: _ => false
  | _ :: r => delim_atoms sep r kstop
  end.

Definition nonempty_atoms (atoms : list atom) : bool :=
  match atoms with [] => false | _ :: _ => true end.

(** Every parameter is followed by the separator or by the end of the
    pattern, optional groups are not empty, and there is no wildcard. *)
Fixpoint delimited (sep : ascii) (items : list item) : bool :=
  match items with
  | [] => true
  | IAtom a :: r => delim_atoms sep [a] (stops_items sep r) && delimited sep r
  | IOpt inner :: r =>
      nonempty_atoms inner
      && delim_atoms sep inner (stops_items sep r) && delimited sep r
  end.

(** The captures after the groups from [n + 1] on took the values [vs]. *)
Fixpoint fill_opt (n : nat) (vs : list (option str)) (caps : list (option str))
  : list (option str) :=
  match vs with
  | [] => caps
  | v :: r =>
      fill_opt (S n) r
        match v with
        | Some w => ecma.set_capture (S n) (Some w) caps
        | None => caps
        end
  end.

(** The groups after the first [n] have no value. *)
Definition fresh (n : nat) (caps : list (option str)) : Prop :=
  forall i, (n <= i)%nat -> nth i caps None = None.

(** The continuation [K] gives the groups after the first [n] the values
    that [kfun] computes from the rest of the text. *)
Definition rep (K : ecma.cont) (n : nat) (kfun : str -> option (list (option str)))
  : Prop :=
  forall y,
    fresh n (ecma.captures y) ->
    option_map ecma.captures (K y)
    = option_map (fun vs => fill_opt n vs (ecma.captures y)) (kfun (ecma.after y)).

(** The parameters bound in the order of the keys from the values of the
    groups, a group without value giving the empty text and a later key
    replacing an earlier one of the same name. *)
Definition bind_groups (keys : list str) (vs : list (option str)) : gmap str str :=
  fold_left (fun m kv => <[fst kv := percent_decode (sub_str (snd kv))]> m)
            (combine keys vs) ∅.

(** The atom and the item that a token compiles to when it has no custom
    sub-pattern. *)
Definition tok_atom (t : tok) : atom :=
  match t with
  | TChar c => if is_rx_special c then AEsc c else ALit c
  | TParam _ _ => AParam
  | TWild _ => AWild
  end.

Definition token_item (t : token) : item :=
  match t with
  | TOne t => IAtom (tok_atom t)
  | TOpt inner => IOpt (map tok_atom inner)
  end.

(** The tokens of a delimited pattern: literal characters other than the
    colon, the star and the opening brace, parameters with a non-empty name
    of name characters and no custom sub-pattern, and optional groups of
    these whose text holds no closing brace. *)
Definition tok_ok (t : tok) : bool :=
  match t with
  | TChar c => negb (existsb (Ascii.eqb c) (lit ":*{"))
  | TParam key custom =>
      nonempty key && forallb is_key_char key
      && match custom with [] => true | _ :: _ => false end
  | TWild _ => false
  end.

Definition token_ok (t : token) : bool :=
  match t with
  | TOne t => tok_ok t
  | TOpt inner =>
      forallb tok_ok inner && forallb (not_char "}") (flat_map tok_text inner)
  end.

(** The text [b] does not go on with a name character or an opening
    parenthesis. *)
Definition ends_key (b : str) : Prop :=
  match b with
  | c :: _ => is_key_char c = false /\ c <> "("%char
  | [] => True
  end.

(** The last character of [s], if any, is not [sep]. *)
Definition not_closed (sep : ascii) (s : str) : Prop :=
  match rev s with
  | c :: _ => Ascii.eqb c sep = false
  | [] => True
  end.

(** ** Characters *)

Lemma chr_code c : chr (code c) = c.
Proof.
  unfold chr, code. rewrite N2Z.id. apply ascii_N_embedding.
Qed.

Lemma code_inj a b : code a = code b -> a = b.
Proof.
  intros E. rewrite <- (chr_code a), <- (chr_code b). now rewrite E.
Qed.

(** ** percent_encode *)

Lemma encode_step_byte acc c : encode_step acc c = acc ++ encode_byte c.
Proof.
  unfold encode_step, encode_byte, passes.
  destruct (isalnum c || is_special c) eqn:E; [reflexivity|].
  f_equal. simpl. clear E.
  destruct c as [[] [] [] [] [] [] [] []]; vm_compute; reflexivity.
Qed.

Lemma fold_encode_step s acc :
  fold_left encode_step s acc = acc ++ flat_map encode_byte s.
Proof.
  revert acc. induction s as [|c s IH]; intros acc; simpl.
  - now rewrite app_nil_r.
  - rewrite IH, encode_step_byte, <- app_assoc. reflexivity.
Qed.

Lemma percent_encode_flat_map s : percent_encode s = flat_map encode_byte s.
Proof. unfold percent_encode. now rewrite fold_encode_step. Qed.

Lemma percent_encode_app a b :
  percent_encode (a ++ b) = percent_encode a ++ percent_encode b.
Proof. rewrite !percent_encode_flat_map. apply flat_map_app. Qed.

Lemma percent_encode_cons c s :
  percent_encode (c :: s) = encode_byte c ++ percent_encode s.
Proof. rewrite !percent_encode_flat_map. reflexivity. Qed.

Lemma length_encode_byte c : (length (encode_byte c) <= 3)%nat.
Proof. unfold encode_byte. destruct (passes c); simpl; lia. Qed.

Lemma length_percent_encode s :
  (length (percent_encode s) <= 3 * length s)%nat.
Proof.
  rewrite percent_encode_flat_map.
  induction s as [|c s IH]; simpl; [lia|].
  rewrite length_app. pose proof (length_encode_byte c). lia.
Qed.

(** ** percent_decode *)

Lemma hex_value_range h : isxdigit h = true -> 0 <= hex_value h < 16.
Proof.
  destruct h as [[] [] [] [] [] [] [] []]; vm_compute; intros; try discriminate;
    split; congruence.
Qed.

Lemma at_app_r (pre suf : str) k : at_ (pre ++ suf) (length pre + k) = nth k suf zero.
Proof.
  unfold at_. rewrite app_nth2 by lia. f_equal. lia.
Qed.

Lemma at_app_head (pre : str) c r : at_ (pre ++ c :: r) (length pre) = c.
Proof.
  replace (length pre) with (length pre + 0)%nat by lia. now rewrite at_app_r.
Qed.

Lemma nibble_cases a : 0 <= a < 16 ->
  a = 0 \/ a = 1 \/ a = 2 \/ a = 3 \/ a = 4 \/ a = 5 \/ a = 6 \/ a = 7 \/
  a = 8 \/ a = 9 \/ a = 10 \/ a = 11 \/ a = 12 \/ a = 13 \/ a = 14 \/ a = 15.
Proof. lia. Qed.

Lemma shift_or_nibbles a b : 0 <= a < 16 -> 0 <= b < 16 ->
  Z.lor (Z.shiftl (Z.lor (Z.shiftl 0 4 mod 256) a mod 256) 4 mod 256) b mod 256
  = 16 * a + b.
Proof.
  intros Ha Hb. apply nibble_cases in Ha, Hb.
  repeat (destruct Ha as [->|Ha]); try subst a;
    repeat (destruct Hb as [->|Hb]); try subst b; reflexivity.
Qed.

Lemma decode_escape_value pre h1 h2 r :
  isxdigit h1 = true -> isxdigit h2 = true ->
  decode_escape (pre ++ "%"%char :: h1 :: h2 :: r) (length pre)
  = chr (16 * hex_value h1 + hex_value h2).
Proof.
  intros H1 H2. unfold decode_escape. rewrite !at_app_r. simpl nth.
  apply hex_value_range in H1, H2. f_equal.
  now apply shift_or_nibbles.
Qed.

Lemma decode_loop_from fuel pre suf acc :
  (length suf <= fuel)%nat ->
  decode_loop fuel (pre ++ suf) (length pre) acc = acc ++ decode_from suf.
Proof.
  revert pre suf acc. induction fuel as [|fuel IH]; intros pre suf acc Hf.
  - destruct suf; [|simpl in Hf; lia]. simpl. now rewrite app_nil_r.
  - cbn [decode_loop]. rewrite length_app.
    destruct suf as [|c r].
    + replace (length pre <? length pre + length [])%nat with false
        by (symmetry; apply Nat.ltb_ge; simpl; lia).
      simpl. now rewrite app_nil_r.
    + replace (length pre <? length pre + length (c :: r))%nat with true
        by (symmetry; apply Nat.ltb_lt; simpl; lia).
      rewrite !at_app_head, !at_app_r. cbn [nth].
      assert (Hstep : forall acc', decode_loop fuel (pre ++ c :: r) (length pre + 1) acc'
                               = acc' ++ decode_from r).
      { intros acc'. replace (pre ++ c :: r) with ((pre ++ [c]) ++ r)
          by (rewrite <- app_assoc; reflexivity).
        replace (length pre + 1)%nat with (length (pre ++ [c]))
          by (rewrite length_app; reflexivity).
        apply IH. simpl in Hf. lia. }
      destruct r as [|h1 [|h2 r']].
      * replace (length pre + 2 <? length pre + length [c])%nat with false
          by (symmetry; apply Nat.ltb_ge; simpl; lia).
        rewrite andb_false_r. cbn [andb]. rewrite Hstep, <- app_assoc. reflexivity.
      * replace (length pre + 2 <? length pre + length [c; h1])%nat with false
          by (symmetry; apply Nat.ltb_ge; simpl; lia).
        rewrite andb_false_r. cbn [andb]. rewrite Hstep, <- app_assoc. reflexivity.
      * replace (length pre + 2 <? length pre + length (c :: h1 :: h2 :: r'))%nat with true
          by (symmetry; apply Nat.ltb_lt; simpl; lia).
        rewrite andb_true_r. cbn [decode_from nth].
        destruct (Ascii.eqb c "%" && isxdigit h1 && isxdigit h2) eqn:E.
        -- apply andb_prop in E as [E E2]. apply andb_prop in E as [E0 E1].
           apply Ascii.eqb_eq in E0. subst c.
           rewrite decode_escape_value by assumption.
           replace (pre ++ "%"%char :: h1 :: h2 :: r')
             with ((pre ++ ["%"%char; h1; h2]) ++ r')
             by (rewrite <- app_assoc; reflexivity).
           replace (length pre + 3)%nat with (length (pre ++ ["%"%char; h1; h2]))
             by (rewrite length_app; reflexivity).
           rewrite IH by (simpl in Hf; lia).
           rewrite <- app_assoc. reflexivity.
        -- rewrite Hstep, <- app_assoc. reflexivity.
Qed.

Lemma percent_decode_from s : percent_decode s = decode_from s.
Proof.
  unfold percent_decode. apply (decode_loop_from (length s) [] s []). lia.
Qed.

(** ** Round trip *)

Lemma decode_from_step c r :
  decode_from (c :: r)
  = if escape_at_head (c :: r)
    then chr (16 * hex_value (at_ r 0) + hex_value (at_ r 1)) :: decode_from (skipn 2 r)
    else c :: decode_from r.
Proof.
  destruct r as [|h1 [|h2 r']]; reflexivity.
Qed.

Lemma hex_digits_of_byte c :
  isxdigit (hex_digit (code c / 16)) = true /\
  isxdigit (hex_digit (code c mod 16)) = true /\
  chr (16 * hex_value (hex_digit (code c / 16)) + hex_value (hex_digit (code c mod 16))) = c.
Proof.
  destruct c as [[] [] [] [] [] [] [] []]; vm_compute; repeat split.
Qed.

Lemma xdigit_passes h : isxdigit h = true -> passes h = true /\ h <> "%"%char.
Proof.
  destruct h as [[] [] [] [] [] [] [] []]; vm_compute; intros; try discriminate;
    split; congruence.
Qed.

Lemma percent_passes : passes "%" = true.
Proof. reflexivity. Qed.

(** A character of the encoding other than the percent sign stands for itself. *)
Lemma percent_encode_head r h t :
  percent_encode r = h :: t -> h <> "%"%char ->
  exists r', r = h :: r' /\ t = percent_encode r'.
Proof.
  intros E N. destruct r as [|a r']; [discriminate|].
  rewrite percent_encode_cons in E. unfold encode_byte in E.
  destruct (passes a); simpl in E; inversion E; subst.
  - eauto.
  - congruence.
Qed.

Lemma escape_at_head_encode c r :
  passes c = true ->
  escape_at_head (c :: percent_encode r) = escape_at_head (c :: r).
Proof.
  intros Hc.
  destruct (escape_at_head (c :: percent_encode r)) eqn:E.
  - destruct (percent_encode r) as [|h1 [|h2 t]] eqn:Er; try discriminate.
    cbn [escape_at_head] in E.
    apply andb_prop in E as [E E2]. apply andb_prop in E as [E0 E1].
    destruct (xdigit_passes _ E1) as [_ N1]. destruct (xdigit_passes _ E2) as [_ N2].
    destruct (percent_encode_head _ _ _ Er N1) as (r1 & -> & Et).
    symmetry in Et. destruct (percent_encode_head _ _ _ Et N2) as (r2 & -> & _).
    cbn [escape_at_head]. now rewrite E0, E1, E2.
  - destruct (escape_at_head (c :: r)) eqn:E'; [|reflexivity].
    destruct r as [|h1 [|h2 r2]]; try discriminate.
    cbn [escape_at_head] in E'.
    apply andb_prop in E' as [E' E2]. apply andb_prop in E' as [E0 E1].
    destruct (xdigit_passes _ E1) as [P1 _]. destruct (xdigit_passes _ E2) as [P2 _].
    rewrite !percent_encode_cons in E. unfold encode_byte in E. rewrite P1, P2 in E.
    cbn [app escape_at_head] in E. rewrite E0, E1, E2 in E. discriminate.
Qed.

(** One step of decoding an encoded text. *)
Lemma decode_encode_step c r :
  decode_from (percent_encode (c :: r))
  = if escape_at_head (c :: r)
    then chr (16 * hex_value (at_ r 0) + hex_value (at_ r 1))
           :: decode_from (percent_encode (skipn 2 r))
    else c :: decode_from (percent_encode r).
Proof.
  rewrite percent_encode_cons. unfold encode_byte.
  destruct (passes c) eqn:Hc.
  - cbn [app]. rewrite decode_from_step, (escape_at_head_encode c r Hc).
    destruct (escape_at_head (c :: r)) eqn:E; [|reflexivity].
    destruct r as [|h1 [|h2 r2]]; try discriminate.
    cbn [escape_at_head] in E.
    apply andb_prop in E as [E E2]. apply andb_prop in E as [E0 E1].
    destruct (xdigit_passes _ E1) as [P1 _]. destruct (xdigit_passes _ E2) as [P2 _].
    rewrite !percent_encode_cons. unfold encode_byte. rewrite P1, P2. reflexivity.
  - assert (Hne : c <> "%"%char) by (intros ->; rewrite percent_passes in Hc; discriminate).
    assert (E : escape_at_head (c :: r) = false).
    { destruct r as [|h1 [|h2 r2]]; try reflexivity. cbn [escape_at_head].
      apply Ascii.eqb_neq in Hne. now rewrite Hne. }
    rewrite E. destruct (hex_digits_of_byte c) as (X1 & X2 & X3).
    cbn [app decode_from]. rewrite X1, X2. cbn [Ascii.eqb andb]. 
    change (Ascii.eqb "%" "%") with true. cbn [andb]. now rewrite X3.
Qed.

Lemma decode_encode_length n x : (length x <= n)%nat ->
  (length (decode_from (percent_encode x)) <= length x)%nat /\
  (has_escape x = true -> (length (decode_from (percent_encode x)) < length x)%nat) /\
  (has_escape x = false -> decode_from (percent_encode x) = x).
Proof.
  revert x. induction n as [|n IH]; intros x Hn.
  - destruct x; [|simpl in Hn; lia].
    repeat split; simpl; intros; try lia; try discriminate; auto.
  - destruct x as [|c r];
      [repeat split; simpl; intros; try lia; try discriminate; auto|].
    rewrite decode_encode_step. cbn [has_escape].
    destruct (escape_at_head (c :: r)) eqn:E.
    + destruct r as [|h1 [|h2 r2]]; try discriminate.
      change (skipn 2 (h1 :: h2 :: r2)) with r2.
      destruct (IH r2) as (L & _); [simpl in Hn; lia|].
      cbn [length orb] in *. repeat split; intros; try lia; discriminate.
    + destruct (IH r) as (L & L1 & L2); [simpl in Hn; lia|].
      cbn [length orb]. repeat split; try lia.
      * intros H. specialize (L1 H). lia.
      * intros H. now rewrite L2.
Qed.

Lemma roundtrip_iff x :
  percent_decode (percent_encode x) = x <-> has_escape x = false.
Proof.
  rewrite percent_decode_from.
  destruct (decode_encode_length (length x) x (le_n _)) as (_ & L1 & L2).
  split; [|exact L2].
  intros E. destruct (has_escape x) eqn:H; [|reflexivity].
  specialize (L1 eq_refl). rewrite E in L1. lia.
Qed.

Lemma denotes_hex_value h v : denotes h v -> isxdigit h = true /\ v = hex_value h.
Proof.
  unfold denotes.
  destruct h as [[] [] [] [] [] [] [] []];
    intros [[X ->]|[[X ->]|[X ->]]]; try discriminate X; split; reflexivity.
Qed.

(** ** find_separator *)

Lemma find_from_spec c s i :
  (find_from c s i = npos /\ forall j, nth_error s j <> Some c) \/
  (exists k, find_from c s i = i + Z.of_nat k /\ nth_error s k = Some c /\
             forall j, (j < k)%nat -> nth_error s j <> Some c).
Proof.
  revert i. induction s as [|a r IH]; intros i.
  - left. split; [reflexivity|]. intros [|j]; discriminate.
  - cbn [find_from]. destruct (Ascii.eqb_spec a c) as [->|N].
    + right. exists 0%nat. repeat split; [lia|]. intros j Hj. lia.
    + destruct (IH (i + 1)) as [[E H]|(k & E & Hk & Hlt)].
      * left. split; [exact E|]. intros [|j]; simpl; [congruence|apply H].
      * right. exists (S k). repeat split; [lia|exact Hk|].
        intros [|j] Hj; simpl; [congruence|]. apply Hlt. lia.
Qed.

Lemma nth_error_lt {A} (s : list A) k x : nth_error s k = Some x -> (k < length s)%nat.
Proof. intros H. apply nth_error_Some. congruence. Qed.

Lemma find_separator_slash p :
  Z.of_nat (length p) <= npos -> slash_first p -> find_separator p = "/"%char.
Proof.
  intros Hlen Hs. unfold find_separator, find.
  destruct (find_from_spec "\" p 0) as [[E _]|(j & E & Hj & _)].
  - rewrite E.
    destruct (find_from_spec "/" p 0) as [[E' _]|(i & E' & Hi & _)]; rewrite E'.
    + reflexivity.
    + apply nth_error_lt in Hi.
      replace (0 + Z.of_nat i <=? npos) with true; [reflexivity|].
      symmetry. apply Z.leb_le. lia.
  - destruct (Hs j Hj) as (i & Hij & Hi).
    destruct (find_from_spec "/" p 0) as [[_ H]|(i' & E' & _ & Hlt)].
    + now apply H in Hi.
    + rewrite E, E'.
      replace (0 + Z.of_nat i' <=? 0 + Z.of_nat j) with true; [reflexivity|].
      symmetry. apply Z.leb_le.
      destruct (Nat.le_gt_cases i' i) as [L|G]; [lia|].
      exfalso. exact (Hlt i G Hi).
Qed.

Lemma find_separator_backslash p :
  Z.of_nat (length p) <= npos -> ~ slash_first p -> find_separator p = "\"%char.
Proof.
  intros Hlen Hs. unfold find_separator, find.
  destruct (find_from_spec "\" p 0) as [[_ H]|(j & E & Hj & Hlt)].
  - exfalso. apply Hs. intros j Hj. now apply H in Hj.
  - destruct (find_from_spec "/" p 0) as [[E' _]|(i & E' & Hi & _)]; rewrite E, E'.
    + apply nth_error_lt in Hj.
      replace (npos <=? 0 + Z.of_nat j) with false; [reflexivity|].
      symmetry. apply Z.leb_gt. lia.
    + destruct (Nat.le_gt_cases i j) as [L|G].
      * exfalso. apply Hs. intros j' Hj'. exists i. split; [|exact Hi].
        destruct (Nat.le_gt_cases j j') as [L'|G']; [lia|].
        exfalso. exact (Hlt j' G' Hj').
      * replace (0 + Z.of_nat i <=? 0 + Z.of_nat j) with false; [reflexivity|].
        symmetry. apply Z.leb_gt. lia.
Qed.

Lemma find_separator_cases p :
  find_separator p = "/"%char \/ find_separator p = "\"%char.
Proof.
  unfold find_separator. destruct (find "/" p <=? find "\" p); auto.
Qed.

(** The compiled pattern ends with the separator, a question mark and the
    end anchor. *)
Lemma make_pattern_top_shape p keys0 :
  exists body,
    fst (make_pattern_top p keys0)
    = ["^"%char] ++ body ++ [find_separator p] ++ lit "?$".
Proof.
  unfold make_pattern_top.
  destruct (make_pattern (percent_encode p) keys0 (find_separator p)) as [pattern0 keys1].
  cbn [fst].
  destruct pattern0 as [|c r] eqn:Ep.
  - exists ["\"%char]. reflexivity.
  - rewrite <- Ep. 
    destruct (Ascii.eqb_spec (List.last pattern0 zero) (find_separator p)) as [E|N];
      cbn [negb].
    + exists (removelast pattern0). 
      rewrite <- E. rewrite (app_assoc (removelast pattern0)).
      rewrite <- app_removelast_last by (rewrite Ep; discriminate). reflexivity.
    + exists (pattern0 ++ ["\"%char]). rewrite <- !app_assoc. reflexivity.
Qed.

(** ** The matcher, for any regex engine *)

Section MatcherFacts.

Context `{RegexEngine}.

Lemma bind_all_S keys match_ n :
  bind_all keys match_ (S n)
  = <[nth n keys [] := bound_value match_ n]> (bind_all keys match_ n).
Proof.
  unfold bind_all. rewrite seq_S, fold_left_app. reflexivity.
Qed.

Lemma bind_all_dom keys match_ n :
  (n <= length keys)%nat ->
  dom (bind_all keys match_ n) = list_to_set (take n keys).
Proof.
  induction n as [|n IH]; intros Hn.
  - unfold bind_all. simpl. now rewrite dom_empty_L.
  - rewrite bind_all_S, dom_insert_L. rewrite IH by lia.
    rewrite (take_S_r keys n (nth n keys [])).
    + rewrite list_to_set_app_L. cbn [list_to_set foldr].
      rewrite (right_id_L ∅ (∪)). apply (comm_L (∪)).
    + destruct (nth_lookup_or_length keys n []) as [E|E]; [exact E|lia].
Qed.

Lemma bind_all_lookup keys match_ n i :
  (i < n)%nat ->
  (forall j, (i < j < n)%nat -> nth j keys [] <> nth i keys []) ->
  bind_all keys match_ n !! nth i keys [] = Some (bound_value match_ i).
Proof.
  induction n as [|n IH]; intros Hi Hlast; [lia|].
  rewrite bind_all_S.
  destruct (Nat.eq_dec i n) as [->|N].
  - apply lookup_insert_eq.
  - rewrite lookup_insert_ne by (apply Hlast; lia).
    apply IH; [lia|]. intros j Hj. apply Hlast. lia.
Qed.

Lemma matcher_call_matched (M : matcher) path match_ :
  regex_match (m_regex M) (percent_encode path) = Some match_ ->
  matcher_call M path
  = {| matched := true; params := bind_all (m_keys M) match_ (length (m_keys M)) |}.
Proof. intros E. unfold matcher_call. now rewrite E. Qed.

Lemma matcher_call_unmatched (M : matcher) path :
  regex_match (m_regex M) (percent_encode path) = None ->
  matcher_call M path = {| matched := false; params := ∅ |}.
Proof. intros E. unfold matcher_call. now rewrite E. Qed.

Lemma matched_iff (M : matcher) path :
  matched (matcher_call M path) = true
  <-> is_Some (regex_match (m_regex M) (percent_encode path)).
Proof.
  unfold matcher_call.
  destruct (regex_match (m_regex M) (percent_encode path)); simpl.
  - split; eauto.
  - split; [discriminate|]. intros [? ?]. discriminate.
Qed.

Lemma match_inv path sensitivity (M : matcher) :
  match_ path sensitivity = Some M ->
  m_pattern M = fst (make_pattern_top path []) /\
  m_keys M = snd (make_pattern_top path []) /\
  regex_new (fst (make_pattern_top path [])) (make_regex_flags sensitivity)
  = Some (m_regex M).
Proof.
  unfold match_, matcher_new.
  destruct (make_pattern_top path []) as [pattern keys]. cbn [fst snd].
  destruct (regex_new pattern (make_regex_flags sensitivity)); [|discriminate].
  intros [= <-]. auto.
Qed.

End MatcherFacts.

(** ** The empty pattern *)

Lemma canonicalize_slash ic a :
  Ascii.eqb (ecma.canonicalize ic a) (ecma.canonicalize ic "/") = Ascii.eqb a "/".
Proof.
  destruct ic; [|reflexivity].
  destruct a as [[] [] [] [] [] [] [] []]; vm_compute; reflexivity.
Qed.

Lemma percent_encode_nil_inv x : percent_encode x = [] -> x = [].
Proof.
  destruct x as [|c r]; [reflexivity|].
  rewrite percent_encode_cons. unfold encode_byte. destruct (passes c); discriminate.
Qed.

Lemma percent_encode_slash_inv x : percent_encode x = lit "/" -> x = lit "/".
Proof.
  intros E. destruct (percent_encode_head x "/" [] E) as (r & -> & Er); [discriminate|].
  symmetry in Er. apply percent_encode_nil_inv in Er. now subst.
Qed.

Lemma empty_pattern_compiles cs :
  exists re,
    match_ [] cs = Some {| m_pattern := lit "^\/?$"; m_regex := re; m_keys := [] |} /\
    ecma.re_ast re
    = ecma.Seq ecma.AssertBegin
        (ecma.Seq (ecma.Quant (ecma.Char "/") 0 (Some 1%nat) true)
           (ecma.Seq ecma.AssertEnd ecma.Empty)) /\
    ecma.re_groups re = 0%nat.
Proof.
  exists {| ecma.re_ast :=
              ecma.Seq ecma.AssertBegin
                (ecma.Seq (ecma.Quant (ecma.Char "/") 0 (Some 1%nat) true)
                   (ecma.Seq ecma.AssertEnd ecma.Empty));
            ecma.re_groups := 0;
            ecma.re_icase := icase (make_regex_flags cs) |}.
  destruct cs; (split; [vm_compute; reflexivity|split; reflexivity]).
Qed.

Lemma trailing_only_match re s :
  ecma.re_ast re
  = ecma.Seq ecma.AssertBegin
      (ecma.Seq (ecma.Quant (ecma.Char "/") 0 (Some 1%nat) true)
         (ecma.Seq ecma.AssertEnd ecma.Empty)) ->
  is_Some (ecma.regex_match re s) <-> s = [] \/ s = lit "/".
Proof.
  intros E. unfold ecma.regex_match. rewrite E.
  destruct s as [|a [|b r]]; cbn; rewrite ?canonicalize_slash.
  - split; eauto.
  - destruct (Ascii.eqb_spec a "/") as [->|N]; cbn.
    + split; eauto.
    + split; [intros X; destruct (is_Some_None X)|].
      intros [?|[= ?]]; [discriminate|contradiction].
  - destruct (Ascii.eqb a "/"); cbn;
      try destruct (length r =? S (length r))%nat; cbn;
      (split; [intros X; destruct (is_Some_None X)|intros [?|?]; discriminate]).
Qed.

Lemma rx_at_position pos s : rx_at pos s = option_map (at_position pos) (rx_at 0 s).
Proof.
  unfold rx_at. destruct s as [|c r]; [reflexivity|].
  destruct (Ascii.eqb c "{").
  { destruct (skipn _ r); reflexivity. }
  destruct (Ascii.eqb c ":").
  { destruct (take_while is_key_char r); reflexivity. }
  destruct (Ascii.eqb c "*").
  { destruct (take_while is_key_char r); reflexivity. }
  destruct (is_rx_special c); reflexivity.
Qed.

Lemma rx_at_length pos s m : rx_at pos s = Some m -> (1 <= length_ m)%nat.
Proof.
  unfold rx_at. destruct s as [|c r]; [discriminate|].
  destruct (Ascii.eqb c "{").
  { destruct (skipn _ r); intros [= <-]; simpl; lia. }
  destruct (Ascii.eqb c ":").
  { destruct (take_while is_key_char r); [discriminate|]. intros [= <-]; simpl; lia. }
  destruct (Ascii.eqb c "*").
  { destruct (take_while is_key_char r); intros [= <-]; simpl; lia. }
  destruct (is_rx_special c); [|discriminate]. intros [= <-]; simpl; lia.
Qed.

Lemma emit_at_position self sep pos m keys0 :
  emit self sep (at_position pos m) keys0 = emit self sep m keys0.
Proof. reflexivity. Qed.

Lemma make_pattern_step_emit self path sep st m :
  (last_pos st <= position m)%nat ->
  make_pattern_step self path sep st m
  = {| last_pos := position m + length_ m;
       pattern := (pattern st ++ substr path (last_pos st) (position m - last_pos st))
                    ++ fst (emit self sep m (keys st));
       keys := snd (emit self sep m (keys st)) |}.
Proof.
  intros Hle. unfold make_pattern_step, emit.
  assert (E : (if (last_pos st <? position m)%nat
               then pattern st ++ substr path (last_pos st) (position m - last_pos st)
               else pattern st)
              = pattern st ++ substr path (last_pos st) (position m - last_pos st)).
  { destruct (Nat.ltb_spec (last_pos st) (position m)); [reflexivity|].
    replace (position m - last_pos st)%nat with 0%nat by lia.
    unfold substr. simpl. now rewrite app_nil_r. }
  rewrite E. clear E.
  set (p0 := pattern st ++ substr path (last_pos st) (position m - last_pos st)).
  destruct (sub_matched (optional_param_key m)).
  { destruct (self _ _ _) as [[|a sub] k']; cbn [fst snd]; [now rewrite app_nil_r|reflexivity]. }
  destruct (sub_matched (required_param_key m)).
  { destruct (sub_str (required_param_pattern m)); reflexivity. }
  destruct (sub_matched (wildcard_param_key m)); [reflexivity|].
  destruct (sub_matched (special_chars_key m)); [reflexivity|].
  cbn [fst snd]. now rewrite app_nil_r.
Qed.

Lemma substr_zero (s : str) pos : substr s pos 0 = [].
Proof. reflexivity. Qed.

Lemma substr_pending (pre : str) c r lp :
  (lp <= length pre)%nat ->
  substr (pre ++ c :: r) lp (S (length pre) - lp)
  = substr (pre ++ c :: r) lp (length pre - lp) ++ [c].
Proof.
  intros Hle. unfold substr. rewrite skipn_app.
  replace (lp - length pre)%nat with 0%nat by lia. cbn [skipn].
  assert (Hl : length (skipn lp pre) = (length pre - lp)%nat) by apply length_skipn.
  rewrite !firstn_app, Hl.
  replace (length pre - lp - (length pre - lp))%nat with 0%nat by lia.
  replace (S (length pre) - lp - (length pre - lp))%nat with 1%nat by lia.
  rewrite (firstn_all2 (n := S (length pre) - lp)) by lia.
  rewrite (firstn_all2 (n := length pre - lp)) by lia.
  cbn. now rewrite app_nil_r.
Qed.

Lemma loop_scan self sep path s :
  forall pre skip st,
    path = pre ++ s ->
    (skip = 0%nat -> (last_pos st <= length pre)%nat) ->
    ((0 < skip)%nat -> last_pos st = (length pre + skip)%nat) ->
    finish path (fold_left (make_pattern_step self path sep)
                           (rx_iterate s (length pre) skip) st)
    = scan self sep s skip
        (pattern st ++ substr path (last_pos st) (length pre - last_pos st))
        (keys st).
Proof.
  induction s as [|c r IH]; intros pre skip st Hp H0 Hs.
  - cbn [rx_iterate fold_left scan]. unfold finish. rewrite app_nil_r in Hp. subst pre.
    destruct (Nat.ltb_spec (last_pos st) (length path)); [reflexivity|].
    replace (length path - last_pos st)%nat with 0%nat by lia.
    rewrite substr_zero, app_nil_r. reflexivity.
  - assert (Hp' : path = (pre ++ [c]) ++ r) by (rewrite <- app_assoc; exact Hp).
    assert (Hl' : length (pre ++ [c]) = S (length pre))
      by (rewrite length_app; simpl; lia).
    cbn [rx_iterate scan]. destruct skip as [|k].
    + rewrite rx_at_position. destruct (rx_at 0 (c :: r)) as [m0|] eqn:Em.
      * pose proof (rx_at_length _ _ _ Em) as Hlen.
        cbn [option_map fold_left].
        rewrite make_pattern_step_emit by (cbn; apply H0; reflexivity).
        rewrite emit_at_position. cbn [position length_ at_position].
        rewrite <- Hl'.
        rewrite (IH (pre ++ [c]) (length_ m0 - 1)%nat _ Hp').
        -- cbn [pattern keys last_pos]. rewrite Hl'.
           replace (S (length pre) - (length pre + length_ m0))%nat with 0%nat by lia.
           rewrite substr_zero, app_nil_r. reflexivity.
        -- cbn [last_pos]. lia.
        -- cbn [last_pos]. lia.
      * cbn [option_map]. rewrite <- Hl'.
        rewrite (IH (pre ++ [c]) 0%nat st Hp').
        -- rewrite Hl'. rewrite Hp at 1 2. 
           rewrite substr_pending by (apply H0; reflexivity).
           rewrite <- Hp. rewrite app_assoc. reflexivity.
        -- intros _. specialize (H0 eq_refl). lia.
        -- lia.
    + rewrite <- Hl'. rewrite (IH (pre ++ [c]) k st Hp').
      * specialize (Hs ltac:(lia)). rewrite Hl'.
        replace (S (length pre) - last_pos st)%nat with 0%nat by lia.
        replace (length pre - last_pos st)%nat with 0%nat by lia.
        reflexivity.
      * intros ->. specialize (Hs ltac:(lia)). lia.
      * intros Hk. specialize (Hs ltac:(lia)). lia.
Qed.

Lemma make_pattern_body_scan self path keys0 sep :
  make_pattern_body self path keys0 sep = scan self sep path 0 [] keys0.
Proof.
  unfold make_pattern_body, sregex_iterator.
  exact (loop_scan self sep path path [] 0%nat
           {| last_pos := 0; pattern := []; keys := keys0 |}
           eq_refl (fun _ => le_n 0) ltac:(intros; lia)).
Qed.

(** *** The scanner without the skip counter *)

Lemma scan_skip self sep s :
  forall skip pat keys0,
    scan self sep s skip pat keys0 = scan self sep (skipn skip s) 0 pat keys0.
Proof.
  induction s as [|c r IH]; intros skip pat keys0.
  - destruct skip; reflexivity.
  - destruct skip as [|k]; [reflexivity|]. cbn [scan skipn]. apply IH.
Qed.

Lemma scan_match self sep s m pat keys0 :
  rx_at 0 s = Some m ->
  scan self sep s 0 pat keys0
  = scan self sep (skipn (length_ m) s) 0
      (pat ++ fst (emit self sep m keys0)) (snd (emit self sep m keys0)).
Proof.
  intros E. pose proof (rx_at_length _ _ _ E) as Hl.
  destruct s as [|c r]; [discriminate|].
  cbn [scan]. rewrite E, scan_skip.
  replace (length_ m) with (S (length_ m - 1)) at 2 by lia. reflexivity.
Qed.

Lemma scan_literal self sep c r pat keys0 :
  rx_at 0 (c :: r) = None ->
  scan self sep (c :: r) 0 pat keys0 = scan self sep r 0 (pat ++ [c]) keys0.
Proof. intros E. cbn [scan]. now rewrite E. Qed.

Lemma rx_iterate_skip s :
  forall pos skip, rx_iterate s pos skip = rx_iterate (skipn skip s) (pos + skip) 0.
Proof.
  induction s as [|c r IH]; intros pos skip.
  - destruct skip; reflexivity.
  - destruct skip as [|k].
    + cbn [skipn]. now rewrite Nat.add_0_r.
    + cbn [rx_iterate skipn]. rewrite IH. f_equal. lia.
Qed.

Lemma forallb_rx_iterate_position (P : rx_match -> bool) s :
  (forall pos m, P (at_position pos m) = P m) ->
  forall pos skip,
    forallb P (rx_iterate s pos skip) = forallb P (rx_iterate s 0 skip).
Proof.
  intros HP. induction s as [|c r IH]; intros pos skip; [reflexivity|].
  cbn [rx_iterate]. destruct skip as [|k].
  - rewrite (rx_at_position pos). destruct (rx_at 0 (c :: r)) as [m|] eqn:E.
    + cbn [option_map forallb]. rewrite HP. cbn [length_ at_position].
      rewrite (IH (S pos)), (IH 1%nat). reflexivity.
    + cbn [option_map]. rewrite (IH (S pos)), (IH 1%nat). reflexivity.
  - rewrite (IH (S pos)), (IH 1%nat). reflexivity.
Qed.

Lemma forallb_sregex_match (P : rx_match -> bool) s m :
  (forall pos m, P (at_position pos m) = P m) ->
  rx_at 0 s = Some m ->
  forallb P (sregex_iterator s)
  = P m && forallb P (sregex_iterator (skipn (length_ m) s)).
Proof.
  intros HP E. pose proof (rx_at_length _ _ _ E) as Hl.
  unfold sregex_iterator. destruct s as [|c r]; [discriminate|].
  cbn [rx_iterate]. rewrite E. cbn [forallb]. f_equal.
  rewrite rx_iterate_skip, (forallb_rx_iterate_position P _ HP).
  replace (length_ m) with (S (length_ m - 1)) at 2 by lia. reflexivity.
Qed.

Lemma forallb_sregex_literal (P : rx_match -> bool) c r :
  (forall pos m, P (at_position pos m) = P m) ->
  rx_at 0 (c :: r) = None ->
  forallb P (sregex_iterator (c :: r)) = forallb P (sregex_iterator r).
Proof.
  intros HP E. unfold sregex_iterator. cbn [rx_iterate]. rewrite E.
  apply (forallb_rx_iterate_position P _ HP).
Qed.

(** *** The shapes of a match *)

Lemma take_while_skipn p (s : str) :
  take_while p s ++ skipn (length (take_while p s)) s = s.
Proof.
  induction s as [|c r IH]; [reflexivity|]. cbn [take_while].
  destruct (p c); [|reflexivity]. cbn [length skipn app]. now rewrite IH.
Qed.

Lemma take_while_forallb p (s : str) : forallb p (take_while p s) = true.
Proof.
  induction s as [|c r IH]; [reflexivity|]. cbn [take_while].
  destruct (p c) eqn:E; [|reflexivity]. cbn [forallb]. now rewrite E, IH.
Qed.

Lemma take_while_stop p (s : str) x rest :
  skipn (length (take_while p s)) s = x :: rest -> p x = false.
Proof.
  induction s as [|c r IH]; [discriminate|]. cbn [take_while].
  destruct (p c) eqn:E.
  - cbn [length skipn]. exact IH.
  - cbn [length skipn]. now intros [= <- _].
Qed.

Lemma not_char_false c x : not_char c x = false -> x = c.
Proof.
  unfold not_char. intros H. apply negb_false_iff in H. now apply Ascii.eqb_eq.
Qed.

Lemma rx_at_kind s : rx_kind s (rx_at 0 s).
Proof.
  unfold rx_at. destruct s as [|c r]; [now apply K_end|].
  destruct (Ascii.eqb_spec c "{") as [->|N1].
  { pose proof (take_while_skipn (not_char "}") r) as Hr.
    destruct (skipn (length (take_while (not_char "}") r)) r) as [|x rest] eqn:Es.
    - now apply (K_special _ "{"%char r).
    - apply take_while_stop, not_char_false in Es. subst x.
      apply (K_optional _ _ rest).
      + now rewrite Hr.
      + apply take_while_forallb. }
  destruct (Ascii.eqb_spec c ":") as [->|N2].
  { pose proof (take_while_skipn is_key_char r) as Hr.
    destruct (take_while is_key_char r) as [|k key] eqn:Ek.
    - now apply (K_literal _ ":"%char r).
    - cbn [length] in *. 
      destruct (skipn (S (length key)) r) as [|o r'] eqn:Es.
      + apply (K_required _ (k :: key) None []); [|discriminate].
        cbn [sub_str default app]. rewrite app_nil_r in Hr |- *. now rewrite Hr.
      + destruct (Ascii.eqb_spec o "(") as [->|No].
        * pose proof (take_while_skipn (not_char ")") r') as Hr'.
          destruct (take_while (not_char ")") r') as [|b body] eqn:Eb.
          -- apply (K_required _ (k :: key) None ("("%char :: r')); [|discriminate].
             cbn [sub_str default app]. now rewrite <- Hr.
          -- cbn [length] in *.
             destruct (skipn (S (length body)) r') as [|x rest] eqn:Es'.
             ++ apply (K_required _ (k :: key) None ("("%char :: r')); [|discriminate].
                cbn [sub_str default app]. now rewrite <- Hr.
             ++ assert (x = ")"%char).
                { apply (not_char_false ")" x).
                  apply (take_while_stop (not_char ")") r' x rest).
                  rewrite Eb. exact Es'. }
                subst x.
                apply (K_required _ (k :: key)
                         (Some (["("%char] ++ (b :: body) ++ [")"%char])) rest);
                  [|discriminate].
                cbn [sub_str default]. rewrite <- Hr at 1. rewrite <- Hr'.
                unfold id. cbn [app]. rewrite <- !app_assoc. reflexivity.
        * apply (K_required _ (k :: key) None (o :: r')); [|discriminate].
          cbn [sub_str default app]. now rewrite <- Hr. }
  destruct (Ascii.eqb_spec c "*") as [->|N3].
  { pose proof (take_while_skipn is_key_char r) as Hr.
    destruct (take_while is_key_char r) as [|k key] eqn:Ek.
    - now apply (K_special _ "*"%char r).
    - apply (K_wildcard _ (k :: key) (skipn (length (k :: key)) r)); [|discriminate].
      now rewrite Hr. }
  destruct (is_rx_special c) eqn:Es.
  - now apply (K_special _ c r).
  - now apply (K_literal _ c r).
Qed.

(** *** Patterns without custom sub-patterns *)

Lemma skipn_cons_app {A} (c : A) (k r : list A) :
  skipn (1 + length k) (c :: k ++ r) = r.
Proof. cbn [Nat.add skipn]. apply drop_app_length. Qed.

Lemma render_atoms_cons sep a atoms :
  render_atoms sep (a :: atoms) = render_atom sep a ++ render_atoms sep atoms.
Proof. reflexivity. Qed.

Lemma render_cons sep i items :
  render sep (i :: items) = render_item sep i ++ render sep items.
Proof. reflexivity. Qed.

Lemma render_atoms_nil_inv sep atoms : render_atoms sep atoms = [] -> atoms = [].
Proof. destruct atoms as [|[] ?]; [reflexivity|discriminate..]. Qed.

Lemma plain_text_match s m :
  rx_at 0 s = Some m -> plain_text s = true ->
  sub_matched (required_param_pattern m) = false /\
  plain_text (skipn (length_ m) s) = true.
Proof.
  intros E H. unfold plain_text in *.
  rewrite (forallb_sregex_match _ s m) in H by (reflexivity || exact E).
  apply andb_prop in H as [H1 H2]. apply negb_true_iff in H1. auto.
Qed.

Lemma plain_text_literal c r :
  rx_at 0 (c :: r) = None -> plain_text (c :: r) = true -> plain_text r = true.
Proof.
  intros E H. unfold plain_text in *.
  now rewrite forallb_sregex_literal in H by (reflexivity || exact E).
Qed.

Lemma plain_match s m :
  rx_at 0 s = Some m -> plain s = true ->
  sub_matched (required_param_pattern m) = false /\
  plain_text (sub_str (optional_param_key m)) = true /\
  plain (skipn (length_ m) s) = true.
Proof.
  intros E H. unfold plain in *. apply andb_prop in H as [H1 H2].
  destruct (plain_text_match _ _ E H1) as [Hc Hp].
  rewrite (forallb_sregex_match _ s m) in H2 by (reflexivity || exact E).
  apply andb_prop in H2 as [H2 H3]. rewrite Hp, H3. auto.
Qed.

Lemma plain_literal c r :
  rx_at 0 (c :: r) = None -> plain (c :: r) = true -> plain r = true.
Proof.
  intros E H. unfold plain in *. apply andb_prop in H as [H1 H2].
  rewrite (plain_text_literal _ _ E H1).
  now rewrite forallb_sregex_literal in H2 by (reflexivity || exact E).
Qed.

(** The text inside an optional group holds no closing brace, so the
    recursive call emits atoms only, whatever [self] is. *)
Lemma scan_flat self sep n :
  forall s pat keys0,
    (length s <= n)%nat ->
    forallb (not_char "}") s = true ->
    plain_text s = true ->
    exists atoms ks,
      scan self sep s 0 pat keys0 = (pat ++ render_atoms sep atoms, keys0 ++ ks) /\
      forallb atom_ok atoms = true /\
      length ks = atoms_groups atoms.
Proof.
  induction n as [|n IH]; intros s pat keys0 Hn Hb Hp.
  { destruct s; [|simpl in Hn; lia]. exists [], []. cbn. now rewrite !app_nil_r. }
  pose proof (rx_at_kind s) as K.
  destruct (rx_at 0 s) as [m|] eqn:E; inversion K; subst.
  - (* optional: impossible *)
    exfalso. cbn [forallb] in Hb. apply andb_prop in Hb as [_ Hb].
    rewrite forallb_app in Hb. apply andb_prop in Hb as [_ Hb]. discriminate.
  - (* required *)
    destruct (plain_text_match _ _ E Hp) as [Hc Hp'].
    destruct custom; [discriminate|]. cbn [sub_str default app length] in *.
    rewrite Nat.add_0_r in *. cbn [mk_rx_match length_] in Hp'.
    rewrite skipn_cons_app in Hp'.
    rewrite (scan_match _ _ _ _ _ _ E). cbn [mk_rx_match length_].
    rewrite skipn_cons_app. cbn [emit mk_rx_match optional_param_key
      required_param_key required_param_pattern sub_matched sub_str default fst snd].
    unfold id.
    destruct (IH rest (pat ++ lit "([^\" ++ [sep] ++ lit "]+?)")
                (keys0 ++ [percent_decode key])) as (atoms & ks & Es & Ho & Hk).
    + cbn [length] in Hn. rewrite length_app in Hn. lia.
    + cbn [forallb] in Hb. apply andb_prop in Hb as [_ Hb].
      rewrite forallb_app in Hb. now apply andb_prop in Hb as [_ Hb].
    + exact Hp'.
    + exists (AParam :: atoms), (percent_decode key :: ks).
      rewrite Es, render_atoms_cons, <- !app_assoc. cbn [render_atom].
      repeat split; [exact Ho|]. cbn. unfold atoms_groups in Hk. now rewrite Hk.
  - (* wildcard *)
    destruct (plain_text_match _ _ E Hp) as [_ Hp'].
    cbn [mk_rx_match length_] in Hp'. rewrite skipn_cons_app in Hp'.
    rewrite (scan_match _ _ _ _ _ _ E). cbn [mk_rx_match length_].
    rewrite skipn_cons_app. cbn [emit mk_rx_match optional_param_key
      required_param_key wildcard_param_key sub_matched sub_str default fst snd].
    unfold id.
    destruct (IH rest (pat ++ lit "(\S+?)")
                (keys0 ++ [percent_decode key])) as (atoms & ks & Es & Ho & Hk).
    + cbn [length] in Hn. rewrite length_app in Hn. lia.
    + cbn [forallb] in Hb. apply andb_prop in Hb as [_ Hb].
      rewrite forallb_app in Hb. now apply andb_prop in Hb as [_ Hb].
    + exact Hp'.
    + exists (AWild :: atoms), (percent_decode key :: ks).
      rewrite Es, render_atoms_cons, <- !app_assoc. cbn [render_atom].
      repeat split; [exact Ho|]. cbn. unfold atoms_groups in Hk. now rewrite Hk.
  - (* special character *)
    destruct (plain_text_match _ _ E Hp) as [_ Hp'].
    cbn [mk_rx_match length_] in Hp'. change (skipn 1 (c :: r)) with r in Hp'.
    rewrite (scan_match _ _ _ _ _ _ E). cbn [mk_rx_match length_].
    change (skipn 1 (c :: r)) with r.
    cbn [emit mk_rx_match optional_param_key required_param_key wildcard_param_key
         special_chars_key sub_matched sub_str default fst snd].
    unfold id. change (["\"%char] ++ [c]) with ["\"%char; c].
    destruct (IH r (pat ++ ["\"%char; c]) keys0) as (atoms & ks & Es & Ho & Hk).
    + cbn [length] in Hn. lia.
    + cbn [forallb] in Hb. now apply andb_prop in Hb as [_ Hb].
    + exact Hp'.
    + exists (AEsc c :: atoms), ks.
      rewrite Es, render_atoms_cons, <- !app_assoc. cbn [render_atom forallb atom_ok].
      match goal with H : is_rx_special c = _ |- _ => rewrite H end.
      repeat split; [exact Ho|]. exact Hk.
  - (* end *)
    exists [], []. cbn. now rewrite !app_nil_r.
  - (* literal *)
    rewrite (scan_literal _ _ _ _ _ _ E).
    destruct (IH r (pat ++ [c]) keys0) as (atoms & ks & Es & Ho & Hk).
    + cbn [length] in Hn. lia.
    + cbn [forallb] in Hb. now apply andb_prop in Hb as [_ Hb].
    + exact (plain_text_literal _ _ E Hp).
    + exists (ALit c :: atoms), ks.
      rewrite Es, render_atoms_cons, <- !app_assoc. cbn [render_atom forallb atom_ok].
      match goal with H : is_rx_special c = _ |- _ => rewrite H end.
      repeat split; [exact Ho|]. exact Hk.
Qed.

Lemma scan_items d sep n :
  forall s pat keys0,
    (length s <= n)%nat ->
    plain s = true ->
    exists items ks,
      scan (make_pattern_rec (S d)) sep s 0 pat keys0
      = (pat ++ render sep items, keys0 ++ ks) /\
      forallb item_ok items = true /\
      length ks = items_groups items.
Proof.
  induction n as [|n IH]; intros s pat keys0 Hn Hp.
  { destruct s; [|simpl in Hn; lia]. exists [], []. cbn. now rewrite !app_nil_r. }
  pose proof (rx_at_kind s) as K.
  destruct (rx_at 0 s) as [m|] eqn:E; inversion K; subst.
  - (* optional group *)
    destruct (plain_match _ _ E Hp) as (_ & Hin & Hp').
    cbn [mk_rx_match length_ optional_param_key sub_str default] in Hp', Hin.
    unfold id in Hin.
    replace (length inner + 2)%nat with (1 + length (inner ++ ["}"%char]))%nat in Hp'
      by (rewrite length_app; simpl; lia).
    replace (inner ++ "}"%char :: rest) with ((inner ++ ["}"%char]) ++ rest) in Hp'
      by (rewrite <- app_assoc; reflexivity).
    rewrite skipn_cons_app in Hp'.
    rewrite (scan_match _ _ _ _ _ _ E). cbn [mk_rx_match length_].
    replace (length inner + 2)%nat with (1 + length (inner ++ ["}"%char]))%nat
      by (rewrite length_app; simpl; lia).
    replace (inner ++ "}"%char :: rest) with ((inner ++ ["}"%char]) ++ rest)
      by (rewrite <- app_assoc; reflexivity).
    rewrite skipn_cons_app.
    cbn [emit mk_rx_match optional_param_key sub_matched sub_str default].
    unfold id.
    change (make_pattern_rec (S d) inner keys0 sep)
      with (make_pattern_body (make_pattern_rec d) inner keys0 sep).
    rewrite make_pattern_body_scan.
    destruct (scan_flat (make_pattern_rec d) sep (length inner) inner [] keys0
                (le_n _)) as (atoms & ks & Es & Ho & Hk); [assumption..|].
    rewrite Es. cbn [app].
    destruct (render_atoms sep atoms) as [|a sub] eqn:Er.
    + apply render_atoms_nil_inv in Er. subst atoms.
      destruct ks; [|discriminate]. cbn [fst snd]. rewrite !app_nil_r.
      apply IH; [|exact Hp'].
      cbn [length] in Hn. rewrite length_app in Hn. cbn [length] in Hn. lia.
    + cbn [fst snd].
      destruct (IH rest (pat ++ lit "(?:" ++ (a :: sub) ++ lit ")?") (keys0 ++ ks))
        as (items & ks' & Es' & Ho' & Hk').
      * cbn [length] in Hn. rewrite length_app in Hn. cbn [length] in Hn. lia.
      * exact Hp'.
      * exists (IOpt atoms :: items), (ks ++ ks').
        rewrite Es', render_cons. cbn [render_item]. rewrite Er, <- !app_assoc.
        repeat split.
        -- cbn [forallb item_ok]. destruct atoms; [discriminate|]. now rewrite Ho.
        -- rewrite length_app, Hk, Hk'. reflexivity.
  - (* required *)
    destruct (plain_match _ _ E Hp) as (Hc & _ & Hp').
    destruct custom; [discriminate|]. cbn [sub_str default app length] in *.
    rewrite Nat.add_0_r in *. cbn [mk_rx_match length_] in Hp'.
    rewrite skipn_cons_app in Hp'.
    rewrite (scan_match _ _ _ _ _ _ E). cbn [mk_rx_match length_].
    rewrite skipn_cons_app. cbn [emit mk_rx_match optional_param_key
      required_param_key required_param_pattern sub_matched sub_str default fst snd].
    unfold id.
    destruct (IH rest (pat ++ lit "([^\" ++ [sep] ++ lit "]+?)")
                (keys0 ++ [percent_decode key])) as (items & ks & Es & Ho & Hk).
    + cbn [length] in Hn. rewrite length_app in Hn. lia.
    + exact Hp'.
    + exists (IAtom AParam :: items), (percent_decode key :: ks).
      rewrite Es, render_cons, <- !app_assoc. cbn [render_item render_atom].
      repeat split; [exact Ho|]. cbn. unfold items_groups in Hk. now rewrite Hk.
  - (* wildcard *)
    destruct (plain_match _ _ E Hp) as (_ & _ & Hp').
    cbn [mk_rx_match length_] in Hp'. rewrite skipn_cons_app in Hp'.
    rewrite (scan_match _ _ _ _ _ _ E). cbn [mk_rx_match length_].
    rewrite skipn_cons_app. cbn [emit mk_rx_match optional_param_key
      required_param_key wildcard_param_key sub_matched sub_str default fst snd].
    unfold id.
    destruct (IH rest (pat ++ lit "(\S+?)")
                (keys0 ++ [percent_decode key])) as (items & ks & Es & Ho & Hk).
    + cbn [length] in Hn. rewrite length_app in Hn. lia.
    + exact Hp'.
    + exists (IAtom AWild :: items), (percent_decode key :: ks).
      rewrite Es, render_cons, <- !app_assoc. cbn [render_item render_atom].
      repeat split; [exact Ho|]. cbn. unfold items_groups in Hk. now rewrite Hk.
  - (* special character *)
    destruct (plain_match _ _ E Hp) as (_ & _ & Hp').
    cbn [mk_rx_match length_] in Hp'. change (skipn 1 (c :: r)) with r in Hp'.
    rewrite (scan_match _ _ _ _ _ _ E). cbn [mk_rx_match length_].
    change (skipn 1 (c :: r)) with r.
    cbn [emit mk_rx_match optional_param_key required_param_key wildcard_param_key
         special_chars_key sub_matched sub_str default fst snd].
    unfold id. change (["\"%char] ++ [c]) with ["\"%char; c].
    destruct (IH r (pat ++ ["\"%char; c]) keys0) as (items & ks & Es & Ho & Hk).
    + cbn [length] in Hn. lia.
    + exact Hp'.
    + exists (IAtom (AEsc c) :: items), ks.
      rewrite Es, render_cons, <- !app_assoc.
      cbn [render_item render_atom forallb item_ok atom_ok].
      match goal with H : is_rx_special c = _ |- _ => rewrite H end.
      repeat split; [exact Ho|]. exact Hk.
  - (* end *)
    exists [], []. cbn. now rewrite !app_nil_r.
  - (* literal *)
    rewrite (scan_literal _ _ _ _ _ _ E).
    destruct (IH r (pat ++ [c]) keys0) as (items & ks & Es & Ho & Hk).
    + cbn [length] in Hn. lia.
    + exact (plain_literal _ _ E Hp).
    + exists (IAtom (ALit c) :: items), ks.
      rewrite Es, render_cons, <- !app_assoc.
      cbn [render_item render_atom forallb item_ok atom_ok].
      match goal with H : is_rx_special c = _ |- _ => rewrite H end.
      repeat split; [exact Ho|]. exact Hk.
Qed.

(** The pattern compiled from a text without custom sub-patterns. *)
Lemma make_pattern_items path keys0 sep :
  plain path = true ->
  exists items ks,
    make_pattern path keys0 sep = (render sep items, keys0 ++ ks) /\
    forallb item_ok items = true /\
    length ks = items_groups items.
Proof.
  intros Hp. unfold make_pattern. cbn [make_pattern_rec].
  rewrite make_pattern_body_scan.
  destruct path as [|c r].
  - exists [], []. cbn. now rewrite app_nil_r.
  - cbn [length].
    destruct (scan_items (length r) sep (length (c :: r)) (c :: r) [] keys0 (le_n _) Hp)
      as (items & ks & Es & Ho & Hk).
    exists items, ks. now rewrite Es.
Qed.

(** *** The depth of the recursion *)

Lemma scan_self_ext self1 self2 sep s :
  (forall inner keys0,
      forallb (not_char "}") inner = true ->
      self1 inner keys0 sep = self2 inner keys0 sep) ->
  forall skip pat keys0,
    scan self1 sep s skip pat keys0 = scan self2 sep s skip pat keys0.
Proof.
  intros Hself. induction s as [|c r IH]; intros skip pat keys0; [reflexivity|].
  cbn [scan]. destruct skip as [|k]; [|apply IH].
  pose proof (rx_at_kind (c :: r)) as K.
  destruct (rx_at 0 (c :: r)) as [m|] eqn:E; [|apply IH].
  assert (Em : emit self1 sep m keys0 = emit self2 sep m keys0).
  { inversion K; subst; try reflexivity.
    cbn [emit mk_rx_match optional_param_key sub_matched sub_str default].
    unfold id. now rewrite Hself. }
  rewrite Em. apply IH.
Qed.

Lemma scan_no_brace self1 self2 sep s :
  forallb (not_char "}") s = true ->
  forall skip pat keys0,
    scan self1 sep s skip pat keys0 = scan self2 sep s skip pat keys0.
Proof.
  induction s as [|c r IH]; intros Hb skip pat keys0; [reflexivity|].
  cbn [forallb] in Hb. apply andb_prop in Hb as [Hc Hb].
  cbn [scan]. destruct skip as [|k]; [|now apply IH].
  pose proof (rx_at_kind (c :: r)) as K.
  destruct (rx_at 0 (c :: r)) as [m|] eqn:E; [|now apply IH].
  assert (Em : emit self1 sep m keys0 = emit self2 sep m keys0).
  { inversion K; subst; try reflexivity.
    exfalso. match goal with H : _ :: _ = _ :: _ |- _ => injection H as -> -> end.
    rewrite forallb_app in Hb. apply andb_prop in Hb as [_ Hb]. discriminate. }
  rewrite Em. now apply IH.
Qed.

(** More levels than [make_pattern] provides change nothing. *)
Lemma make_pattern_rec_enough d path keys0 sep :
  (S (length path) <= d)%nat ->
  make_pattern_rec d path keys0 sep = make_pattern path keys0 sep.
Proof.
  intros Hd. unfold make_pattern.
  destruct d as [|d]; [lia|]. cbn [make_pattern_rec].
  rewrite !make_pattern_body_scan.
  destruct path as [|c r]; [reflexivity|].
  cbn [length] in *. destruct d as [|d]; [lia|].
  apply scan_self_ext. intros inner keys1 Hb.
  cbn [make_pattern_rec]. rewrite !make_pattern_body_scan.
  now apply scan_no_brace.
Qed.

(** ** The tokenizer regex run by the engine model

    [rx_at] is a scanner written by hand from the four alternatives of
    [rx]. This part shows that it finds, at every position of every text,
    the match that the backtracking matcher finds for the syntax tree of
    [rx_text]: the same length and the same five sub-matches. *)

Section Tokenizer.

Import ecma.

Section GreedyClass.

Variable mr : mstate -> cont -> option mstate.
Variable p : ascii -> bool.
Variable c : cont.
Hypothesis mr_step : forall x k, mr x k = step_char p x k.
Hypothesis c_stops :
  (forall pre a r caps,
      p a = true -> c {| before := pre; after := a :: r; captures := caps |} = None)
  \/ (forall y, is_Some (c y)).

Lemma repeat0_class run :
  forall rest pre caps fuel,
    forallb p run = true ->
    match rest with a :: _ => p a = false | [] => True end ->
    (length (run ++ rest) <= fuel)%nat ->
    repeat0 mr [] true c fuel None
            {| before := pre; after := run ++ rest; captures := caps |}
    = c {| before := rev run ++ pre; after := rest; captures := caps |}.
Proof.
  induction run as [|a run IH]; intros rest pre caps fuel Hrun Hrest Hfuel.
  - cbn [app rev]. destruct fuel as [|fuel]; [reflexivity|].
    cbn [repeat0 max_is_zero]. rewrite mr_step. unfold step_char, clear_captures.
    cbn [after before captures fold_right].
    destruct rest as [|a r]; [reflexivity|]. now rewrite Hrest.
  - cbn [forallb] in Hrun. apply andb_true_iff in Hrun as [Ha Hrun].
    destruct fuel as [|fuel]; [cbn in Hfuel; lia|].
    cbn [repeat0 max_is_zero]. rewrite mr_step. unfold step_char, clear_captures.
    cbn [after before captures fold_right app]. rewrite Ha.
    replace (length (run ++ rest) =? length (a :: run ++ rest))%nat with false
      by (symmetry; apply Nat.eqb_neq; cbn [length]; lia).
    cbn [dec_max]. rewrite IH; [|assumption|assumption|cbn in Hfuel; lia].
    cbn [rev]. rewrite <- app_assoc. cbn [app].
    destruct (c {| before := rev run ++ a :: pre; after := rest; captures := caps |})
      as [z|] eqn:E; [reflexivity|].
    destruct c_stops as [Hs|Hs].
    + apply Hs, Ha.
    + destruct (Hs {| before := rev run ++ a :: pre; after := rest; captures := caps |})
        as [z Ez]. congruence.
Qed.

Lemma repeat_class_star pre r caps :
  repeat_matcher mr [] true c 0 None {| before := pre; after := r; captures := caps |}
  = c {| before := rev (take_while p r) ++ pre;
         after := skipn (length (take_while p r)) r; captures := caps |}.
Proof.
  cbn [repeat_matcher after].
  pose proof (take_while_skipn p r) as Hr.
  pose proof (take_while_forallb p r) as Hf.
  pose proof (take_while_stop p r) as Hs.
  set (run := take_while p r) in *. set (rest := skipn (length run) r) in *.
  rewrite <- Hr. apply repeat0_class; [exact Hf| |reflexivity].
  destruct rest as [|a rest']; [exact I|]. now apply (Hs a rest').
Qed.

Lemma repeat_class_plus pre r caps :
  repeat_matcher mr [] true c 1 None {| before := pre; after := r; captures := caps |}
  = match take_while p r with
    | [] => None
    | _ :: _ =>
        c {| before := rev (take_while p r) ++ pre;
             after := skipn (length (take_while p r)) r; captures := caps |}
    end.
Proof.
  cbn [repeat_matcher max_is_zero dec_max]. rewrite mr_step.
  unfold step_char, clear_captures. cbn [after before captures fold_right].
  destruct r as [|a r]; [reflexivity|]. cbn [take_while].
  destruct (p a) eqn:Ha; [|reflexivity].
  change (repeat0 mr [] true c (length r) None ?x)
    with (repeat_matcher mr [] true c 0 None x).
  rewrite repeat_class_star. cbn [length skipn rev].
  now rewrite <- app_assoc.
Qed.

End GreedyClass.

Lemma rx_compiles :
  compile rx_text (make_regex_flags case_sensitive) = Some rx_compiled.
Proof. vm_compute. reflexivity. Qed.

Lemma class_not_char (c a : ascii) :
  xorb true (existsb (fun it => class_item_matches false it a) [CChar c])
  = not_char c a.
Proof.
  cbn [existsb class_item_matches canonicalize andb]. unfold not_char.
  rewrite orb_false_r, (Ascii.eqb_sym c a). reflexivity.
Qed.

Lemma class_key_char (a : ascii) :
  xorb false (existsb (fun it => class_item_matches false it a)
                      [CWord false; CChar "%"])
  = is_key_char a.
Proof.
  cbn [existsb class_item_matches canonicalize andb xorb].
  unfold is_key_char, is_word_char. rewrite orb_false_r.
  now rewrite (Ascii.eqb_sym "%" a).
Qed.

Lemma class_rx_special (a : ascii) :
  xorb false (existsb (fun it => class_item_matches false it a)
                      (map CChar (lit ".^$*+?()|[]{}\")))
  = is_rx_special a.
Proof.
  unfold is_rx_special. cbn [xorb].
  induction (lit ".^$*+?()|[]{}\") as [|c l IH]; [reflexivity|].
  cbn [map existsb class_item_matches canonicalize andb].
  now rewrite IH, (Ascii.eqb_sym c a).
Qed.

Lemma consumed_app pre w rest caps pre' caps' :
  consumed {| before := pre; after := w ++ rest; captures := caps |}
           {| before := pre'; after := rest; captures := caps' |} = w.
Proof.
  unfold consumed. cbn [after]. rewrite length_app.
  replace (length w + length rest - length rest)%nat with (length w) by lia.
  apply take_app_length.
Qed.

Lemma consumed_take_while p pre r caps pre' caps' :
  consumed {| before := pre; after := r; captures := caps |}
           {| before := pre'; after := skipn (length (take_while p r)) r;
              captures := caps' |}
  = take_while p r.
Proof.
  pose proof (consumed_app pre (take_while p r)
                (skipn (length (take_while p r)) r) caps pre' caps') as H.
  now rewrite take_while_skipn in H.
Qed.

Lemma class_step (neg : bool) items p :
  (forall a, xorb neg (existsb (fun it => class_item_matches false it a) items) = p a) ->
  forall x k, m false (Class neg items) x k = step_char p x k.
Proof.
  intros Hp x k. cbn [m]. unfold step_char.
  destruct (after x) as [|a r]; [reflexivity|]. now rewrite Hp.
Qed.

Lemma m_alt1 pre s :
  m false rx_alt1 {| before := pre; after := s; captures := replicate 5 None |}
    (fun y => Some y)
  = match s with
    | c :: r =>
        if Ascii.eqb c "{" then
          let inner := take_while (not_char "}") r in
          match skipn (length inner) r with
          | b :: rest =>
              Some {| before := b :: rev inner ++ c :: pre; after := rest;
                      captures := [Some inner; None; None; None; None] |}
          | [] => None
          end
        else None
    | [] => None
    end.
Proof.
  unfold rx_alt1. cbn [m]. unfold step_char at 1. cbn [after before captures].
  destruct s as [|c r]; [reflexivity|]. cbn [canonicalize andb].
  destruct (Ascii.eqb c "{"); [|reflexivity].
  cbn [groups_of replicate].
  rewrite (repeat_class_star _ (not_char "}")).
  2:{ intros x k. apply (class_step true [CChar "}"]), class_not_char. }
  2:{ left. intros pre' a r' caps Ha. unfold step_char. cbn [after].
      unfold not_char in Ha. now destruct (Ascii.eqb a "}"). }
  unfold step_char. cbn [before after captures].
  rewrite consumed_take_while. cbn [set_capture set_nth].
  pose proof (take_while_stop (not_char "}") r) as Hs.
  destruct (skipn _ r) as [|b rest]; [reflexivity|].
  specialize (Hs b rest eq_refl). unfold not_char in Hs.
  destruct (Ascii.eqb b "}"); [reflexivity|discriminate].
Qed.

Lemma key_class_step x k : m false rx_key_class x k = step_char is_key_char x k.
Proof. apply (class_step false [CWord false; CChar "%"]), class_key_char. Qed.

Lemma m_alt3 pre s :
  m false rx_alt3 {| before := pre; after := s; captures := replicate 5 None |}
    (fun y => Some y)
  = match s with
    | c :: r =>
        if Ascii.eqb c "*" then
          let key := take_while is_key_char r in
          match key with
          | [] => None
          | _ :: _ =>
              Some {| before := rev key ++ c :: pre;
                      after := skipn (length key) r;
                      captures := [None; None; None; Some key; None] |}
          end
        else None
    | [] => None
    end.
Proof.
  unfold rx_alt3. cbn [m]. unfold step_char at 1. cbn [after before captures].
  destruct s as [|c r]; [reflexivity|]. cbn [canonicalize andb].
  destruct (Ascii.eqb c "*"); [|reflexivity].
  cbn [groups_of replicate].
  rewrite (repeat_class_plus _ is_key_char).
  2:{ intros x k. apply key_class_step. }
  2:{ right. intros y. eexists. reflexivity. }
  cbn zeta. destruct (take_while is_key_char r) as [|a key] eqn:Ek; [reflexivity|].
  rewrite <- Ek. cbn [before after captures].
  rewrite consumed_take_while. reflexivity.
Qed.

Lemma m_alt4 pre s :
  m false rx_alt4 {| before := pre; after := s; captures := replicate 5 None |}
    (fun y => Some y)
  = match s with
    | c :: r =>
        if is_rx_special c then
          Some {| before := c :: pre; after := r;
                  captures := [None; None; None; None; Some [c]] |}
        else None
    | [] => None
    end.
Proof.
  unfold rx_alt4.
  change (m false (Seq (Group 5 (Seq ?cl Empty)) Empty) ?x ?k)
    with (m false cl x (fun y => m false Empty y (fun y =>
            m false Empty
              {| before := before y; after := after y;
                 captures := set_capture 5 (Some (consumed x y)) (captures y) |} k))).
  rewrite (class_step false _ is_rx_special) by apply class_rx_special.
  unfold step_char. cbn [m after before captures].
  destruct s as [|c r]; [reflexivity|].
  destruct (is_rx_special c); [|reflexivity].
  rewrite (consumed_app pre [c] r). reflexivity.
Qed.

Lemma m_seq r1 r2 x c :
  m false (Seq r1 r2) x c = m false r1 x (fun y => m false r2 y c).
Proof. reflexivity. Qed.

Lemma m_group n r1 x c :
  m false (Group n r1) x c
  = m false r1 x (fun y =>
      c {| before := before y; after := after y;
           captures := set_capture n (Some (consumed x y)) (captures y) |}).
Proof. reflexivity. Qed.

Lemma m_char ch x c :
  m false (Char ch) x c = step_char (fun a => Ascii.eqb a ch) x c.
Proof. reflexivity. Qed.

Lemma m_quant r1 min max greedy x c :
  m false (Quant r1 min max greedy) x c
  = repeat_matcher (m false r1) (groups_of r1) greedy c min max x.
Proof. reflexivity. Qed.

Lemma m_empty x c : m false Empty x c = c x.
Proof. reflexivity. Qed.

Lemma repeat0_done mr gs greedy c fuel x :
  repeat0 mr gs greedy c fuel (Some 0%nat) x = c x.
Proof. destruct fuel; reflexivity. Qed.

(** The optional custom sub-pattern of alternative 2, tried at [r1]. *)
Lemma m_custom_optional pre1 r1 caps0 caps1 caps2 :
  repeat_matcher (m false rx_custom) (groups_of rx_custom) true
    (fun y => Some y) 0 (Some 1%nat)
    {| before := pre1; after := r1;
       captures := caps0 :: caps1 :: None :: caps2 |}
  = let custom :=
      match r1 with
      | o :: r' =>
          if Ascii.eqb o "(" then
            let body := take_while (not_char ")") r' in
            match body, skipn (length body) r' with
            | _ :: _, _ :: _ => Some (["("%char] ++ body ++ [")"%char])
            | _, _ => None
            end
          else None
      | [] => None
      end in
    Some {| before := rev (sub_str custom) ++ pre1;
            after := skipn (length (sub_str custom)) r1;
            captures := caps0 :: caps1 :: custom :: caps2 |}.
Proof.
  cbn [repeat_matcher after]. destruct r1 as [|o r']; [reflexivity|].
  cbn [length repeat0 max_is_zero dec_max groups_of rx_custom app].
  unfold clear_captures. cbn [before after captures fold_right set_capture set_nth].
  fold rx_custom. unfold rx_custom at 1.
  rewrite m_group, m_seq, m_char. unfold step_char at 1. cbn [after before captures].
  destruct (Ascii.eqb_spec o "(") as [->|No]; [|reflexivity].
  rewrite m_seq, m_quant. cbn [groups_of].
  rewrite (repeat_class_plus _ (not_char ")")).
  2:{ intros x k. apply (class_step true [CChar ")"]), class_not_char. }
  2:{ left. intros pre' a r'' caps Ha. rewrite m_seq, m_char.
      unfold step_char. cbn [after].
      unfold not_char in Ha. now destruct (Ascii.eqb a ")"). }
  pose proof (take_while_skipn (not_char ")") r') as Hr.
  pose proof (take_while_stop (not_char ")") r') as Hs.
  cbn zeta.
  destruct (take_while (not_char ")") r') as [|b body']; [reflexivity|].
  change (S (length body')) with (length (b :: body')) in *.
  set (body := b :: body') in *.
  destruct (skipn (length body) r') as [|e rest] eqn:Er.
  { rewrite m_seq, m_char. reflexivity. }
  specialize (Hs e rest eq_refl). unfold not_char in Hs.
  destruct (Ascii.eqb_spec e ")") as [->|]; [|discriminate].
  rewrite m_seq, m_char. unfold step_char. cbn [after before captures].
  rewrite m_empty. cbn [after before captures length].
  replace (length rest =? S (length r'))%nat with false.
  2:{ symmetry. apply Nat.eqb_neq. rewrite <- Hr, length_app. cbn [length]. lia. }
  rewrite repeat0_done, Ascii.eqb_refl. unfold sub_str, default, id.
  assert (E : "("%char :: r' = ("("%char :: body ++ [")"%char]) ++ rest).
  { rewrite <- Hr. cbn [app]. now rewrite <- app_assoc. }
  rewrite E, consumed_app, drop_app_length. cbn [set_capture set_nth rev].
  rewrite rev_app_distr. cbn [rev app]. now rewrite <- app_assoc.
Qed.

Lemma m_alt2 pre s :
  m false rx_alt2 {| before := pre; after := s; captures := replicate 5 None |}
    (fun y => Some y)
  = match s with
    | c :: r =>
        if Ascii.eqb c ":" then
          let key := take_while is_key_char r in
          match key with
          | [] => None
          | _ :: _ =>
              let custom :=
                match skipn (length key) r with
                | o :: r' =>
                    if Ascii.eqb o "(" then
                      let body := take_while (not_char ")") r' in
                      match body, skipn (length body) r' with
                      | _ :: _, _ :: _ => Some (["("%char] ++ body ++ [")"%char])
                      | _, _ => None
                      end
                    else None
                | [] => None
                end in
              Some {| before := rev (sub_str custom) ++ rev key ++ c :: pre;
                      after := skipn (length (sub_str custom)) (skipn (length key) r);
                      captures := [None; Some key; custom; None; None] |}
          end
        else None
    | [] => None
    end.
Proof.
  unfold rx_alt2. rewrite m_seq, m_char. unfold step_char at 1.
  cbn [after before captures].
  destruct s as [|c r]; [reflexivity|].
  destruct (Ascii.eqb c ":"); [|reflexivity].
  rewrite m_seq, m_group, m_seq, m_quant.
  change (groups_of rx_key_class) with (@nil nat).
  rewrite (repeat_class_plus _ is_key_char).
  2:{ intros x k. apply key_class_step. }
  2:{ right. intros y. rewrite m_empty, m_seq, m_quant. cbn [repeat_matcher].
      match goal with |- is_Some (repeat0 ?mr ?gs true ?c ?f ?mx ?x) =>
        generalize mr; intros mr0; destruct f as [|fuel]
      end.
      - eexists; reflexivity.
      - cbn [repeat0 max_is_zero]. destruct (mr0 _ _); eexists; reflexivity. }
  cbn zeta. destruct (take_while is_key_char r) as [|a key] eqn:Ek; [reflexivity|].
  rewrite <- Ek. rewrite m_empty. cbn [before after captures].
  rewrite consumed_take_while. cbn [replicate set_capture set_nth].
  rewrite m_seq, m_quant.
  exact (m_custom_optional _ _ None (Some (take_while is_key_char r)) [None; None]).
Qed.

Lemma m_alt r1 r2 x c :
  m false (Alt r1 r2) x c
  = match m false r1 x c with Some z => Some z | None => m false r2 x c end.
Proof. reflexivity. Qed.

Lemma length_consumed x y :
  length (consumed x y) = (length (after x) - length (after y))%nat.
Proof. unfold consumed. rewrite length_firstn. lia. Qed.

Lemma length_take_while p (s : str) : (length (take_while p s) <= length s)%nat.
Proof.
  induction s as [|c r IH]; [reflexivity|]. cbn [take_while].
  destruct (p c); cbn [length]; lia.
Qed.

Lemma length_custom_at r1 : (length (sub_str (custom_at r1)) <= length r1)%nat.
Proof.
  unfold custom_at. destruct r1 as [|o r']; [reflexivity|].
  destruct (Ascii.eqb o "("); [|cbn; lia]. cbn zeta.
  pose proof (take_while_skipn (not_char ")") r') as Hr.
  destruct (take_while (not_char ")") r') as [|b body]; [cbn; lia|].
  destruct (skipn _ r') as [|e rest]; [cbn; lia|].
  rewrite <- Hr. cbn [sub_str default id app length].
  rewrite !length_app. cbn [length]. lia.
Qed.

Lemma rx_at_position' pos s m : rx_at pos s = Some m -> position m = pos.
Proof.
  rewrite rx_at_position. destruct (rx_at 0 s); [|discriminate].
  now intros [= <-].
Qed.

Lemma match_here_rx pre s :
  option_map (fun '(w, caps) => (length w, caps)) (match_here rx_compiled pre s)
  = option_map (fun m => (length_ m,
                          [optional_param_key m; required_param_key m;
                           required_param_pattern m; wildcard_param_key m;
                           special_chars_key m]))
               (rx_at (length pre) s).
Proof.
  unfold match_here. cbn [re_icase re_ast re_groups rx_compiled].
  rewrite !m_alt, m_alt1, m_alt2, m_alt3, m_alt4. unfold rx_at.
  destruct s as [|c r]; [reflexivity|].
  destruct (Ascii.eqb_spec c "{") as [->|N1].
  { pose proof (length_take_while (not_char "}") r) as Hl.
    cbn zeta. destruct (skipn _ r) as [|b rest] eqn:Er.
    - change (Ascii.eqb "{" ":") with false. change (Ascii.eqb "{" "*") with false.
      change (is_rx_special "{") with true. cbv iota.
      cbn [option_map]. rewrite length_consumed. cbn [after length].
      now replace (S (length r) - length r)%nat with 1%nat by lia.
    - apply (f_equal (@length _)) in Er. rewrite length_skipn in Er.
      cbn [length] in Er. cbn [option_map]. rewrite length_consumed.
      cbn [after captures length_ optional_param_key required_param_key
           required_param_pattern wildcard_param_key special_chars_key length].
      do 2 f_equal. lia. }
  destruct (Ascii.eqb_spec c ":") as [->|N2].
  { cbn zeta. change (Ascii.eqb ":" "*") with false.
    change (is_rx_special ":") with false. cbv iota.
    pose proof (length_take_while is_key_char r) as Hl.
    destruct (take_while is_key_char r) as [|a key] eqn:Ek; [reflexivity|].
    rewrite <- Ek in *.
    change (match skipn (length (take_while is_key_char r)) r with
            | [] => None
            | o :: r' => _
            end) with (custom_at (skipn (length (take_while is_key_char r)) r)).
    pose proof (length_custom_at (skipn (length (take_while is_key_char r)) r)) as Hc.
    rewrite length_skipn in Hc.
    cbn [option_map]. rewrite length_consumed.
    cbn [after captures length_ optional_param_key required_param_key
         required_param_pattern wildcard_param_key special_chars_key length].
    rewrite !length_skipn. do 2 f_equal. lia. }
  destruct (Ascii.eqb_spec c "*") as [->|N3].
  { cbn zeta. change (is_rx_special "*") with true. cbv iota.
    pose proof (length_take_while is_key_char r) as Hl.
    destruct (take_while is_key_char r) as [|a key] eqn:Ek.
    - cbn [option_map]. rewrite length_consumed. cbn [after length].
      now replace (S (length r) - length r)%nat with 1%nat by lia.
    - rewrite <- Ek in *. cbn [option_map]. rewrite length_consumed.
      cbn [after captures length_ optional_param_key required_param_key
           required_param_pattern wildcard_param_key special_chars_key length].
      rewrite length_skipn. do 2 f_equal. lia. }
  destruct (is_rx_special c); [|reflexivity].
  cbn [option_map]. rewrite length_consumed. cbn [after length].
  now replace (S (length r) - length r)%nat with 1%nat by lia.
Qed.

Lemma regex_iterate_rx s :
  forall pre skip,
    map (fun '(pos, w, caps) => (pos, length w, caps))
        (regex_iterate rx_compiled pre s skip)
    = map (fun m => (position m, length_ m,
                     [optional_param_key m; required_param_key m;
                      required_param_pattern m; wildcard_param_key m;
                      special_chars_key m]))
          (rx_iterate s (length pre) skip).
Proof.
  induction s as [|a r IH]; intros pre skip; [reflexivity|].
  cbn [regex_iterate rx_iterate]. destruct skip as [|k].
  2:{ exact (IH (a :: pre) k). }
  pose proof (match_here_rx pre (a :: r)) as H.
  destruct (match_here rx_compiled pre (a :: r)) as [[w caps]|];
    destruct (rx_at (length pre) (a :: r)) as [m|] eqn:Em;
    try discriminate H.
  - cbn [option_map] in H. injection H as Hw Hc.
    cbn [map]. rewrite (rx_at_position' _ _ _ Em), Hw, Hc. f_equal.
    exact (IH (a :: pre) (length_ m - 1)%nat).
  - exact (IH (a :: pre) 0%nat).
Qed.

(** X17: run over any text by the engine model, the tokenizer regex finds
    the matches that the scanner [rx_at] finds: the same positions, lengths
    and sub-matches. *)
Theorem scanner_is_engine s : rx_by_engine s = rx_by_scanner s.
Proof.
  unfold rx_by_engine, rx_by_scanner, sregex_iterator.
  rewrite rx_compiles. f_equal. exact (regex_iterate_rx s [] 0%nat).
Qed.

End Tokenizer.

(** ** The test fixtures of the repository *)

(** Every fixture of the test suite passes: the pattern compiles, and the
    matcher returns the expected flag and the expected parameters. *)
Example test_suite_passes : forallb test_passes test_cases = true.
Proof. vm_compute. reflexivity. Qed.

Example test_suite_size : length test_cases = 164%nat.
Proof. reflexivity. Qed.

(** ** Parsing a compiled pattern without custom sub-patterns *)

Lemma parse_loop_skip a b st :
  ecma.parse_loop (a ++ b) (length a) st = ecma.parse_loop b 0 st.
Proof.
  induction a as [|c a IH]; [destruct b; reflexivity|]. exact IH.
Qed.

Lemma parse_loop_step st st' a b :
  a <> [] ->
  ecma.parse_step st (a ++ b) = Some (st', length a) ->
  ecma.parse_loop (a ++ b) 0 st = ecma.parse_loop b 0 st'.
Proof.
  intros Ha E. destruct a as [|c a]; [contradiction|].
  cbn [app ecma.parse_loop]. cbn [app] in E. rewrite E.
  replace (length (c :: a) - 1)%nat with (length a) by (cbn [length]; lia).
  apply parse_loop_skip.
Qed.

Lemma mk_seq_rev ts : ecma.mk_seq (rev ts) = seq_of ts.
Proof.
  unfold ecma.mk_seq, seq_of. rewrite <- fold_left_rev_right, rev_involutive.
  reflexivity.
Qed.

Lemma add_terms_add_terms ts1 g1 ts2 g2 st :
  add_terms ts2 g2 (add_terms ts1 g1 st) = add_terms (ts1 ++ ts2) (g1 + g2) st.
Proof.
  unfold add_terms. cbn. f_equal.
  - now rewrite rev_app_distr, app_assoc.
  - lia.
Qed.

Lemma add_terms_nil st : add_terms [] 0 st = st.
Proof. destruct st. reflexivity. Qed.

Lemma parse_quant_none b :
  no_quant b = true -> ecma.parse_quant b = Some (None, 0%nat).
Proof.
  destruct b as [|c r]; [reflexivity|]. cbn [no_quant]. intros H.
  apply negb_true_iff in H. cbn in H.
  repeat (apply orb_false_elim in H as [? H]).
  unfold ecma.parse_quant.
  repeat match goal with E : Ascii.eqb c _ = false |- _ => rewrite E; clear E end.
  reflexivity.
Qed.

Lemma parse_quant_optional b :
  no_quant b = true ->
  ecma.parse_quant ("?"%char :: b)
  = Some (Some {| ecma.q_min := 0; ecma.q_max := Some 1%nat; ecma.q_greedy := true |},
          1%nat).
Proof.
  destruct b as [|c r]; [reflexivity|]. cbn [no_quant]. intros H.
  apply negb_true_iff in H. cbn in H.
  repeat (apply orb_false_elim in H as [? H]).
  cbn. 
  repeat match goal with E : Ascii.eqb c _ = false |- _ => rewrite E; clear E end.
  reflexivity.
Qed.

Lemma not_special_eqb c :
  is_rx_special c = false ->
  forall x, In x (lit ".^$*+?()|[]{}\") -> Ascii.eqb c x = false.
Proof.
  intros H x Hx. unfold is_rx_special in H.
  rewrite <- not_true_iff_false in H. apply not_true_is_false.
  intros E. apply H. apply existsb_exists. eauto.
Qed.

Lemma parse_step_literal st c b :
  is_rx_special c = false -> no_quant b = true ->
  ecma.parse_step st (c :: b)
  = Some (add_terms [ecma.Char c] 0 st, 1%nat).
Proof.
  intros Hc Hb. pose proof (not_special_eqb c Hc) as N.
  unfold ecma.parse_step.
  rewrite (N "|"%char), (N "("%char), (N ")"%char), (N "^"%char), (N "$"%char),
    (N "\"%char) by (cbn; tauto).
  cbn [andb].
  assert (Ea : ecma.parse_atom (c :: b) = Some (ecma.Char c, 1%nat, 0%nat)).
  { unfold ecma.parse_atom.
    rewrite (N "."%char), (N "["%char), (N "\"%char) by (cbn; tauto).
    cbn [existsb lit list_ascii_of_string].
    rewrite (N "*"%char), (N "+"%char), (N "?"%char), (N "{"%char), (N "}"%char),
      (N "]"%char) by (cbn; tauto).
    reflexivity. }
  replace (match b with
           | [] => None
           | _ :: _ => None
           end : option ecma.regex) with (@None ecma.regex) by (destruct b; reflexivity).
  rewrite Ea. change (skipn 1 (c :: b)) with b. rewrite (parse_quant_none b Hb).
  reflexivity.
Qed.

Lemma parse_step_escape st c b :
  In c (lit ".^$*+?()|[]{}\/") -> no_quant b = true ->
  ecma.parse_step st ("\"%char :: c :: b)
  = Some (add_terms [ecma.Char c] 0 st, 2%nat).
Proof.
  intros Hc Hb. cbn in Hc.
  repeat (destruct Hc as [<-|Hc]); try contradiction;
    (unfold ecma.parse_step; lazy -[ecma.parse_quant];
     rewrite (parse_quant_none b Hb); reflexivity).
Qed.

Lemma special_in c : is_rx_special c = true -> In c (lit ".^$*+?()|[]{}\/").
Proof.
  unfold is_rx_special. intros H. apply existsb_exists in H as (x & Hx & E).
  apply Ascii.eqb_eq in E. subst x. cbn in Hx |- *. tauto.
Qed.

Lemma is_separator_cases sep : is_separator sep = true -> sep = "/"%char \/ sep = "\"%char.
Proof.
  unfold is_separator. intros H. apply orb_prop in H as [H|H];
    apply Ascii.eqb_eq in H; auto.
Qed.

Lemma parse_quant_lazy_plus x :
  ecma.parse_quant ("+"%char :: "?"%char :: x)
  = Some (Some {| ecma.q_min := 1; ecma.q_max := None; ecma.q_greedy := false |},
          2%nat).
Proof. reflexivity. Qed.

(** Run the parser over the known head of the text. *)
Ltac parse_run Hb :=
  repeat (cbn [ecma.parse_loop];
          lazy -[ecma.parse_quant ecma.parse_loop];
          rewrite ?parse_quant_lazy_plus, ?(parse_quant_none _ Hb),
            ?(parse_quant_optional _ Hb)).

(** The default capture of a required parameter: three steps of the parser. *)
Lemma parse_loop_param st sep b :
  is_separator sep = true -> no_quant b = true ->
  ecma.parse_loop (render_atom sep AParam ++ b) 0 st
  = ecma.parse_loop b 0
      (add_terms [atom_term sep (ecma.p_groups st) AParam] 1 st).
Proof.
  intros Hs Hb. apply is_separator_cases in Hs.
  destruct Hs as [-> | ->].
  - parse_run Hb. reflexivity.
  - parse_run Hb. reflexivity.
Qed.

Lemma parse_loop_wild st sep b :
  no_quant b = true ->
  ecma.parse_loop (render_atom sep AWild ++ b) 0 st
  = ecma.parse_loop b 0
      (add_terms [atom_term sep (ecma.p_groups st) AWild] 1 st).
Proof. intros Hb. parse_run Hb. reflexivity. Qed.

Lemma parse_loop_atom st sep a b :
  is_separator sep = true -> atom_ok a = true -> no_quant b = true ->
  ecma.parse_loop (render_atom sep a ++ b) 0 st
  = ecma.parse_loop b 0
      (add_terms [atom_term sep (ecma.p_groups st) a] (atom_groups a) st).
Proof.
  intros Hs Ha Hb. destruct a as [c|c| |].
  - apply negb_true_iff in Ha.
    apply (parse_loop_step st _ [c] b); [discriminate|].
    now apply parse_step_literal.
  - apply (parse_loop_step st _ ["\"%char; c] b); [discriminate|].
    apply parse_step_escape; [now apply special_in|exact Hb].
  - now apply parse_loop_param.
  - now apply parse_loop_wild.
Qed.

Lemma no_quant_render_atom sep a x :
  atom_ok a = true -> no_quant (render_atom sep a ++ x) = true.
Proof.
  destruct a as [c|c| |]; try reflexivity.
  cbn [atom_ok render_atom app no_quant]. intros H. apply negb_true_iff in H.
  pose proof (not_special_eqb c H) as N.
  cbn [existsb lit list_ascii_of_string].
  rewrite (N "*"%char), (N "+"%char), (N "?"%char), (N "{"%char) by (cbn; tauto).
  reflexivity.
Qed.

Lemma no_quant_render_atoms sep atoms x :
  forallb atom_ok atoms = true -> no_quant x = true ->
  no_quant (render_atoms sep atoms ++ x) = true.
Proof.
  destruct atoms as [|a atoms]; [auto|].
  cbn [forallb]. intros H _. apply andb_prop in H as [H _].
  rewrite render_atoms_cons, <- app_assoc. now apply no_quant_render_atom.
Qed.

Lemma parse_loop_atoms sep atoms :
  is_separator sep = true ->
  forall st b,
    forallb atom_ok atoms = true -> no_quant b = true ->
    ecma.parse_loop (render_atoms sep atoms ++ b) 0 st
    = ecma.parse_loop b 0
        (add_terms (atoms_terms sep (ecma.p_groups st) atoms) (atoms_groups atoms) st).
Proof.
  intros Hs. induction atoms as [|a atoms IH]; intros st b Ho Hb.
  - cbn [render_atoms flat_map app atoms_terms]. now rewrite add_terms_nil.
  - cbn [forallb] in Ho. apply andb_prop in Ho as [Ha Ho].
    rewrite render_atoms_cons, <- app_assoc.
    rewrite (parse_loop_atom st sep a) by
      (try assumption; now apply no_quant_render_atoms).
    rewrite IH by assumption.
    rewrite add_terms_add_terms. reflexivity.
Qed.

Lemma parse_loop_optional st sep inner b :
  is_separator sep = true ->
  forallb atom_ok inner = true -> no_quant b = true ->
  ecma.parse_loop (render_item sep (IOpt inner) ++ b) 0 st
  = ecma.parse_loop b 0
      (add_terms [item_term sep (ecma.p_groups st) (IOpt inner)]
                 (atoms_groups inner) st).
Proof.
  intros Hs Ho Hb. cbn [render_item]. rewrite <- !app_assoc.
  rewrite (parse_loop_step st (ecma.open_group ecma.NonCapture (ecma.p_groups st) st)
             (lit "(?:")) by (discriminate || reflexivity).
  rewrite (parse_loop_atoms sep inner Hs) by (assumption || reflexivity).
  apply (parse_loop_step _ _ (lit ")?") b); [discriminate|].
  unfold ecma.parse_step.
  cbn [lit list_ascii_of_string app Ascii.eqb Bool.eqb ecma.p_stack add_terms
       ecma.open_group ecma.fr_kind ecma.p_alts ecma.p_seq ecma.fr_alts ecma.fr_seq
       ecma.p_groups ecma.p_maxref].
  rewrite (parse_quant_optional b Hb).
  rewrite app_nil_r, mk_seq_rev.
  reflexivity.
Qed.

Lemma parse_loop_item st sep i b :
  is_separator sep = true -> item_ok i = true -> no_quant b = true ->
  ecma.parse_loop (render_item sep i ++ b) 0 st
  = ecma.parse_loop b 0
      (add_terms [item_term sep (ecma.p_groups st) i] (item_groups i) st).
Proof.
  intros Hs Hi Hb. destruct i as [a|inner].
  - now apply parse_loop_atom.
  - apply parse_loop_optional; try assumption.
    cbn [item_ok] in Hi. now destruct inner.
Qed.

Lemma no_quant_render sep items x :
  forallb item_ok items = true -> no_quant x = true ->
  no_quant (render sep items ++ x) = true.
Proof.
  destruct items as [|[a|inner] items]; [auto|..]; cbn [forallb]; intros H _.
  - apply andb_prop in H as [H _].
    rewrite render_cons, <- app_assoc. now apply no_quant_render_atom.
  - reflexivity.
Qed.

Lemma parse_loop_items sep items :
  is_separator sep = true ->
  forall st b,
    forallb item_ok items = true -> no_quant b = true ->
    ecma.parse_loop (render sep items ++ b) 0 st
    = ecma.parse_loop b 0
        (add_terms (items_terms sep (ecma.p_groups st) items) (items_groups items) st).
Proof.
  intros Hs. induction items as [|i items IH]; intros st b Ho Hb.
  - cbn [render flat_map app items_terms]. now rewrite add_terms_nil.
  - cbn [forallb] in Ho. apply andb_prop in Ho as [Hi Ho].
    rewrite render_cons, <- app_assoc.
    rewrite (parse_loop_item st sep i) by
      (try assumption; now apply no_quant_render).
    rewrite IH by assumption.
    rewrite add_terms_add_terms. reflexivity.
Qed.

(** The optional trailing separator and the end anchor. *)
Lemma parse_loop_tail st sep sepatom :
  (sep = "/"%char /\ sepatom = ["/"%char]) \/
  (is_separator sep = true /\ sepatom = ["\"%char; sep]) ->
  ecma.parse_loop (sepatom ++ lit "?$") 0 st
  = Some (add_terms [ecma.Quant (ecma.Char sep) 0 (Some 1%nat) true; ecma.AssertEnd]
                    0 st).
Proof.
  intros [[-> ->]|[Hs ->]].
  - repeat (cbn [ecma.parse_loop app lit list_ascii_of_string];
            lazy -[ecma.parse_loop]).
    reflexivity.
  - apply is_separator_cases in Hs. destruct Hs as [-> | ->];
      repeat (cbn [ecma.parse_loop app lit list_ascii_of_string];
              lazy -[ecma.parse_loop]);
      reflexivity.
Qed.

Lemma compile_plain sep items sepatom flags :
  is_separator sep = true ->
  forallb item_ok items = true ->
  (sep = "/"%char /\ sepatom = ["/"%char]) \/ sepatom = ["\"%char; sep] ->
  ecma.compile (["^"%char] ++ render sep items ++ sepatom ++ lit "?$") flags
  = Some (plain_regex sep items (icase flags)).
Proof.
  intros Hs Ho Hsep. unfold ecma.compile.
  set (st0 := {| ecma.p_alts := []; ecma.p_seq := []; ecma.p_stack := [];
                 ecma.p_groups := 0; ecma.p_maxref := 0 |}).
  rewrite (parse_loop_step st0 (add_terms [ecma.AssertBegin] 0 st0) ["^"%char])
    by (discriminate || reflexivity).
  rewrite (parse_loop_items sep items Hs).
  - rewrite (parse_loop_tail _ sep sepatom) by (destruct Hsep as [?|?]; auto).
    rewrite !add_terms_add_terms.
    unfold add_terms, st0.
    cbn [ecma.p_stack ecma.p_maxref ecma.p_groups ecma.p_alts ecma.p_seq
         Nat.leb ecma.mk_alt fold_left Nat.add].
    rewrite app_nil_r, mk_seq_rev. unfold plain_regex. f_equal. f_equal. lia.
  - exact Ho.
  - destruct Hsep as [[-> ->]| ->]; reflexivity.
Qed.

(** *** The compiled pattern of [make_pattern_top] *)

Lemma render_app sep items1 items2 :
  render sep (items1 ++ items2) = render sep items1 ++ render sep items2.
Proof. apply flat_map_app. Qed.

Lemma items_groups_app items1 items2 :
  items_groups (items1 ++ items2) = (items_groups items1 + items_groups items2)%nat.
Proof. unfold items_groups. now rewrite map_app, list_sum_app. Qed.

Lemma render_item_last sep i :
  exists body c,
    render_item sep i = body ++ [c] /\
    match i with
    | IAtom (ALit a) | IAtom (AEsc a) => c = a
    | IAtom AParam | IAtom AWild => c = ")"%char
    | IOpt _ => c = "?"%char
    end.
Proof.
  destruct i as [[a|a| |]|inner].
  - exists [], a. auto.
  - exists ["\"%char], a. auto.
  - exists (lit "([^\" ++ [sep] ++ lit "]+?"), ")"%char. split; [|reflexivity].
    cbn. reflexivity.
  - exists (lit "(\S+?"), ")"%char. auto.
  - exists (lit "(?:" ++ render_atoms sep inner ++ lit ")"), "?"%char.
    split; [|reflexivity]. cbn [render_item]. rewrite <- !app_assoc. reflexivity.
Qed.

Lemma render_ends_with_separator sep items :
  is_separator sep = true ->
  forallb item_ok items = true ->
  render sep items <> [] ->
  List.last (render sep items) zero = sep ->
  exists items' a,
    items = items' ++ [IAtom a] /\
    ((a = ALit sep /\ sep = "/"%char) \/ (a = AEsc sep /\ sep = "\"%char)).
Proof.
  intros Hs Ho Hne Hl.
  destruct (exists_last (l := items)) as (items' & i & ->).
  { intros ->. now apply Hne. }
  rewrite forallb_app in Ho. apply andb_prop in Ho as [_ Ho].
  cbn [forallb] in Ho. rewrite andb_true_r in Ho.
  rewrite render_app in Hl. cbn [render flat_map] in Hl. rewrite app_nil_r in Hl.
  destruct (render_item_last sep i) as (body & c & Eb & Hc).
  rewrite Eb, app_assoc, last_last in Hl. subst c.
  apply is_separator_cases in Hs.
  destruct i as [[a|a| |]|inner].
  - subst a. exists items', (ALit sep). split; [reflexivity|]. left.
    split; [reflexivity|].
    destruct Hs as [E|E]; [exact E|]. rewrite E in Ho. discriminate.
  - subst a. exists items', (AEsc sep). split; [reflexivity|]. right.
    split; [reflexivity|].
    destruct Hs as [E|E]; [|exact E]. rewrite E in Ho. discriminate.
  - destruct Hs as [E|E]; rewrite E in Hc; discriminate.
  - destruct Hs as [E|E]; rewrite E in Hc; discriminate.
  - destruct Hs as [E|E]; rewrite E in Hc; discriminate.
Qed.

Lemma find_separator_is_separator p : is_separator (find_separator p) = true.
Proof. destruct (find_separator_cases p) as [-> | ->]; reflexivity. Qed.

(** The compiled pattern of a path without custom sub-patterns. *)
Lemma make_pattern_top_plain p keys0 :
  plain (percent_encode p) = true ->
  exists items sepatom ks,
    make_pattern_top p keys0
    = (["^"%char] ++ render (find_separator p) items ++ sepatom ++ lit "?$",
       keys0 ++ ks) /\
    forallb item_ok items = true /\
    ((find_separator p = "/"%char /\ sepatom = ["/"%char])
     \/ sepatom = ["\"%char; find_separator p]) /\
    length ks = items_groups items.
Proof.
  intros Hp. unfold make_pattern_top.
  pose proof (find_separator_is_separator p) as Hs.
  set (sep := find_separator p) in *.
  destruct (make_pattern_items (percent_encode p) keys0 sep Hp)
    as (items & ks & E & Ho & Hk).
  rewrite E.
  destruct (render sep items) as [|c r] eqn:Er.
  - exists items, ["\"%char; sep], ks. rewrite Er. auto.
  - destruct (Ascii.eqb_spec (List.last (c :: r) zero) sep) as [El|Nl]; cbn [negb].
    + rewrite <- Er in El.
      destruct (render_ends_with_separator sep items Hs Ho) as (items' & a & -> & Ha);
        [rewrite Er; discriminate|exact El|].
      rewrite forallb_app in Ho. apply andb_prop in Ho as [Ho' _].
      rewrite items_groups_app in Hk.
      rewrite <- Er, render_app. cbn [render flat_map render_item]. rewrite app_nil_r.
      destruct Ha as [[-> Es]|[-> Es]].
      * exists items', ["/"%char], ks. rewrite <- !app_assoc.
        cbn [render_atom]. rewrite Es. repeat split; auto.
        rewrite Hk. cbn. lia.
      * exists items', ["\"%char; sep], ks. rewrite <- !app_assoc.
        cbn [render_atom]. repeat split; auto.
        rewrite Hk. cbn. lia.
    + exists items, ["\"%char; sep], ks. rewrite <- Er, <- !app_assoc. auto.
Qed.

(** A pattern without custom sub-patterns always compiles, and its compiled
    form has one capturing group per key. *)
Lemma match_plain p cs :
  plain (percent_encode p) = true ->
  exists items (M : matcher),
    match_ p cs = Some M /\
    forallb item_ok items = true /\
    m_regex M
    = plain_regex (find_separator p) items (icase (make_regex_flags cs)) /\
    length (m_keys M) = items_groups items.
Proof.
  intros Hp.
  destruct (make_pattern_top_plain p [] Hp) as (items & sepatom & ks & E & Ho & Hsep & Hk).
  unfold match_, matcher_new. rewrite E.
  cbn [regex_new ecma_engine].
  rewrite (compile_plain (find_separator p) items sepatom)
    by (assumption || apply find_separator_is_separator).
  eexists items, _. split; [reflexivity|]. cbn [m_regex m_keys app]. auto.
Qed.

(** ** The matcher and the language of a simple regex *)

Lemma is_Some_orelse {A} (a b : option A) :
  is_Some (match a with Some z => Some z | None => b end) <-> is_Some a \/ is_Some b.
Proof.
  destruct a; split; eauto.
  - intros [[x Hx]|H]; [discriminate|exact H].
Qed.

Lemma step_char_lang p x k n P :
  accepts_at k n P -> (length (ecma.after x) <= n)%nat ->
  is_Some (ecma.step_char p x k)
  <-> exists a t, ecma.after x = a :: t /\ p a = true /\ P t.
Proof.
  intros Hk Hn. unfold ecma.step_char.
  destruct (ecma.after x) as [|a t] eqn:E.
  - split; [intros H; destruct (is_Some_None H)|intros (a & t & ? & _); discriminate].
  - destruct (p a) eqn:Ep.
    + pose proof (Hk {| ecma.before := a :: ecma.before x; ecma.after := t;
                        ecma.captures := ecma.captures x |}) as Hy.
      cbn [ecma.after] in Hy. rewrite Hy by (cbn [length] in Hn; lia).
      split; [eauto|]. intros (a' & t' & [= <- <-] & _ & H). exact H.
    + split; [intros H; destruct (is_Some_None H)|].
      intros (a' & t' & [= <- <-] & H & _). congruence.
Qed.

Section RepeatLang.

Variable mr : ecma.mstate -> ecma.cont -> option ecma.mstate.
Variable gs : list nat.
Variable greedy : bool.
Variable L : str -> Prop.

Hypothesis mr_lang :
  forall n k P x,
    accepts_at k n P -> (length (ecma.after x) <= n)%nat ->
    (is_Some (mr x k) <-> exists w t, ecma.after x = w ++ t /\ L w /\ P t).

Lemma repeats_zero_nil mx : repeats L 0 mx [].
Proof.
  exists []. repeat split; [constructor|lia|destruct mx; cbn; lia].
Qed.

Lemma repeats_max_zero mn w : repeats L mn (Some 0%nat) w -> w = [].
Proof.
  intros (ws & -> & _ & _ & Hm). cbn in Hm. destruct ws; [reflexivity|cbn in Hm; lia].
Qed.

Lemma repeats_cons mn mx w1 w2 :
  ecma.max_is_zero mx = false ->
  L w1 -> repeats L mn (ecma.dec_max mx) w2 -> repeats L (S mn) mx (w1 ++ w2).
Proof.
  intros Hz H1 (ws & -> & Hf & Hmn & Hmx).
  exists (w1 :: ws). repeat split; [now constructor|cbn [length]; lia|].
  destruct mx as [[|m]|]; cbn in *; try discriminate; lia.
Qed.

Lemma repeats_weaken mn mx w : repeats L (S mn) mx w -> repeats L mn mx w.
Proof.
  intros (ws & -> & Hf & Hmn & Hmx). exists ws. repeat split; auto. lia.
Qed.

Lemma repeats_uncons mn mx w :
  repeats L (S mn) mx w ->
  ecma.max_is_zero mx = false /\
  exists w1 w2, w = w1 ++ w2 /\ L w1 /\ repeats L mn (ecma.dec_max mx) w2.
Proof.
  intros (ws & -> & Hf & Hmn & Hmx).
  destruct ws as [|w1 ws]; [cbn in Hmn; lia|].
  inversion Hf; subst. cbn [length] in *. split.
  - destruct mx as [[|m]|]; cbn in *; try reflexivity; lia.
  - exists w1, (concat ws). repeat split; auto.
    exists ws. repeat split; auto; [lia|].
    destruct mx as [[|m]|]; cbn in *; lia.
Qed.

(** Empty iterations can be left out. *)
Lemma repeats_split mx w :
  ecma.max_is_zero mx = false ->
  repeats L 0 mx w ->
  w = [] \/
  exists w1 w2, w = w1 ++ w2 /\ w1 <> [] /\ L w1 /\ repeats L 0 (ecma.dec_max mx) w2.
Proof.
  intros Hz (ws & -> & Hf & _ & Hmx).
  induction ws as [|u ws IH]; [now left|].
  inversion Hf; subst. cbn [length concat] in *.
  destruct u as [|a u].
  - cbn [app]. apply IH; [assumption|]. destruct mx; cbn in *; lia.
  - right. exists (a :: u), (concat ws). repeat split; auto; try discriminate.
    exists ws. repeat split; auto; [lia|].
    destruct mx as [[|m]|]; cbn in *; lia.
Qed.

Lemma repeat0_lang k n P :
  accepts_at k n P ->
  forall fuel mx x,
    (length (ecma.after x) <= fuel)%nat -> (length (ecma.after x) <= n)%nat ->
    (is_Some (ecma.repeat0 mr gs greedy k fuel mx x)
     <-> exists w t, ecma.after x = w ++ t /\ repeats L 0 mx w /\ P t).
Proof.
  intros Hk. induction fuel as [|fuel IH]; intros mx x Hf Hn.
  - cbn [ecma.repeat0]. 
    assert (E : ecma.after x = []) by (destruct (ecma.after x); [reflexivity|cbn in Hf; lia]).
    assert (Hkx : is_Some (k x) <-> P []) by (rewrite <- E; apply Hk; lia).
    assert (R : is_Some (if ecma.max_is_zero mx then k x else k x) <-> P [])
      by (destruct (ecma.max_is_zero mx); exact Hkx).
    rewrite R, E. split.
    + intros H. exists [], []. repeat split; [apply repeats_zero_nil|exact H].
    + intros (w & t & Ew & _ & H). symmetry in Ew.
      apply app_eq_nil in Ew as [_ ->]. exact H.
  - cbn [ecma.repeat0]. destruct (ecma.max_is_zero mx) eqn:Hz.
    + rewrite (Hk x Hn). split.
      * intros H. exists [], (ecma.after x). repeat split; [apply repeats_zero_nil|exact H].
      * intros (w & t & Ew & Hr & H).
        destruct mx as [[|m]|]; try discriminate.
        apply repeats_max_zero in Hr. subst w. now rewrite Ew.
    + set (d := fun y : ecma.mstate =>
                  if (length (ecma.after y) =? length (ecma.after x))%nat then None
                  else ecma.repeat0 mr gs greedy k fuel (ecma.dec_max mx) y).
      set (Pd := fun t : str =>
                   length t <> length (ecma.after x) /\
                   exists w' t', t = w' ++ t' /\ repeats L 0 (ecma.dec_max mx) w' /\ P t').
      assert (Hd : accepts_at d (length (ecma.after x)) Pd).
      { intros y Hy. unfold d, Pd.
        destruct (Nat.eqb_spec (length (ecma.after y)) (length (ecma.after x))) as [E|N].
        - split; [intros H; destruct (is_Some_None H)|intros [H _]; contradiction].
        - rewrite (IH (ecma.dec_max mx) y) by lia. tauto. }
      assert (Hstep :
        is_Some (mr (ecma.clear_captures gs x) d) \/ is_Some (k x)
        <-> exists w t, ecma.after x = w ++ t /\ repeats L 0 mx w /\ P t).
      { rewrite (mr_lang _ d Pd (ecma.clear_captures gs x) Hd) by (cbn; lia).
        rewrite (Hk x Hn). cbn [ecma.clear_captures ecma.after]. split.
        - intros [(w & t & Ew & Hw & _ & w' & t' & -> & Hr & Ht)|H].
          + exists (w ++ w'), t'. rewrite <- app_assoc. repeat split; auto.
            apply repeats_weaken. now apply repeats_cons.
          + exists [], (ecma.after x). repeat split; [apply repeats_zero_nil|exact H].
        - intros (w & t & Ew & Hr & Ht).
          destruct (repeats_split mx w Hz Hr) as [->|(w1 & w2 & -> & Hne & H1 & H2)].
          + right. now rewrite Ew.
          + left. exists w1, (w2 ++ t). rewrite <- app_assoc in Ew.
            repeat split; auto.
            * rewrite Ew, !length_app. destruct w1; [contradiction|cbn; lia].
            * eauto. }
      rewrite <- Hstep. destruct greedy.
      * apply is_Some_orelse.
      * rewrite is_Some_orelse. tauto.
Qed.

Lemma repeat_matcher_lang k n P :
  accepts_at k n P ->
  forall mn mx x,
    match mx with Some m => (mn <= m)%nat | None => True end ->
    (length (ecma.after x) <= n)%nat ->
    (is_Some (ecma.repeat_matcher mr gs greedy k mn mx x)
     <-> exists w t, ecma.after x = w ++ t /\ repeats L mn mx w /\ P t).
Proof.
  intros Hk. induction mn as [|mn IH]; intros mx x Hb Hn.
  - cbn [ecma.repeat_matcher]. apply (repeat0_lang k n P Hk); [lia|exact Hn].
  - cbn [ecma.repeat_matcher].
    assert (Hz : ecma.max_is_zero mx = false)
      by (destruct mx as [[|m]|]; cbn in *; try reflexivity; lia).
    rewrite Hz.
    set (P' := fun t : str =>
                 exists w' t', t = w' ++ t' /\ repeats L mn (ecma.dec_max mx) w' /\ P t').
    assert (Hk' : accepts_at (fun y => ecma.repeat_matcher mr gs greedy k mn (ecma.dec_max mx) y)
                             n P').
    { intros y Hy. apply IH; [|exact Hy]. destruct mx as [[|m]|]; cbn in *; lia. }
    rewrite (mr_lang n _ P' (ecma.clear_captures gs x) Hk') by (cbn; lia).
    cbn [ecma.clear_captures ecma.after]. split.
    + intros (w & t & Ew & Hw & w' & t' & -> & Hr & Ht).
      exists (w ++ w'), t'. rewrite <- app_assoc. repeat split; auto.
      now apply repeats_cons.
    + intros (w & t & Ew & Hr & Ht).
      apply repeats_uncons in Hr as (_ & w1 & w2 & -> & H1 & H2).
      exists w1, (w2 ++ t). rewrite <- app_assoc in Ew. repeat split; auto.
      exists w2, t. auto.
Qed.

End RepeatLang.

(** The backtracking matcher accepts what the language says. *)
Lemma m_lang ic r :
  simple r = true ->
  forall n k P x,
    accepts_at k n P -> (length (ecma.after x) <= n)%nat ->
    (is_Some (ecma.m ic r x k)
     <-> exists w t, ecma.after x = w ++ t /\ lang ic r w /\ P t).
Proof.
  induction r as [ |ch| |neg items|r1 IH1 r2 IH2|r1 IH1 r2 IH2|r1 IH mn mx g
                  |g r1 IH|g| | |neg|neg r1 IH];
    intros Hs n k P x Hk Hn; try discriminate Hs.
  - (* Empty *)
    cbn [ecma.m lang]. rewrite (Hk x Hn). split.
    + intros H. exists [], (ecma.after x). auto.
    + intros (w & t & E & -> & H). now rewrite E.
  - (* Char *)
    cbn [ecma.m lang]. rewrite (step_char_lang _ x k n P Hk Hn). split.
    + intros (a & t & E & Ha & H). exists [a], t. eauto 6.
    + intros (w & t & E & (a & -> & Ha) & H). eauto 6.
  - (* Any *)
    cbn [ecma.m lang]. rewrite (step_char_lang _ x k n P Hk Hn). split.
    + intros (a & t & E & Ha & H). apply negb_true_iff in Ha. exists [a], t. eauto 6.
    + intros (w & t & E & (a & -> & Ha) & H). exists a, t.
      repeat split; auto. now apply negb_true_iff.
  - (* Class *)
    cbn [ecma.m lang]. rewrite (step_char_lang _ x k n P Hk Hn). split.
    + intros (a & t & E & Ha & H). exists [a], t. eauto 6.
    + intros (w & t & E & (a & -> & Ha) & H). eauto 6.
  - (* Seq *)
    cbn [simple] in Hs. apply andb_prop in Hs as [Hs1 Hs2].
    cbn [ecma.m lang].
    set (P2 := fun t : str => exists w2 t2, t = w2 ++ t2 /\ lang ic r2 w2 /\ P t2).
    assert (Hk2 : accepts_at (fun y => ecma.m ic r2 y k) n P2).
    { intros y Hy. now apply (IH2 Hs2 n k P y Hk). }
    rewrite (IH1 Hs1 n _ P2 x Hk2 Hn). split.
    + intros (w1 & t & E & H1 & w2 & t2 & -> & H2 & H).
      exists (w1 ++ w2), t2. rewrite <- app_assoc. eauto 8.
    + intros (w & t & E & (w1 & w2 & -> & H1 & H2) & H).
      exists w1, (w2 ++ t). rewrite <- app_assoc in E. repeat split; auto.
      exists w2, t. auto.
  - (* Alt *)
    cbn [simple] in Hs. apply andb_prop in Hs as [Hs1 Hs2].
    cbn [ecma.m lang]. rewrite is_Some_orelse.
    rewrite (IH1 Hs1 n k P x Hk Hn), (IH2 Hs2 n k P x Hk Hn). split.
    + intros [(w & t & E & H1 & H)|(w & t & E & H1 & H)]; exists w, t; auto.
    + intros (w & t & E & [H1|H1] & H); [left|right]; exists w, t; auto.
  - (* Quant *)
    cbn [simple] in Hs. apply andb_prop in Hs as [Hs1 Hb].
    cbn [ecma.m lang].
    assert (Hmr : forall n' k' P' x',
               accepts_at k' n' P' -> (length (ecma.after x') <= n')%nat ->
               (is_Some (ecma.m ic r1 x' k')
                <-> exists w t, ecma.after x' = w ++ t /\ lang ic r1 w /\ P' t)).
    { intros n' k' P' x' Hk' Hn'. now apply (IH Hs1 n' k' P' x'). }
    apply (repeat_matcher_lang (ecma.m ic r1) (ecma.groups_of r1) g (lang ic r1)
             Hmr k n P Hk mn mx x); [|exact Hn].
    destruct mx; [now apply Nat.leb_le|exact I].
  - (* Group *)
    cbn [simple] in Hs. cbn [ecma.m lang]. apply (IH Hs n); [|exact Hn].
    intros y Hy. apply (Hk {| ecma.before := ecma.before y; ecma.after := ecma.after y;
                              ecma.captures := _ |}). exact Hy.
Qed.

(** *** The regex of a pattern without custom sub-patterns *)

Lemma simple_seq_of ts : forallb simple ts = true -> simple (seq_of ts) = true.
Proof.
  induction ts as [|t ts IH]; [reflexivity|]. cbn [forallb seq_of fold_right simple].
  intros H. apply andb_prop in H as [H1 H2]. rewrite H1. now apply IH.
Qed.

Lemma simple_atoms_terms sep n atoms : forallb simple (atoms_terms sep n atoms) = true.
Proof.
  revert n. induction atoms as [|a atoms IH]; intros n; [reflexivity|].
  cbn [atoms_terms forallb]. rewrite IH. now destruct a.
Qed.

Lemma simple_items_terms sep n items : forallb simple (items_terms sep n items) = true.
Proof.
  revert n. induction items as [|i items IH]; intros n; [reflexivity|].
  cbn [items_terms forallb]. rewrite IH, andb_true_r.
  destruct i as [a|inner]; [now destruct a|].
  cbn [item_term simple]. now rewrite simple_seq_of by apply simple_atoms_terms.
Qed.

Lemma m_seq_of_lang ic ts1 ts2 k n P2 :
  forallb simple ts1 = true ->
  accepts_at (fun y => ecma.m ic (seq_of ts2) y k) n P2 ->
  forall x,
    (length (ecma.after x) <= n)%nat ->
    (is_Some (ecma.m ic (seq_of (ts1 ++ ts2)) x k)
     <-> exists w t, ecma.after x = w ++ t /\ lang ic (seq_of ts1) w /\ P2 t).
Proof.
  intros Hs Hk2. induction ts1 as [|t ts1 IH]; intros x Hn.
  - cbn [app seq_of fold_right lang]. rewrite (Hk2 x Hn). split.
    + intros H. exists [], (ecma.after x). auto.
    + intros (w & t & E & -> & H). now rewrite E.
  - cbn [forallb] in Hs. apply andb_prop in Hs as [Ht Hs].
    cbn [app seq_of fold_right ecma.m lang].
    set (P' := fun u : str => exists w t', u = w ++ t' /\ lang ic (seq_of ts1) w /\ P2 t').
    assert (Hk' : accepts_at (fun y => ecma.m ic (seq_of (ts1 ++ ts2)) y k) n P').
    { intros y Hy. now apply IH. }
    rewrite (m_lang ic t Ht n _ P' x Hk' Hn). split.
    + intros (w1 & u & E & H1 & w & t' & -> & H2 & H).
      exists (w1 ++ w), t'. rewrite <- app_assoc. eauto 8.
    + intros (w & t' & E & (w1 & w2 & -> & H1 & H2) & H).
      exists w1, (w2 ++ t'). rewrite <- app_assoc in E. repeat split; auto.
      exists w2, t'. auto.
Qed.

Lemma lang_seq_of_app ic ts1 ts2 w :
  lang ic (seq_of (ts1 ++ ts2)) w
  <-> exists w1 w2, w = w1 ++ w2 /\ lang ic (seq_of ts1) w1 /\ lang ic (seq_of ts2) w2.
Proof.
  revert w. induction ts1 as [|t ts1 IH]; intros w.
  - cbn [app seq_of fold_right lang]. split.
    + intros H. exists [], w. auto.
    + intros (w1 & w2 & -> & -> & H). exact H.
  - cbn [app seq_of fold_right lang]. split.
    + intros (u & v & -> & Hu & Hv). apply IH in Hv as (v1 & v2 & -> & H1 & H2).
      exists (u ++ v1), v2. rewrite <- app_assoc. eauto 8.
    + intros (w1 & w2 & -> & (u & v & -> & Hu & Hv) & H2).
      exists u, (v ++ w2). rewrite <- app_assoc. repeat split; auto.
      apply IH. eauto.
Qed.

Lemma canonicalize_separator ic sep a :
  is_separator sep = true ->
  Ascii.eqb (ecma.canonicalize ic a) (ecma.canonicalize ic sep) = Ascii.eqb a sep.
Proof.
  intros Hs. apply is_separator_cases in Hs. destruct ic; [|reflexivity].
  destruct Hs as [-> | ->];
    destruct a as [[] [] [] [] [] [] [] []]; vm_compute; reflexivity.
Qed.

(** The optional trailing separator matches nothing or the separator. *)
Lemma lang_optional_separator ic sep w :
  is_separator sep = true ->
  lang ic (ecma.Quant (ecma.Char sep) 0 (Some 1%nat) true) w <-> w = [] \/ w = [sep].
Proof.
  intros Hs. cbn [lang]. split.
  - intros (ws & -> & Hf & _ & Hm). cbn in Hm.
    destruct ws as [|u [|v ws]]; [now left| |cbn in Hm; lia].
    inversion Hf as [|? ? (a & -> & Ha) _]; subst.
    rewrite (canonicalize_separator ic sep a Hs) in Ha. apply Ascii.eqb_eq in Ha.
    subst. now right.
  - intros [-> | ->].
    + exists []. repeat split; [constructor|lia|cbn; lia].
    + exists [[sep]]. repeat split; [|cbn; lia|cbn; lia].
      constructor; [|constructor]. exists sep. split; [reflexivity|].
      apply Ascii.eqb_refl.
Qed.

Lemma is_Some_wrap {A B} (a : option A) (f : A -> B) :
  is_Some (match a with Some y => Some (f y) | None => None end) <-> is_Some a.
Proof.
  destruct a; split; eauto; intros H; destruct (is_Some_None H).
Qed.

(** What the regex of a pattern without custom sub-patterns matches. *)
Lemma regex_match_plain sep items ic s :
  is_separator sep = true ->
  is_Some (ecma.regex_match (plain_regex sep items ic) s)
  <-> exists w1 w2,
        s = w1 ++ w2 /\
        lang ic (seq_of (items_terms sep 0 items)) w1 /\
        (w2 = [] \/ w2 = [sep]).
Proof.
  intros Hs. unfold ecma.regex_match.
  rewrite (is_Some_wrap _ (fun y => Some s :: ecma.captures y)).
  cbn [plain_regex ecma.re_ast ecma.re_icase ecma.re_groups seq_of fold_right
       ecma.m ecma.before].
  change (fold_right ecma.Seq ecma.Empty
            (items_terms sep 0 items
             ++ [ecma.Quant (ecma.Char sep) 0 (Some 1%nat) true; ecma.AssertEnd]))
    with (seq_of (items_terms sep 0 items
                  ++ [ecma.Quant (ecma.Char sep) 0 (Some 1%nat) true; ecma.AssertEnd])).
  set (ts := items_terms sep 0 items).
  set (q := ecma.Quant (ecma.Char sep) 0 (Some 1%nat) true).
  change (ts ++ [q; ecma.AssertEnd]) with (ts ++ [q] ++ [ecma.AssertEnd]).
  rewrite app_assoc.
  set (kend := fun y : ecma.mstate =>
                 match ecma.after y with [] => Some y | _ :: _ => None end).
  assert (Hend : accepts_at (fun y => ecma.m ic (seq_of [ecma.AssertEnd]) y kend)
                            (length s) (fun t => t = [])).
  { intros y _. cbn [seq_of fold_right ecma.m]. unfold kend.
    destruct (ecma.after y); split; eauto; try discriminate.
    intros H. destruct (is_Some_None H). }
  rewrite (m_seq_of_lang ic (ts ++ [q]) [ecma.AssertEnd] kend (length s) _)
    by (try exact Hend; try (cbn; lia);
        rewrite forallb_app; unfold ts; rewrite simple_items_terms; reflexivity).
  cbn [ecma.after]. split.
  - intros (w & t & -> & Hw & ->). rewrite app_nil_r.
    apply lang_seq_of_app in Hw as (w1 & w2 & -> & H1 & H2).
    exists w1, w2. repeat split; auto.
    cbn [seq_of fold_right lang] in H2. destruct H2 as (u & v & -> & Hu & ->).
    rewrite app_nil_r. now apply (lang_optional_separator ic sep u Hs).
  - intros (w1 & w2 & -> & H1 & H2). exists (w1 ++ w2), [].
    rewrite app_nil_r. repeat split; auto.
    apply lang_seq_of_app. exists w1, w2. repeat split; auto.
    cbn [seq_of fold_right lang]. exists w2, []. rewrite app_nil_r.
    repeat split; auto. now apply (lang_optional_separator ic sep w2 Hs).
Qed.

(** *** A trailing separator *)

Lemma hex_digit_not_separator c sep :
  is_separator sep = true -> hex_digit (code c mod 16) <> sep.
Proof.
  intros Hs. apply is_separator_cases in Hs.
  destruct Hs as [-> | ->];
    destruct c as [[] [] [] [] [] [] [] []]; vm_compute; discriminate.
Qed.

Lemma percent_encode_ends_with_separator sep X w :
  is_separator sep = true ->
  percent_encode X = w ++ [sep] ->
  exists X', X = X' ++ [sep].
Proof.
  intros Hs E.
  destruct (exists_last (l := X)) as (X' & c & ->).
  { intros ->. destruct w; discriminate. }
  exists X'. f_equal. f_equal.
  rewrite percent_encode_app, (percent_encode_cons c []) in E.
  change (percent_encode []) with (@nil ascii) in E. rewrite app_nil_r in E. unfold encode_byte in E. destruct (passes c).
  - apply app_inj_tail in E as [_ E]. exact E.
  - change ["%"%char; hex_digit (code c / 16); hex_digit (code c mod 16)]
      with (["%"%char; hex_digit (code c / 16)] ++ [hex_digit (code c mod 16)]) in E.
    rewrite app_assoc in E. apply app_inj_tail in E as [_ E].
    now apply hex_digit_not_separator in E.
Qed.

Lemma percent_encode_separator sep X :
  is_separator sep = true ->
  percent_encode (X ++ [sep]) = percent_encode X ++ [sep].
Proof.
  intros Hs. rewrite percent_encode_app, (percent_encode_cons sep []). f_equal.
  apply is_separator_cases in Hs. destruct Hs as [-> | ->]; reflexivity.
Qed.

(** For a pattern without custom sub-patterns, a path that matches and does
    not end with the separator still matches with the separator appended. *)
Lemma trailing_separator_plain p cs (M : matcher) X :
  plain (percent_encode p) = true ->
  match_ p cs = Some M ->
  (forall X', X <> X' ++ [find_separator p]) ->
  matched (matcher_call M X) = true ->
  matched (matcher_call M (X ++ [find_separator p])) = true.
Proof.
  intros Hp EM Hend Hm.
  pose proof (find_separator_is_separator p) as Hs.
  destruct (match_plain p cs Hp) as (items & M' & EM' & _ & Hre & _).
  rewrite EM in EM'. injection EM' as <-.
  apply matched_iff in Hm. apply matched_iff.
  cbn [regex_match ecma_engine] in *. rewrite Hre in *.
  apply (regex_match_plain _ items _ _ Hs) in Hm as (w1 & w2 & E & H1 & H2).
  apply (regex_match_plain _ items _ _ Hs).
  destruct H2 as [-> | ->].
  - rewrite app_nil_r in E. exists w1, [find_separator p].
    rewrite percent_encode_separator, E by exact Hs. auto.
  - exfalso.
    destruct (percent_encode_ends_with_separator _ X w1 Hs E) as (X' & EX).
    exact (Hend X' EX).
Qed.

(** ** Every pattern is translated token by token *)

(** The text inside an optional group, which holds no closing brace, read
    as tokens; [self] is not called. *)
Lemma scan_toks n :
  forall s,
    (length s <= n)%nat ->
    forallb (not_char "}") s = true ->
    exists toks,
      s = flat_map tok_text toks /\
      forall self sep pat keys0,
        scan self sep s 0 pat keys0
        = (pat ++ flat_map (tok_pattern sep) toks, keys0 ++ flat_map tok_keys toks).
Proof.
  induction n as [|n IH]; intros s Hn Hb.
  { destruct s; [|simpl in Hn; lia]. exists []. split; [reflexivity|].
    intros. cbn. now rewrite !app_nil_r. }
  pose proof (rx_at_kind s) as K.
  destruct (rx_at 0 s) as [m|] eqn:E; inversion K; subst.
  - (* optional: impossible *)
    exfalso. cbn [forallb] in Hb. apply andb_prop in Hb as [_ Hb].
    rewrite forallb_app in Hb. apply andb_prop in Hb as [_ Hb]. discriminate.
  - (* required *)
    destruct (IH rest) as (toks & Et & Hs).
    + cbn [length] in Hn. rewrite !length_app in Hn. lia.
    + cbn [forallb] in Hb. apply andb_prop in Hb as [_ Hb].
      rewrite !forallb_app in Hb. apply andb_prop in Hb as [_ Hb].
      now apply andb_prop in Hb as [_ Hb].
    + exists (TParam key (sub_str custom) :: toks). split.
      * cbn [flat_map tok_text]. rewrite <- Et. cbn [app]. now rewrite <- app_assoc.
      * intros self sep pat keys0.
        rewrite (scan_match _ _ _ _ _ _ E). cbn [mk_rx_match length_].
        rewrite <- length_app, (app_assoc key).
        change (S (length (key ++ sub_str custom)))
          with (1 + length (key ++ sub_str custom))%nat.
        rewrite skipn_cons_app.
        cbn [emit mk_rx_match optional_param_key required_param_key
             required_param_pattern sub_matched fst snd].
        rewrite Hs. cbn [flat_map tok_pattern tok_keys sub_str default].
        unfold id. destruct (sub_str custom); cbn [fst snd];
          now rewrite <- !app_assoc.
  - (* wildcard *)
    destruct (IH rest) as (toks & Et & Hs).
    + cbn [length] in Hn. rewrite !length_app in Hn. lia.
    + cbn [forallb] in Hb. apply andb_prop in Hb as [_ Hb].
      rewrite !forallb_app in Hb. now apply andb_prop in Hb as [_ Hb].
    + exists (TWild key :: toks). split.
      * cbn [flat_map tok_text]. now rewrite <- Et.
      * intros self sep pat keys0.
        rewrite (scan_match _ _ _ _ _ _ E). cbn [mk_rx_match length_].
        rewrite skipn_cons_app.
        cbn [emit mk_rx_match optional_param_key required_param_key
             wildcard_param_key sub_matched sub_str default fst snd].
        unfold id. rewrite Hs. cbn [flat_map tok_pattern tok_keys].
        now rewrite <- !app_assoc.
  - (* special character *)
    destruct (IH r) as (toks & Et & Hs).
    + cbn [length] in Hn. lia.
    + cbn [forallb] in Hb. now apply andb_prop in Hb as [_ Hb].
    + exists (TChar c :: toks). split.
      * cbn [flat_map tok_text]. now rewrite <- Et.
      * intros self sep pat keys0.
        rewrite (scan_match _ _ _ _ _ _ E). cbn [mk_rx_match length_].
        change (skipn 1 (c :: r)) with r.
        cbn [emit mk_rx_match optional_param_key required_param_key
             wildcard_param_key special_chars_key sub_matched sub_str default fst snd].
        unfold id. rewrite Hs. cbn [flat_map tok_pattern tok_keys].
        unfold escape_char.
        match goal with H : is_rx_special c = _ |- _ => rewrite H end.
        cbn [app]. now rewrite <- !app_assoc.
  - (* end *)
    exists []. split; [reflexivity|]. intros. cbn. now rewrite !app_nil_r.
  - (* literal *)
    destruct (IH r) as (toks & Et & Hs).
    + cbn [length] in Hn. lia.
    + cbn [forallb] in Hb. now apply andb_prop in Hb as [_ Hb].
    + exists (TChar c :: toks). split.
      * cbn [flat_map tok_text]. now rewrite <- Et.
      * intros self sep pat keys0.
        rewrite (scan_literal _ _ _ _ _ _ E), Hs.
        cbn [flat_map tok_pattern tok_keys]. unfold escape_char.
        match goal with H : is_rx_special c = _ |- _ => rewrite H end.
        cbn [app]. now rewrite <- !app_assoc.
Qed.

(** Every text is the text of a list of tokens that [make_pattern]
    translates one by one. *)
Lemma scan_tokens n :
  forall s,
    (length s <= n)%nat ->
    exists toks,
      s = flat_map token_text toks /\
      forall d sep pat keys0,
        scan (make_pattern_rec (S d)) sep s 0 pat keys0
        = (pat ++ flat_map (token_pattern sep) toks,
           keys0 ++ flat_map token_keys toks).
Proof.
  induction n as [|n IH]; intros s Hn.
  { destruct s; [|simpl in Hn; lia]. exists []. split; [reflexivity|].
    intros. cbn. now rewrite !app_nil_r. }
  pose proof (rx_at_kind s) as K.
  destruct (rx_at 0 s) as [m|] eqn:E; inversion K; subst.
  - (* optional group *)
    match goal with H : forallb (not_char "}") inner = true |- _ =>
      destruct (scan_toks (length inner) inner (le_n _) H) as (tin & Ein & Hin)
    end.
    destruct (IH rest) as (toks & Et & Hs).
    { cbn [length] in Hn. rewrite length_app in Hn. cbn [length] in Hn. lia. }
    exists (TOpt tin :: toks). split.
    + cbn [flat_map token_text]. rewrite <- Et, <- Ein. cbn [app].
      now rewrite <- app_assoc.
    + intros d sep pat keys0.
      rewrite (scan_match _ _ _ _ _ _ E). cbn [mk_rx_match length_].
      replace (length inner + 2)%nat with (1 + length (inner ++ ["}"%char]))%nat
        by (rewrite length_app; simpl; lia).
      replace (inner ++ "}"%char :: rest) with ((inner ++ ["}"%char]) ++ rest)
        by (rewrite <- app_assoc; reflexivity).
      rewrite skipn_cons_app.
      cbn [emit mk_rx_match optional_param_key sub_matched sub_str default].
      unfold id.
      change (make_pattern_rec (S d) inner keys0 sep)
        with (make_pattern_body (make_pattern_rec d) inner keys0 sep).
      rewrite make_pattern_body_scan, Hin. cbn [app].
      rewrite Hs. cbn [flat_map token_pattern token_keys].
      destruct (flat_map (tok_pattern sep) tin); cbn [fst snd app];
        now rewrite <- ?app_assoc.
  - (* required *)
    destruct (IH rest) as (toks & Et & Hs).
    { cbn [length] in Hn. rewrite !length_app in Hn. lia. }
    exists (TOne (TParam key (sub_str custom)) :: toks). split.
    + cbn [flat_map token_text tok_text]. rewrite <- Et. cbn [app].
      now rewrite <- app_assoc.
    + intros d sep pat keys0.
      rewrite (scan_match _ _ _ _ _ _ E). cbn [mk_rx_match length_].
      rewrite <- length_app, (app_assoc key).
      change (S (length (key ++ sub_str custom)))
        with (1 + length (key ++ sub_str custom))%nat.
      rewrite skipn_cons_app.
      cbn [emit mk_rx_match optional_param_key required_param_key
           required_param_pattern sub_matched fst snd].
      rewrite Hs. cbn [flat_map token_pattern tok_pattern token_keys tok_keys
                       sub_str default].
      unfold id. destruct (sub_str custom); cbn [fst snd];
        now rewrite <- !app_assoc.
  - (* wildcard *)
    destruct (IH rest) as (toks & Et & Hs).
    { cbn [length] in Hn. rewrite !length_app in Hn. lia. }
    exists (TOne (TWild key) :: toks). split.
    + cbn [flat_map token_text tok_text]. now rewrite <- Et.
    + intros d sep pat keys0.
      rewrite (scan_match _ _ _ _ _ _ E). cbn [mk_rx_match length_].
      rewrite skipn_cons_app.
      cbn [emit mk_rx_match optional_param_key required_param_key
           wildcard_param_key sub_matched sub_str default fst snd].
      unfold id. rewrite Hs.
      cbn [flat_map token_pattern tok_pattern token_keys tok_keys].
      now rewrite <- !app_assoc.
  - (* special character *)
    destruct (IH r) as (toks & Et & Hs).
    { cbn [length] in Hn. lia. }
    exists (TOne (TChar c) :: toks). split.
    + cbn [flat_map token_text tok_text]. now rewrite <- Et.
    + intros d sep pat keys0.
      rewrite (scan_match _ _ _ _ _ _ E). cbn [mk_rx_match length_].
      change (skipn 1 (c :: r)) with r.
      cbn [emit mk_rx_match optional_param_key required_param_key
           wildcard_param_key special_chars_key sub_matched sub_str default fst snd].
      unfold id. rewrite Hs.
      cbn [flat_map token_pattern tok_pattern token_keys tok_keys].
      unfold escape_char.
      match goal with H : is_rx_special c = _ |- _ => rewrite H end.
      cbn [app]. now rewrite <- !app_assoc.
  - (* end *)
    exists []. split; [reflexivity|]. intros. cbn. now rewrite !app_nil_r.
  - (* literal *)
    destruct (IH r) as (toks & Et & Hs).
    { cbn [length] in Hn. lia. }
    exists (TOne (TChar c) :: toks). split.
    + cbn [flat_map token_text tok_text]. now rewrite <- Et.
    + intros d sep pat keys0.
      rewrite (scan_literal _ _ _ _ _ _ E), Hs.
      cbn [flat_map token_pattern tok_pattern token_keys tok_keys].
      unfold escape_char.
      match goal with H : is_rx_special c = _ |- _ => rewrite H end.
      cbn [app]. now rewrite <- !app_assoc.
Qed.

Lemma make_pattern_tokenized path :
  exists toks,
    path = flat_map token_text toks /\
    forall keys0 sep,
      make_pattern path keys0 sep
      = (flat_map (token_pattern sep) toks, keys0 ++ flat_map token_keys toks).
Proof.
  destruct path as [|c r].
  - exists []. split; [reflexivity|]. intros. cbn. now rewrite app_nil_r.
  - destruct (scan_tokens (length (c :: r)) (c :: r) (le_n _)) as (toks & Et & Hs).
    exists toks. split; [exact Et|]. intros keys0 sep.
    unfold make_pattern. cbn [make_pattern_rec length].
    rewrite make_pattern_body_scan. exact (Hs (length r) sep [] keys0).
Qed.

Lemma optional_separator_last sep (pattern0 : str) :
  (if match pattern0 with
      | [] => true
      | _ :: _ => negb (Ascii.eqb (List.last pattern0 zero) sep)
      end
   then pattern0 ++ ["\"%char] ++ [sep]
   else pattern0)
  = optional_separator sep pattern0.
Proof.
  unfold optional_separator.
  destruct pattern0 as [|a r]; [reflexivity|].
  destruct (exists_last (l := a :: r)) as (l & c & El); [discriminate|].
  rewrite El, rev_unit, last_last.
  destruct (Ascii.eqb c sep); reflexivity.
Qed.

Lemma make_pattern_top_tokenized p :
  exists toks,
    percent_encode p = flat_map token_text toks /\
    forall keys0,
      make_pattern_top p keys0
      = (["^"%char]
           ++ optional_separator (find_separator p)
                (flat_map (token_pattern (find_separator p)) toks)
           ++ lit "?$",
         keys0 ++ flat_map token_keys toks).
Proof.
  destruct (make_pattern_tokenized (percent_encode p)) as (toks & Et & H).
  exists toks. split; [exact Et|]. intros keys0.
  unfold make_pattern_top. rewrite H, optional_separator_last. reflexivity.
Qed.

(** ** The properties of the specification *)

(** C7: [percent_encode] copies alphanumeric characters and the punctuation
    of the allow-list unchanged, renders every other byte as a percent sign
    followed by the two upper-case hexadecimal digits of its value, and its
    output is at most three times as long as its input. *)
Theorem percent_encode_spec (x : str) :
  percent_encode x
  = flat_map (fun c =>
      if isalnum c || is_special c then [c]
      else ["%"%char; hex_digit (code c / 16); hex_digit (code c mod 16)]) x
  /\ (length (percent_encode x) <= 3 * length x)%nat.
Proof.
  split.
  - apply percent_encode_flat_map.
  - apply length_percent_encode.
Qed.

(** C8: [percent_decode] is total (the loop ends within [length x]
    iterations); a percent sign followed by two hexadecimal digits is
    replaced by the byte the digits stand for, and any other character, a
    percent sign of a malformed or truncated escape included, is copied. *)
Theorem percent_decode_lenient :
  (forall x fuel, (length x <= fuel)%nat -> decode_loop fuel x 0 [] = percent_decode x) /\
  percent_decode [] = [] /\
  (forall h1 h2 v1 v2 r,
      denotes h1 v1 -> denotes h2 v2 ->
      percent_decode ("%"%char :: h1 :: h2 :: r) = chr (16 * v1 + v2) :: percent_decode r) /\
  (forall c r,
      escape_at_head (c :: r) = false ->
      percent_decode (c :: r) = c :: percent_decode r).
Proof.
  repeat split.
  - intros x fuel Hf. rewrite percent_decode_from.
    apply (decode_loop_from fuel [] x [] Hf).
  - intros h1 h2 v1 v2 r H1 H2. rewrite !percent_decode_from.
    apply denotes_hex_value in H1 as [X1 ->], H2 as [X2 ->].
    cbn [decode_from]. rewrite X1, X2. reflexivity.
  - intros c r E. rewrite !percent_decode_from, decode_from_step, E. reflexivity.
Qed.

Lemma percent_decode_lenient_witness :
  percent_decode (lit "%4a%4") = lit "J%4".
Proof.
  destruct percent_decode_lenient as (_ & E0 & Eesc & Ecopy).
  change (lit "%4a%4") with ("%"%char :: "4"%char :: "a"%char :: "%"%char :: ["4"%char]).
  rewrite (Eesc "4"%char "a"%char 4 10).
  - rewrite (Ecopy "%"%char) by reflexivity.
    rewrite (Ecopy "4"%char) by reflexivity.
    rewrite E0. reflexivity.
  - left. split; reflexivity.
  - right. right. split; reflexivity.
Defined.

(** C2, as amended: decoding the encoding of [x] gives [x] back exactly
    when [x] contains no percent sign followed by two hexadecimal digits. *)
Theorem decode_encode_roundtrip (x : str) :
  has_escape x = false <-> percent_decode (percent_encode x) = x.
Proof. symmetry. apply roundtrip_iff. Qed.

Lemma decode_encode_roundtrip_witness :
  percent_decode (percent_encode (lit "/a b%zz")) = lit "/a b%zz".
Proof.
  apply (proj1 (decode_encode_roundtrip (lit "/a b%zz"))). reflexivity.
Defined.

(** C2 fails as stated: the percent sign is on the allow-list, so a text
    that already holds an escape is encoded unchanged and then decoded. *)
Lemma decode_encode_not_identity :
  percent_decode (percent_encode (lit "%41")) <> lit "%41".
Proof. vm_compute. discriminate. Qed.

(** C6: [find_separator] returns the slash when the first slash is at or
    before the first backslash (also when neither occurs) and the
    backslash otherwise.  That one separator governs the whole compiled
    pattern: the encoded pattern is the text of a list of tokens, and the
    compiled pattern is the translation of these tokens between the
    anchors, in which every parameter without custom sub-pattern, inside
    or outside an optional group, excludes exactly that separator, and
    which ends with that separator made optional. *)
Theorem find_separator_spec (p : str) :
  Z.of_nat (length p) <= npos ->
  (slash_first p -> find_separator p = "/"%char) /\
  (~ slash_first p -> find_separator p = "\"%char) /\
  (forall keys0, exists body,
      fst (make_pattern_top p keys0)
      = ["^"%char] ++ body ++ [find_separator p] ++ lit "?$") /\
  (exists toks,
      percent_encode p = flat_map token_text toks /\
      forall keys0,
        make_pattern_top p keys0
        = (["^"%char]
             ++ optional_separator (find_separator p)
                  (flat_map (token_pattern (find_separator p)) toks)
             ++ lit "?$",
           keys0 ++ flat_map token_keys toks)).
Proof.
  intros Hlen. repeat split.
  - now apply find_separator_slash.
  - now apply find_separator_backslash.
  - intros keys0. apply make_pattern_top_shape.
  - apply make_pattern_top_tokenized.
Qed.

Lemma find_separator_spec_witness :
  find_separator (lit "C:\a/b") = "\"%char.
Proof.
  apply (find_separator_spec (lit "C:\a/b")).
  - vm_compute. discriminate.
  - intros Hs. destruct (Hs 2%nat eq_refl) as (i & Hi & E).
    destruct i as [|[|[|i]]]; try discriminate. lia.
Defined.

(** C1, as amended: the matcher that [match_] returns reports as its
    pattern the compiled low-level text, which starts with the begin anchor
    and ends with the separator, a question mark and the end anchor. *)
Theorem pattern_is_compiled_form `{RegexEngine} (p : str) (cs : case_sensitivity)
    (M : matcher) :
  match_ p cs = Some M ->
  matcher_pattern M = fst (make_pattern_top p []) /\
  exists body,
    matcher_pattern M = ["^"%char] ++ body ++ [find_separator p] ++ lit "?$".
Proof.
  intros E. apply match_inv in E as (E & _). unfold matcher_pattern. rewrite E.
  split; [reflexivity|]. apply make_pattern_top_shape.
Qed.

Lemma pattern_is_compiled_form_witness :
  option_map matcher_pattern (match_ (lit "/foo") case_sensitive)
  = Some (lit "^/foo\/?$").
Proof.
  destruct (match_ (lit "/foo") case_sensitive) as [M|] eqn:E.
  - cbn [option_map]. f_equal.
    rewrite (proj1 (pattern_is_compiled_form _ _ _ E)). vm_compute. reflexivity.
  - vm_compute in E. discriminate.
Defined.

(** C1 fails as stated: for the pattern /foo the accessor does not return
    /foo. *)
Lemma pattern_is_not_original :
  ~ (forall (p : str) (cs : case_sensitivity) (M : matcher),
        match_ p cs = Some M -> matcher_pattern M = p).
Proof.
  intros H.
  destruct (match_ (lit "/foo") case_sensitive) as [M|] eqn:E.
  - pose proof (H _ _ _ E) as HM.
    apply match_inv in E as (E & _). unfold matcher_pattern in HM.
    rewrite E in HM. vm_compute in HM. discriminate.
  - vm_compute in E. discriminate.
Qed.

(** C10: the matcher of the empty pattern matches the empty path and the
    path that is a single slash, with no parameters, and no other path. *)
Theorem empty_pattern_matches (cs : case_sensitivity) :
  exists M : matcher,
    match_ [] cs = Some M /\
    matcher_pattern M = lit "^\/?$" /\
    forall path,
      matcher_call M path
      = {| matched := bool_decide (path = [] \/ path = lit "/"); params := ∅ |}.
Proof.
  destruct (empty_pattern_compiles cs) as (re & E & Hast & _).
  eexists. split; [exact E|]. split; [reflexivity|].
  intros path.
  pose proof (trailing_only_match re (percent_encode path) Hast) as Hm.
  unfold matcher_call. cbn [m_regex m_keys regex_match ecma_engine].
  destruct (ecma.regex_match re (percent_encode path)) as [caps|].
  - rewrite bool_decide_eq_true_2; [reflexivity|].
    destruct (proj1 Hm (ltac:(eauto))) as [X|X].
    + left. now apply percent_encode_nil_inv.
    + right. now apply percent_encode_slash_inv.
  - rewrite bool_decide_eq_false_2; [reflexivity|].
    intros [->| ->]; (destruct (proj2 Hm) as [? ?]; [|discriminate]); auto.
Qed.

(** C3, as amended: when no required parameter of the pattern carries a
    custom sub-pattern, the pattern compiles and its compiled form has
    exactly as many capturing groups as the matcher has keys; and for every
    matcher, a successful match yields a mapping whose keys are exactly the
    names of the key list, each bound to the decoded capture of the last
    index that carries the name. *)
Theorem key_binding :
  (forall p cs,
      plain (percent_encode p) = true ->
      exists M : matcher,
        match_ p cs = Some M /\
        mark_count (m_regex M) = length (m_keys M)) /\
  (forall (E : RegexEngine) (M : matcher) path caps,
      regex_match (m_regex M) (percent_encode path) = Some caps ->
      matched (matcher_call M path) = true /\
      dom (params (matcher_call M path)) = list_to_set (m_keys M) /\
      forall i,
        (i < length (m_keys M))%nat ->
        (forall j, (i < j < length (m_keys M))%nat ->
                   nth j (m_keys M) [] <> nth i (m_keys M) []) ->
        params (matcher_call M path) !! nth i (m_keys M) []
        = Some (percent_decode (sub_str (smatch_at caps (i + 1))))).
Proof.
  split.
  - intros p cs Hp.
    destruct (match_plain p cs Hp) as (items & M & EM & _ & Hre & Hk).
    exists M. split; [exact EM|].
    cbn [mark_count ecma_engine]. rewrite Hre, Hk. reflexivity.
  - intros E M path caps Hm.
    rewrite (matcher_call_matched M path caps Hm). cbn [matched params].
    split; [reflexivity|]. split.
    + rewrite bind_all_dom by lia. now rewrite firstn_all.
    + intros i Hi Hlast. now apply bind_all_lookup.
Qed.

Lemma key_binding_witness :
  option_map (fun M : matcher => (mark_count (m_regex M), length (m_keys M)))
             (match_ (lit "/:foo{/:bar}/*baz") case_sensitive)
  = Some (3%nat, 3%nat).
Proof.
  destruct (proj1 key_binding (lit "/:foo{/:bar}/*baz") case_sensitive)
    as (M & EM & Hk); [vm_compute; reflexivity|].
  rewrite EM. cbn [option_map]. rewrite Hk.
  vm_compute in EM. injection EM as <-. reflexivity.
Defined.

(** C3 fails as stated: a custom sub-pattern that opens a non-capturing
    group gives a key without a capturing group. *)
Lemma custom_group_without_capture :
  ~ (forall p cs (M : matcher),
        match_ p cs = Some M -> mark_count (m_regex M) = length (m_keys M)).
Proof.
  intros H.
  destruct (match_ (lit "/:foo(?:a)") case_sensitive) as [M|] eqn:E.
  - specialize (H _ _ _ E). vm_compute in E. injection E as <-.
    vm_compute in H. discriminate.
  - vm_compute in E. discriminate.
Qed.

(** C4, as amended: when no required parameter of the pattern carries a
    custom sub-pattern, the pattern compiles, and every path that the
    matcher matches and that does not end with the separator is still
    matched with one separator appended. *)
Theorem trailing_separator_optional (p : str) (cs : case_sensitivity) :
  plain (percent_encode p) = true ->
  exists M : matcher,
    match_ p cs = Some M /\
    forall X,
      (forall X', X <> X' ++ [find_separator p]) ->
      matched (matcher_call M X) = true ->
      matched (matcher_call M (X ++ [find_separator p])) = true.
Proof.
  intros Hp. destruct (match_plain p cs Hp) as (items & M & EM & _).
  exists M. split; [exact EM|]. intros X.
  exact (trailing_separator_plain p cs M X Hp EM).
Qed.

Lemma trailing_separator_optional_witness :
  option_map (fun M : matcher => matched (matcher_call M (lit "/x/")))
             (match_ (lit "/:foo") case_sensitive)
  = Some true.
Proof.
  destruct (trailing_separator_optional (lit "/:foo") case_sensitive)
    as (M & EM & H); [vm_compute; reflexivity|].
  rewrite EM. cbn [option_map]. f_equal.
  apply (H (lit "/x")).
  - intros X' E. apply (f_equal (fun l => List.last l zero)) in E.
    rewrite last_last in E. vm_compute in E. discriminate.
  - vm_compute in EM. injection EM as <-. vm_compute. reflexivity.
Defined.

(** C4 fails as stated: the pattern /foo matches /foo/ and not /foo//. *)
Lemma trailing_separator_not_repeatable :
  ~ (forall p cs (M : matcher) X,
        match_ p cs = Some M ->
        (matched (matcher_call M X) = true
         <-> matched (matcher_call M (X ++ [find_separator p])) = true)).
Proof.
  intros H.
  destruct (match_ (lit "/foo") case_sensitive) as [M|] eqn:E.
  - specialize (H _ _ _ (lit "/foo/") E). vm_compute in E. injection E as <-.
    vm_compute in H. destruct H as [H _]. specialize (H eq_refl). discriminate.
  - vm_compute in E. discriminate.
Qed.

(** The converse fails too: /*foo matches // and not /. *)
Lemma trailing_separator_not_removable :
  ~ (forall p cs (M : matcher) X,
        match_ p cs = Some M ->
        matched (matcher_call M (X ++ [find_separator p])) = true ->
        matched (matcher_call M X) = true).
Proof.
  intros H.
  destruct (match_ (lit "/*foo") case_sensitive) as [M|] eqn:E.
  - specialize (H _ _ _ (lit "/") E). vm_compute in E. injection E as <-.
    vm_compute in H. specialize (H eq_refl). discriminate.
  - vm_compute in E. discriminate.
Qed.

(** The restriction to patterns without a custom sub-pattern is needed:
    the custom sub-pattern of a:foo($) is an end anchor, so that the pattern
    matches a and not a/ . *)
Lemma trailing_separator_needs_plain :
  ~ (forall p cs (M : matcher) X,
        match_ p cs = Some M ->
        (forall X', X <> X' ++ [find_separator p]) ->
        matched (matcher_call M X) = true ->
        matched (matcher_call M (X ++ [find_separator p])) = true).
Proof.
  intros H.
  destruct (match_ (lit "a:foo($)") case_sensitive) as [M|] eqn:E.
  - specialize (H _ _ _ (lit "a") E). vm_compute in E. injection E as <-.
    assert (N : forall X', lit "a" <> X' ++ [find_separator (lit "a:foo($)")]).
    { intros X' EX. apply (f_equal (fun l => List.last l zero)) in EX.
      rewrite last_last in EX. vm_compute in EX. discriminate. }
    specialize (H N). vm_compute in H. specialize (H eq_refl). discriminate.
  - vm_compute in E. discriminate.
Qed.

(** C9, as amended: a parameter whose capturing group did not take part in
    a successful match is bound to the empty string, unless a later key of
    the same name overwrites it; the matcher of {/:foo} matches the empty
    path with foo bound to the empty string and /x with foo bound to x. *)
Theorem optional_absent_binds_empty :
  (forall (E : RegexEngine) (M : matcher) path caps i,
      regex_match (m_regex M) (percent_encode path) = Some caps ->
      (i < length (m_keys M))%nat ->
      smatch_at caps (i + 1) = None ->
      (forall j, (i < j < length (m_keys M))%nat ->
                 nth j (m_keys M) [] <> nth i (m_keys M) []) ->
      matched (matcher_call M path) = true /\
      params (matcher_call M path) !! nth i (m_keys M) [] = Some []) /\
  option_map (fun M : matcher => matcher_call M [])
             (match_ (lit "{/:foo}") case_sensitive)
  = Some {| matched := true; params := {[ lit "foo" := [] ]} |} /\
  option_map (fun M : matcher => matcher_call M (lit "/x"))
             (match_ (lit "{/:foo}") case_sensitive)
  = Some {| matched := true; params := {[ lit "foo" := lit "x" ]} |}.
Proof.
  split; [|split; vm_compute; reflexivity].
  intros E M path caps i Hm Hi Hnone Hlast.
  rewrite (matcher_call_matched M path caps Hm). cbn [matched params].
  split; [reflexivity|].
  rewrite bind_all_lookup by assumption.
  unfold bound_value. rewrite Hnone. reflexivity.
Qed.

Lemma optional_absent_binds_empty_witness :
  option_map (fun M : matcher => params (matcher_call M (lit "/x")) !! lit "bar")
             (match_ (lit "/:foo{/:bar}") case_sensitive)
  = Some (Some []).
Proof.
  destruct (match_ (lit "/:foo{/:bar}") case_sensitive) as [M|] eqn:EM.
  - cbn [option_map]. f_equal.
    destruct (regex_match (m_regex M) (percent_encode (lit "/x"))) as [caps|] eqn:Ec.
    + assert (HM : m_keys M = [lit "foo"; lit "bar"])
        by (vm_compute in EM; injection EM as <-; reflexivity).
      change (lit "bar") with (nth 1 [lit "foo"; lit "bar"] []). rewrite <- HM.
      apply (proj1 optional_absent_binds_empty ecma_engine M (lit "/x") caps 1%nat Ec).
      * rewrite HM. cbn. lia.
      * vm_compute in EM. injection EM as <-. vm_compute in Ec.
        injection Ec as <-. reflexivity.
      * rewrite HM. cbn. lia.
    + vm_compute in EM. injection EM as <-. vm_compute in Ec. discriminate.
  - vm_compute in EM. discriminate.
Defined.

(** C9 fails as stated when the name is declared again outside the group:
    {/:foo}/:foo matches /y with the optional group absent and foo bound
    to y. *)
Lemma optional_absent_duplicate_name :
  option_map (fun M : matcher =>
                (smatch_at (default [] (regex_match (m_regex M)
                                          (percent_encode (lit "/y")))) 1,
                 matcher_call M (lit "/y")))
             (match_ (lit "{/:foo}/:foo") case_sensitive)
  = Some (None, {| matched := true; params := {[ lit "foo" := lit "y" ]} |}).
Proof. vm_compute. reflexivity. Qed.

(** ** Further properties of the code *)

Lemma encode_byte_passes c : forallb passes (encode_byte c) = true.
Proof.
  unfold encode_byte. destruct (passes c) eqn:E; cbn [forallb].
  - now rewrite E.
  - destruct (hex_digits_of_byte c) as (H1 & H2 & _).
    apply xdigit_passes in H1 as [-> _], H2 as [-> _]. reflexivity.
Qed.

Lemma percent_encode_passes s : forallb passes (percent_encode s) = true.
Proof.
  rewrite percent_encode_flat_map.
  induction s as [|c r IH]; [reflexivity|]. cbn [flat_map].
  rewrite forallb_app, encode_byte_passes, IH. reflexivity.
Qed.

Lemma percent_encode_fixed s : forallb passes s = true -> percent_encode s = s.
Proof.
  rewrite percent_encode_flat_map.
  induction s as [|c r IH]; [reflexivity|]. cbn [forallb flat_map].
  intros [Hc Hr]%andb_true_iff. unfold encode_byte at 1. rewrite Hc.
  cbn [app]. now rewrite IH.
Qed.

Lemma length_encode_byte_pos c : (1 <= length (encode_byte c))%nat.
Proof. unfold encode_byte. destruct (passes c); cbn [length]; lia. Qed.

Lemma percent_encode_twice s : percent_encode (percent_encode s) = percent_encode s.
Proof. apply percent_encode_fixed, percent_encode_passes. Qed.

Lemma decode_encode_decode_aux n :
  forall x, (length x <= n)%nat -> decode_from (percent_encode x) = decode_from x.
Proof.
  induction n as [|n IH]; intros x Hn.
  - destruct x; [reflexivity|cbn in Hn; lia].
  - destruct x as [|c r]; [reflexivity|].
    rewrite decode_encode_step, decode_from_step.
    destruct (escape_at_head (c :: r)) eqn:E.
    + f_equal. apply IH. rewrite length_skipn. cbn in Hn. lia.
    + f_equal. apply IH. cbn in Hn. lia.
Qed.

Lemma decode_encode_decode x :
  percent_decode (percent_encode x) = percent_decode x.
Proof.
  rewrite !percent_decode_from. exact (decode_encode_decode_aux (length x) x (le_n _)).
Qed.

Lemma length_percent_encode_ge x : (length x <= length (percent_encode x))%nat.
Proof.
  rewrite percent_encode_flat_map.
  induction x as [|c r IH]; [reflexivity|]. cbn [flat_map length].
  rewrite length_app. pose proof (length_encode_byte_pos c). lia.
Qed.

(** X1: the output of [percent_encode] holds only characters that are
    copied unchanged, it is never shorter than the input, and encoding it
    again changes nothing. *)
Theorem percent_encode_idempotent (x : str) :
  forallb (fun c => isalnum c || is_special c) (percent_encode x) = true /\
  (length x <= length (percent_encode x))%nat /\
  percent_encode (percent_encode x) = percent_encode x.
Proof.
  split; [exact (percent_encode_passes x)|].
  split; [apply length_percent_encode_ge|apply percent_encode_twice].
Qed.

(** X2: decoding an encoded text gives what decoding the text itself
    gives; the encoder only adds escapes, which the decoder undoes. *)
Theorem decode_after_encode (x : str) :
  percent_decode (percent_encode x) = percent_decode x.
Proof. apply decode_encode_decode. Qed.

(** X3: [percent_decode] never lengthens a text, and returns it unchanged
    exactly when it holds no percent sign followed by two hexadecimal
    digits. *)
Theorem percent_decode_identity (x : str) :
  (length (percent_decode x) <= length x)%nat /\
  (percent_decode x = x <-> has_escape x = false).
Proof.
  rewrite <- decode_encode_decode. split.
  - rewrite percent_decode_from.
    now destruct (decode_encode_length (length x) x (le_n _)).
  - apply roundtrip_iff.
Qed.

(** X4: on texts without an escape [percent_encode] is injective. *)
Theorem percent_encode_injective (x y : str) :
  has_escape x = false -> has_escape y = false ->
  percent_encode x = percent_encode y -> x = y.
Proof.
  intros Hx Hy E. apply roundtrip_iff in Hx, Hy. rewrite <- Hx, <- Hy. now rewrite E.
Qed.

Lemma percent_encode_injective_witness :
  percent_encode (lit "a b") <> percent_encode (lit "a+b").
Proof.
  intros E. apply percent_encode_injective in E; [discriminate E|reflexivity|reflexivity].
Defined.

Lemma find_from_ge c s :
  forall i, i + Z.of_nat (length s) <= npos -> i <= find_from c s i.
Proof.
  induction s as [|a r IH]; intros i Hi; cbn [find_from length] in *; [lia|].
  destruct (Ascii.eqb a c); [lia|].
  specialize (IH (i + 1)). lia.
Qed.

Lemma find_from_first_separator s :
  forall i, i + Z.of_nat (length s) <= npos ->
    (if find_from "/" s i <=? find_from "\" s i then "/"%char else "\"%char)
    = first_separator s.
Proof.
  induction s as [|c r IH]; intros i Hi; [reflexivity|].
  cbn [find_from first_separator]. cbn [length] in Hi.
  destruct (Ascii.eqb_spec c "/") as [->|N1].
  - change (Ascii.eqb "/" "\") with false. cbv iota.
    pose proof (find_from_ge "\" r (i + 1)).
    replace (i <=? find_from "\" r (i + 1)) with true; [reflexivity|].
    symmetry. apply Z.leb_le. lia.
  - destruct (Ascii.eqb_spec c "\") as [->|N2].
    + pose proof (find_from_ge "/" r (i + 1)).
      replace (find_from "/" r (i + 1) <=? i) with false; [reflexivity|].
      symmetry. apply Z.leb_gt. lia.
    + apply IH. lia.
Qed.

Lemma find_separator_first p :
  Z.of_nat (length p) <= npos -> find_separator p = first_separator p.
Proof. intros H. apply (find_from_first_separator p 0). lia. Qed.

Lemma first_separator_app_stop a b :
  forallb (fun c => negb (is_separator c)) a = true ->
  first_separator (a ++ b) = first_separator b.
Proof.
  induction a as [|c r IH]; [reflexivity|]. cbn [forallb app first_separator].
  intros [Hc Hr]%andb_true_iff. unfold is_separator in Hc.
  destruct (Ascii.eqb c "/"); [discriminate|].
  destruct (Ascii.eqb c "\"); [discriminate|]. now apply IH.
Qed.

Lemma encode_byte_separator c :
  (is_separator c = true /\ encode_byte c = [c]) \/
  forallb (fun a => negb (is_separator a)) (encode_byte c) = true.
Proof.
  destruct c as [[] [] [] [] [] [] [] []]; vm_compute; auto.
Qed.

Lemma first_separator_encode p :
  first_separator (percent_encode p) = first_separator p.
Proof.
  induction p as [|c r IH]; [reflexivity|].
  rewrite percent_encode_cons.
  destruct (encode_byte_separator c) as [[Hs ->]|Hn].
  - cbn [app first_separator]. now rewrite IH.
  - rewrite first_separator_app_stop by exact Hn. rewrite IH.
    cbn [first_separator].
    assert (Hc : is_separator c = false).
    { unfold encode_byte in Hn. destruct (passes c) eqn:Hp.
      - cbn in Hn. now destruct (is_separator c).
      - destruct c as [[] [] [] [] [] [] [] []]; try reflexivity;
          vm_compute in Hp; discriminate Hp. }
    unfold is_separator in Hc.
    destruct (Ascii.eqb c "/"); [discriminate|].
    now destruct (Ascii.eqb c "\").
Qed.

(** X5: a matcher gives the same result on a path and on its encoding. *)
Theorem encoded_path_same_result `{RegexEngine} (M : matcher) (path : str) :
  matcher_call M (percent_encode path) = matcher_call M path.
Proof. unfold matcher_call. now rewrite percent_encode_twice. Qed.

(** X6: a pattern and its encoding have the same separator, the same
    compiled pattern and keys, and the same matcher. *)
Theorem encoded_pattern_same_matcher `{RegexEngine} (p : str) (cs : case_sensitivity) :
  Z.of_nat (length (percent_encode p)) <= npos ->
  find_separator (percent_encode p) = find_separator p /\
  make_pattern_top (percent_encode p) [] = make_pattern_top p [] /\
  match_ (percent_encode p) cs = match_ p cs.
Proof.
  intros Hlen.
  assert (Hp : Z.of_nat (length p) <= npos).
  { pose proof (length_percent_encode_ge p). lia. }
  assert (Hs : find_separator (percent_encode p) = find_separator p).
  { rewrite !find_separator_first by assumption. apply first_separator_encode. }
  assert (Ht : make_pattern_top (percent_encode p) [] = make_pattern_top p []).
  { unfold make_pattern_top. now rewrite percent_encode_twice, Hs. }
  split; [exact Hs|]. split; [exact Ht|].
  unfold match_. now rewrite Ht.
Qed.

Lemma encoded_pattern_same_matcher_witness :
  match_ (lit "/a b/:x") case_sensitive = match_ (lit "/a%20b/:x") case_sensitive.
Proof.
  symmetry.
  apply (encoded_pattern_same_matcher (lit "/a b/:x") case_sensitive).
  vm_compute. discriminate.
Defined.

Lemma static_position pos m :
  sub_matched (special_chars_key (at_position pos m))
  = sub_matched (special_chars_key m).
Proof. reflexivity. Qed.

Lemma scan_static self sep s :
  static s = true ->
  forall pat keys0,
    scan self sep s 0 pat keys0 = (pat ++ flat_map escape_char s, keys0).
Proof.
  induction s as [|c r IH]; intros Hs pat keys0.
  - cbn. now rewrite app_nil_r.
  - pose proof (rx_at_kind (c :: r)) as K.
    destruct (rx_at 0 (c :: r)) as [m|] eqn:E.
    + unfold static in Hs.
      rewrite (forallb_sregex_match _ _ m static_position E) in Hs.
      apply andb_true_iff in Hs as [Hm Hr].
      rewrite (scan_match _ _ _ m _ _ E).
      inversion K as [| | | | |c' r' Ec Hc]; subst; try discriminate Hm.
      injection Ec as <- <-.
      cbn [mk_rx_match length_ skipn emit optional_param_key required_param_key
           wildcard_param_key special_chars_key sub_matched sub_str default fst snd].
      unfold id. rewrite (IH Hr). cbn [flat_map]. unfold escape_char at 2.
      rewrite Hc. now rewrite <- app_assoc.
    + unfold static in Hs.
      rewrite (forallb_sregex_literal _ _ _ static_position E) in Hs.
      rewrite (scan_literal _ _ _ _ _ _ E), (IH Hs).
      inversion K as [|c' r' Ec Hc| | | |]; subst; [discriminate|].
      injection Ec as <- <-. cbn [flat_map]. unfold escape_char at 2.
      rewrite Hc. now rewrite <- app_assoc.
Qed.

Lemma make_pattern_scan_static s keys0 sep :
  static s = true ->
  make_pattern s keys0 sep = (flat_map escape_char s, keys0).
Proof.
  intros Hs. unfold make_pattern. cbn [make_pattern_rec].
  rewrite make_pattern_body_scan. exact (scan_static _ sep s Hs [] keys0).
Qed.

(** X7: a pattern in which the tokenizer finds no parameter and no
    optional group compiles to itself, with a backslash before every
    character that is special in a regular expression; the keys are left as
    they were. *)
Theorem make_pattern_static (s : str) (keys0 : list str) (sep : ascii) :
  static s = true ->
  make_pattern s keys0 sep = (flat_map escape_char s, keys0).
Proof. apply make_pattern_scan_static. Qed.

Lemma make_pattern_static_witness :
  make_pattern (lit "C:\a.b(1)/*") [] "\" = (lit "C:\\a\.b\(1\)/\*", []).
Proof.
  apply (make_pattern_static (lit "C:\a.b(1)/*")). vm_compute. reflexivity.
Defined.

Section ScanKeys.

Variable self : str -> list str -> ascii -> str * list str.
Variable sep : ascii.
Hypothesis self_appends : forall inner keys0,
  self inner keys0 sep
  = (fst (self inner [] sep), keys0 ++ snd (self inner [] sep)).

Lemma emit_appends m keys0 :
  emit self sep m keys0
  = (fst (emit self sep m []), keys0 ++ snd (emit self sep m [])).
Proof.
  unfold emit. destruct (sub_matched (optional_param_key m)).
  { rewrite (self_appends _ keys0).
    destruct (self (sub_str (optional_param_key m)) [] sep) as [sub ks].
    cbn [fst snd]. destruct sub; reflexivity. }
  destruct (sub_matched (required_param_key m)).
  { destruct (sub_str (required_param_pattern m)); reflexivity. }
  destruct (sub_matched (wildcard_param_key m)); [reflexivity|].
  destruct (sub_matched (special_chars_key m)); cbn [fst snd];
    now rewrite app_nil_r.
Qed.

Lemma scan_appends s :
  forall skip pat keys0,
    scan self sep s skip pat keys0
    = (pat ++ fst (scan self sep s skip [] []),
       keys0 ++ snd (scan self sep s skip [] [])).
Proof.
  induction s as [|c r IH]; intros skip pat keys0.
  - cbn. now rewrite !app_nil_r.
  - cbn [scan]. destruct skip as [|k]; [|apply IH].
    destruct (rx_at 0 (c :: r)) as [m|].
    + rewrite (emit_appends m keys0). cbn [fst snd app].
      rewrite (IH _ (pat ++ _) (keys0 ++ _)).
      rewrite (IH _ (fst (emit self sep m [])) (snd (emit self sep m []))).
      cbn [fst snd]. now rewrite <- !app_assoc.
    + rewrite (IH _ (pat ++ [c]) keys0), (IH _ ([] ++ [c]) []).
      cbn [fst snd app]. now rewrite <- app_assoc.
Qed.

End ScanKeys.

Lemma make_pattern_rec_appends sep d :
  forall path keys0,
    make_pattern_rec d path keys0 sep
    = (fst (make_pattern_rec d path [] sep),
       keys0 ++ snd (make_pattern_rec d path [] sep)).
Proof.
  induction d as [|d IH]; intros path keys0.
  - cbn. now rewrite app_nil_r.
  - cbn [make_pattern_rec]. rewrite !make_pattern_body_scan.
    rewrite (scan_appends _ sep IH path 0 [] keys0). reflexivity.
Qed.

Lemma percent_decode_nonempty s : nonempty s = true -> nonempty (percent_decode s) = true.
Proof.
  destruct s as [|c r]; [discriminate|]. intros _.
  rewrite percent_decode_from, decode_from_step.
  now destruct (escape_at_head (c :: r)).
Qed.

Section ScanKeyNames.

Variable self : str -> list str -> ascii -> str * list str.
Variable sep : ascii.
Hypothesis self_names : forall inner keys0,
  forallb nonempty keys0 = true ->
  forallb nonempty (snd (self inner keys0 sep)) = true.

Lemma emit_names s m keys0 :
  rx_kind s (Some m) ->
  forallb nonempty keys0 = true ->
  forallb nonempty (snd (emit self sep m keys0)) = true.
Proof.
  intros K Hk. inversion K; subst;
    cbn [emit mk_rx_match optional_param_key required_param_key
         required_param_pattern wildcard_param_key special_chars_key
         sub_matched sub_str default]; unfold id.
  - pose proof (self_names inner keys0 Hk) as Hs.
    destruct (self inner keys0 sep) as [sub ks]. cbn [snd] in Hs.
    destruct sub; exact Hs.
  - assert (Hd : nonempty (percent_decode key) = true).
    { apply percent_decode_nonempty. now destruct key. }
    destruct custom as [[|? ?]|]; cbn [sub_str default snd]; unfold id;
      rewrite forallb_app, Hk; cbn [forallb]; now rewrite Hd.
  - assert (Hd : nonempty (percent_decode key) = true).
    { apply percent_decode_nonempty. now destruct key. }
    cbn [snd]. rewrite forallb_app, Hk. cbn [forallb]. now rewrite Hd.
  - exact Hk.
Qed.

Lemma scan_names s :
  forall skip pat keys0,
    forallb nonempty keys0 = true ->
    forallb nonempty (snd (scan self sep s skip pat keys0)) = true.
Proof.
  induction s as [|c r IH]; intros skip pat keys0 Hk; [exact Hk|].
  cbn [scan]. destruct skip as [|k]; [|now apply IH].
  pose proof (rx_at_kind (c :: r)) as K.
  destruct (rx_at 0 (c :: r)) as [m|]; [|now apply IH].
  apply IH. now apply (emit_names (c :: r)).
Qed.

End ScanKeyNames.

Lemma make_pattern_rec_names sep d :
  forall path keys0,
    forallb nonempty keys0 = true ->
    forallb nonempty (snd (make_pattern_rec d path keys0 sep)) = true.
Proof.
  induction d as [|d IH]; intros path keys0 Hk; [exact Hk|].
  cbn [make_pattern_rec]. rewrite make_pattern_body_scan.
  now apply scan_names.
Qed.

(** X8: [make_pattern] only appends to the keys it is given, the pattern
    and the keys it appends do not depend on them, and no key it appends is
    empty. *)
Theorem make_pattern_keys (path : str) (keys0 : list str) (sep : ascii) :
  make_pattern path keys0 sep
  = (fst (make_pattern path [] sep), keys0 ++ snd (make_pattern path [] sep)) /\
  forallb nonempty (snd (make_pattern path [] sep)) = true.
Proof.
  split.
  - apply make_pattern_rec_appends.
  - now apply make_pattern_rec_names.
Qed.

(** X9: the recursion of [make_pattern] into optional groups is one level
    deep at most: the inside of a group holds no closing brace, so no
    group is found there, and any depth from two on gives the result. *)
Theorem make_pattern_depth (d : nat) (path : str) (keys0 : list str) (sep : ascii) :
  (2 <= d)%nat ->
  make_pattern_rec d path keys0 sep = make_pattern path keys0 sep.
Proof.
  intros Hd. unfold make_pattern.
  destruct d as [|[|d]]; [lia|lia|]. cbn [make_pattern_rec].
  rewrite !make_pattern_body_scan.
  destruct path as [|c r]; [reflexivity|]. cbn [length make_pattern_rec].
  apply scan_self_ext. intros inner keys1 Hb.
  rewrite !make_pattern_body_scan. now apply scan_no_brace.
Qed.

Lemma make_pattern_depth_witness :
  make_pattern_rec 2 (lit "/a{/:b{c}d}") [] "/"
  = make_pattern (lit "/a{/:b{c}d}") [] "/".
Proof. apply make_pattern_depth. lia. Defined.

Lemma repeats_chars (L : str -> Prop) (p : ascii -> bool) mn w :
  (forall u, L u <-> exists a, u = [a] /\ p a = true) ->
  repeats L mn None w <-> (mn <= length w)%nat /\ forallb p w = true.
Proof.
  intros HL. split.
  - intros (ws & -> & Hws & Hmn & _). revert mn Hmn.
    induction Hws as [|u ws Hu Hws IH]; intros mn Hmn.
    + cbn in *. split; [lia|reflexivity].
    + apply HL in Hu as (a & -> & Ha).
      cbn [concat app length forallb] in *. rewrite Ha.
      destruct (IH (Nat.pred mn)) as [H1 H2]; [lia|]. split; [lia|exact H2].
  - intros [Hmn Hp]. exists (map (fun a => [a]) w). repeat split.
    + clear Hmn Hp. induction w as [|a w IH]; [reflexivity|]. cbn. now rewrite <- IH.
    + clear Hmn. induction w as [|a w IH]; [constructor|].
      cbn [forallb] in Hp. apply andb_true_iff in Hp as [Ha Hw].
      constructor; [apply HL; now exists a|now apply IH].
    + now rewrite length_map.
Qed.

Lemma repeats_optional (L : str -> Prop) w :
  repeats L 0 (Some 1%nat) w <-> w = [] \/ L w.
Proof.
  split.
  - intros (ws & -> & Hws & _ & Hmax). cbn in Hmax.
    destruct ws as [|u [|v ws]]; [now left| |cbn in Hmax; lia].
    right. cbn. rewrite app_nil_r. now inversion Hws.
  - intros [-> | H].
    + exists []. repeat split; cbn; auto.
    + exists [w]. cbn. rewrite app_nil_r. repeat split; auto.
Qed.

Lemma nonempty_length (w : str) : (1 <= length w)%nat <-> w <> [].
Proof. destruct w; cbn; split; intros; try lia; congruence. Qed.

Lemma lang_atom_term ic sep n a w :
  is_separator sep = true ->
  lang ic (atom_term sep n a) w <-> atom_lang ic sep a w.
Proof.
  intros Hs. destruct a; cbn [atom_term atom_lang lang]; try reflexivity.
  - pose proof (repeats_chars (lang ic (ecma.Class true [ecma.CChar sep]))
                  (not_char sep) 1 w) as R.
    rewrite <- nonempty_length, <- R.
    + split.
      * intros (w1 & w2 & -> & H1 & ->). now rewrite app_nil_r.
      * intros H. exists w, []. now rewrite app_nil_r.
    + intros u. cbn [lang existsb ecma.class_item_matches]. unfold not_char.
      setoid_rewrite orb_false_r.
      setoid_rewrite (Ascii.eqb_sym (ecma.canonicalize ic sep)).
      setoid_rewrite (canonicalize_separator ic sep _ Hs).
      reflexivity.
  - pose proof (repeats_chars (lang ic (ecma.Class false [ecma.CSpace true]))
                  (fun x => negb (ecma.is_space x)) 1 w) as R.
    rewrite <- nonempty_length, <- R.
    + split.
      * intros (w1 & w2 & -> & H1 & ->). now rewrite app_nil_r.
      * intros H. exists w, []. now rewrite app_nil_r.
    + intros u. cbn [lang existsb ecma.class_item_matches xorb].
      setoid_rewrite orb_false_r. reflexivity.
Qed.

Lemma lang_atoms_terms ic sep atoms :
  is_separator sep = true ->
  forall n w,
    lang ic (seq_of (atoms_terms sep n atoms)) w <-> atoms_lang ic sep atoms w.
Proof.
  intros Hs. induction atoms as [|a r IH]; intros n w; [reflexivity|].
  cbn [atoms_terms seq_of fold_right lang atoms_lang].
  split; intros (w1 & w2 & -> & H1 & H2); exists w1, w2; repeat split; auto.
  - now apply (lang_atom_term ic sep n a w1 Hs).
  - now apply IH in H2.
  - now apply (lang_atom_term ic sep n a w1 Hs).
  - now apply IH.
Qed.

Lemma lang_item_term ic sep n i w :
  is_separator sep = true ->
  lang ic (item_term sep n i) w <-> item_lang ic sep i w.
Proof.
  intros Hs. destruct i as [a|inner]; cbn [item_term item_lang].
  - now apply lang_atom_term.
  - cbn [lang]. rewrite repeats_optional.
    now rewrite (lang_atoms_terms ic sep inner Hs n w).
Qed.

Lemma lang_items_terms ic sep items :
  is_separator sep = true ->
  forall n w,
    lang ic (seq_of (items_terms sep n items)) w <-> items_lang ic sep items w.
Proof.
  intros Hs. induction items as [|i r IH]; intros n w; [reflexivity|].
  cbn [items_terms seq_of fold_right lang items_lang].
  split; intros (w1 & w2 & -> & H1 & H2); exists w1, w2; repeat split; auto.
  - now apply (lang_item_term ic sep n i w1 Hs).
  - now apply IH in H2.
  - now apply (lang_item_term ic sep n i w1 Hs).
  - now apply IH.
Qed.

Lemma match_plain_items p :
  plain (percent_encode p) = true ->
  exists items sepatom,
    forallb item_ok items = true /\
    (sepatom = [find_separator p] \/ sepatom = ["\"%char; find_separator p]) /\
    forall cs, exists M : matcher,
      match_ p cs = Some M /\
      m_pattern M
      = ["^"%char] ++ render (find_separator p) items ++ sepatom ++ lit "?$" /\
      m_regex M = plain_regex (find_separator p) items (icase (make_regex_flags cs)) /\
      length (m_keys M) = items_groups items.
Proof.
  intros Hp.
  destruct (make_pattern_top_plain p [] Hp) as (items & sepatom & ks & E & Ho & Hsep & Hk).
  exists items, sepatom. split; [exact Ho|]. split.
  { destruct Hsep as [[Hf ->]| ->]; [left; now rewrite Hf|right; reflexivity]. }
  intros cs. unfold match_, matcher_new. rewrite E.
  cbn [regex_new ecma_engine].
  rewrite (compile_plain (find_separator p) items sepatom)
    by (assumption || apply find_separator_is_separator).
  eexists. split; [reflexivity|]. cbn [m_pattern m_regex m_keys app]. auto.
Qed.

(** X10: a pattern without custom sub-patterns compiles, for both case
    settings, to the rendering of a list of items between the anchors, the
    separator made optional before the end; its matcher accepts a path
    exactly when the encoded path is a text of these items, possibly
    followed by one separator. *)
Theorem plain_pattern_semantics (p : str) :
  plain (percent_encode p) = true ->
  exists items sepatom,
    forallb item_ok items = true /\
    (sepatom = [find_separator p] \/ sepatom = ["\"%char; find_separator p]) /\
    forall cs, exists M : matcher,
      match_ p cs = Some M /\
      matcher_pattern M
      = ["^"%char] ++ render (find_separator p) items ++ sepatom ++ lit "?$" /\
      forall X,
        matched (matcher_call M X) = true
        <-> exists w1 w2,
              percent_encode X = w1 ++ w2 /\
              items_lang (icase (make_regex_flags cs)) (find_separator p) items w1 /\
              (w2 = [] \/ w2 = [find_separator p]).
Proof.
  intros Hp.
  destruct (match_plain_items p Hp) as (items & sepatom & Ho & Hsep & H).
  exists items, sepatom. split; [exact Ho|]. split; [exact Hsep|].
  intros cs. destruct (H cs) as (M & EM & Epat & Ere & _).
  exists M. split; [exact EM|]. split; [exact Epat|].
  intros X. rewrite matched_iff. cbn [regex_match ecma_engine]. rewrite Ere.
  pose proof (find_separator_is_separator p) as Hs.
  rewrite (regex_match_plain _ items _ _ Hs).
  split; intros (w1 & w2 & E & H1 & H2); exists w1, w2; repeat split; auto;
    now apply (lang_items_terms _ _ items Hs 0%nat w1).
Qed.

Lemma plain_pattern_semantics_witness :
  exists items sepatom,
    forallb item_ok items = true /\
    (sepatom = ["/"%char] \/ sepatom = ["\"%char; "/"%char]) /\
    forall cs, exists M : matcher,
      match_ (lit "/:foo{.:ext}") cs = Some M /\
      matcher_pattern M = ["^"%char] ++ render "/" items ++ sepatom ++ lit "?$" /\
      forall X,
        matched (matcher_call M X) = true
        <-> exists w1 w2,
              percent_encode X = w1 ++ w2 /\
              items_lang (icase (make_regex_flags cs)) "/" items w1 /\
              (w2 = [] \/ w2 = ["/"%char]).
Proof.
  apply (plain_pattern_semantics (lit "/:foo{.:ext}")). vm_compute. reflexivity.
Defined.

Lemma same_char_icase a b : same_char false a b = true -> same_char true a b = true.
Proof.
  unfold same_char. cbn [ecma.canonicalize andb].
  intros ->%Ascii.eqb_eq. apply Ascii.eqb_refl.
Qed.

Lemma atom_lang_icase sep a w : atom_lang false sep a w -> atom_lang true sep a w.
Proof.
  destruct a; cbn [atom_lang]; auto;
    intros (x & -> & Hx); exists x; split; auto using same_char_icase.
Qed.

Lemma atoms_lang_icase sep atoms :
  forall w, atoms_lang false sep atoms w -> atoms_lang true sep atoms w.
Proof.
  induction atoms as [|a r IH]; intros w; [auto|]. cbn [atoms_lang].
  intros (w1 & w2 & -> & H1 & H2). exists w1, w2.
  repeat split; auto using atom_lang_icase.
Qed.

Lemma items_lang_icase sep items :
  forall w, items_lang false sep items w -> items_lang true sep items w.
Proof.
  induction items as [|i r IH]; intros w; [auto|]. cbn [items_lang].
  intros (w1 & w2 & -> & H1 & H2). exists w1, w2. repeat split; auto.
  destruct i as [a|inner]; cbn [item_lang] in *.
  - now apply atom_lang_icase.
  - destruct H1 as [-> | H1]; [now left|right; now apply atoms_lang_icase].
Qed.

(** X11: for a pattern without custom sub-patterns, a path that the
    case-sensitive matcher accepts is accepted by the case-insensitive
    one. *)
Theorem case_insensitive_matches_more (p : str) (M1 M2 : matcher) (X : str) :
  plain (percent_encode p) = true ->
  match_ p case_sensitive = Some M1 ->
  match_ p case_insensitive = Some M2 ->
  matched (matcher_call M1 X) = true ->
  matched (matcher_call M2 X) = true.
Proof.
  intros Hp E1 E2 Hm.
  destruct (match_plain_items p Hp) as (items & sepatom & _ & _ & H).
  destruct (H case_sensitive) as (M1' & E1' & _ & R1 & _).
  destruct (H case_insensitive) as (M2' & E2' & _ & R2 & _).
  rewrite E1 in E1'. injection E1' as <-. rewrite E2 in E2'. injection E2' as <-.
  pose proof (find_separator_is_separator p) as Hs.
  apply matched_iff in Hm. apply matched_iff.
  cbn [regex_match ecma_engine] in *. rewrite R1 in Hm. rewrite R2.
  apply (regex_match_plain _ items _ _ Hs) in Hm as (w1 & w2 & E & H1 & H2).
  apply (regex_match_plain _ items _ _ Hs). exists w1, w2. repeat split; auto.
  apply (lang_items_terms _ _ items Hs 0%nat w1).
  apply (lang_items_terms _ _ items Hs 0%nat w1) in H1.
  now apply items_lang_icase.
Qed.

Lemma case_insensitive_matches_more_witness :
  option_map (fun M : matcher => matched (matcher_call M (lit "/Foo/7")))
             (match_ (lit "/Foo/:id") case_insensitive)
  = Some true.
Proof.
  destruct (match_ (lit "/Foo/:id") case_sensitive) as [M1|] eqn:E1.
  - destruct (match_ (lit "/Foo/:id") case_insensitive) as [M2|] eqn:E2.
    + cbn [option_map]. f_equal.
      assert (Hp : plain (percent_encode (lit "/Foo/:id")) = true)
        by (vm_compute; reflexivity).
      apply (case_insensitive_matches_more (lit "/Foo/:id") M1 M2 (lit "/Foo/7")
               Hp E1 E2).
      clear E2 Hp. vm_compute in E1. injection E1 as <-. vm_compute. reflexivity.
    + vm_compute in E2. discriminate.
  - vm_compute in E1. discriminate.
Defined.

Lemma render_items_static sep s : render sep (items_static s) = flat_map escape_char s.
Proof.
  induction s as [|c r IH]; [reflexivity|].
  cbn [items_static map]. rewrite render_cons. fold (items_static r). rewrite IH.
  cbn [flat_map render_item]. unfold escape_char.
  destruct (is_rx_special c); reflexivity.
Qed.

Lemma items_static_ok s : forallb item_ok (items_static s) = true.
Proof.
  induction s as [|c r IH]; [reflexivity|]. cbn [items_static map forallb].
  fold (items_static r). rewrite IH, andb_true_r.
  destruct (is_rx_special c) eqn:E; cbn [item_ok atom_ok]; now rewrite E.
Qed.

Lemma items_lang_static ic sep s :
  forall w,
    items_lang ic sep (items_static s) w
    <-> map (ecma.canonicalize ic) w = map (ecma.canonicalize ic) s.
Proof.
  induction s as [|c r IH]; intros w.
  - cbn. split; [now intros ->|]. now destruct w.
  - cbn [items_static map items_lang item_lang]. fold (items_static r). split.
    + intros (w1 & w2 & -> & H1 & H2). apply IH in H2.
      assert (H : exists x, w1 = [x] /\ same_char ic x c = true)
        by (destruct (is_rx_special c); exact H1).
      destruct H as (x & -> & Hx). cbn [app map]. rewrite H2. f_equal.
      now apply Ascii.eqb_eq.
    + destruct w as [|x w]; [discriminate|]. cbn [map]. intros [= Hx Hw].
      exists [x], w. repeat split; [|now apply IH].
      assert (H : exists y, [x] = [y] /\ same_char ic y c = true).
      { exists x. split; [reflexivity|]. unfold same_char. rewrite Hx.
        apply Ascii.eqb_refl. }
      destruct (is_rx_special c); exact H.
Qed.

Lemma last_flat_map_escape s c :
  List.last (flat_map escape_char (s ++ [c])) zero = c.
Proof.
  rewrite flat_map_app. cbn [flat_map]. rewrite app_nil_r.
  unfold escape_char at 2. destruct (is_rx_special c).
  - change (["\"%char; c]) with (["\"%char] ++ [c]). rewrite app_assoc. apply last_last.
  - apply last_last.
Qed.

Lemma make_pattern_top_static p :
  static (percent_encode p) = true ->
  exists sepatom,
    make_pattern_top p []
    = (["^"%char]
         ++ render (find_separator p)
              (items_static (strip_separator (find_separator p) (percent_encode p)))
         ++ sepatom ++ lit "?$", []) /\
    ((find_separator p = "/"%char /\ sepatom = ["/"%char])
     \/ sepatom = ["\"%char; find_separator p]).
Proof.
  intros Hs. unfold make_pattern_top.
  rewrite (make_pattern_scan_static _ _ _ Hs).
  set (sep := find_separator p). set (s := percent_encode p).
  unfold strip_separator.
  destruct (rev s) as [|c r'] eqn:Er.
  - apply (f_equal (@rev _)) in Er. rewrite rev_involutive in Er. cbn in Er.
    rewrite Er. cbn [flat_map]. exists ["\"%char; sep]. split; [reflexivity|now right].
  - apply (f_equal (@rev _)) in Er. rewrite rev_involutive in Er. cbn [rev] in Er.
    rewrite Er.
    assert (Hne : flat_map escape_char (rev r' ++ [c]) <> []).
    { rewrite flat_map_app. cbn. unfold escape_char at 2.
      destruct (is_rx_special c); now destruct (flat_map escape_char (rev r')). }
    destruct (flat_map escape_char (rev r' ++ [c])) as [|x l] eqn:Ef; [congruence|].
    rewrite <- Ef, last_flat_map_escape.
    destruct (Ascii.eqb_spec c sep) as [->|N].
    + cbn [negb]. rewrite render_items_static, flat_map_app. cbn [flat_map].
      rewrite app_nil_r.
      destruct (find_separator_cases p) as [E|E]; fold sep in E; rewrite E.
      * exists ["/"%char]. split; [|left; auto].
        unfold escape_char at 2. cbn. now rewrite <- !app_assoc.
      * exists ["\"%char; "\"%char]. split; [|right; auto].
        unfold escape_char at 2. cbn. now rewrite <- !app_assoc.
    + cbn [negb]. rewrite <- Er. rewrite render_items_static.
      exists ["\"%char; sep]. split; [|now right]. now rewrite <- !app_assoc.
Qed.

Lemma fold_case_separator cs sep w s :
  is_separator sep = true ->
  fold_case cs w = fold_case cs (s ++ [sep])
  <-> exists w1, w = w1 ++ [sep] /\ fold_case cs w1 = fold_case cs s.
Proof.
  intros Hs. unfold fold_case. split.
  - intros E. destruct (rev w) as [|x r] eqn:Er.
    + apply (f_equal (@rev _)) in Er. rewrite rev_involutive in Er. subst w.
      rewrite map_app in E. cbn in E. now destruct (map _ s).
    + apply (f_equal (@rev _)) in Er. rewrite rev_involutive in Er. cbn in Er.
      subst w. rewrite !map_app in E. cbn [map] in E.
      apply app_inj_tail in E as [E1 E2].
      exists (rev r). split; [|exact E1]. f_equal. f_equal.
      apply Ascii.eqb_eq.
      rewrite <- (canonicalize_separator (icase (make_regex_flags cs)) sep x Hs).
      rewrite E2. apply Ascii.eqb_refl.
  - intros (w1 & -> & E). rewrite !map_app. now rewrite E.
Qed.

(** X12: the matcher of a pattern without parameters and optional groups
    binds no parameter, and accepts a path exactly when the encoded path is,
    up to case for a case-insensitive matcher, the encoded pattern without
    its trailing separator, possibly followed by one separator. *)
Theorem static_pattern_matches (p : str) (cs : case_sensitivity) :
  static (percent_encode p) = true ->
  exists M : matcher,
    match_ p cs = Some M /\
    forall X,
      params (matcher_call M X) = ∅ /\
      (matched (matcher_call M X) = true
       <-> fold_case cs (percent_encode X)
           = fold_case cs (strip_separator (find_separator p) (percent_encode p))
        \/ fold_case cs (percent_encode X)
           = fold_case cs (strip_separator (find_separator p) (percent_encode p)
                           ++ [find_separator p])).
Proof.
  intros Hst.
  destruct (make_pattern_top_static p Hst) as (sepatom & E & Hsep).
  pose proof (find_separator_is_separator p) as Hs.
  set (sep := find_separator p) in *.
  set (base := strip_separator sep (percent_encode p)) in *.
  unfold match_, matcher_new. rewrite E. cbn [regex_new ecma_engine].
  rewrite (compile_plain sep (items_static base) sepatom)
    by (assumption || apply items_static_ok).
  eexists. split; [reflexivity|]. intros X. split.
  - unfold matcher_call. cbn [m_regex m_keys length seq fold_left].
    now destruct (regex_match _ _).
  - rewrite matched_iff. cbn [m_regex regex_match ecma_engine].
    rewrite (regex_match_plain _ _ _ _ Hs).
    rewrite (fold_case_separator cs sep _ base Hs). unfold fold_case. split.
    + intros (w1 & w2 & EX & H1 & H2).
      apply (lang_items_terms _ _ _ Hs 0%nat w1) in H1.
      apply items_lang_static in H1.
      destruct H2 as [-> | ->].
      * left. rewrite app_nil_r in EX. now rewrite EX.
      * right. now exists w1.
    + intros [EX|(w1 & EX & E1)].
      * exists (percent_encode X), []. rewrite app_nil_r. repeat split; auto.
        apply (lang_items_terms _ _ _ Hs 0%nat). now apply items_lang_static.
      * exists w1, [sep]. repeat split; auto.
        apply (lang_items_terms _ _ _ Hs 0%nat). now apply items_lang_static.
Qed.

Lemma static_pattern_matches_witness :
  option_map (fun M : matcher => matched (matcher_call M (lit "/A b/c/")))
             (match_ (lit "/a b/C/") case_insensitive)
  = Some true.
Proof.
  destruct (static_pattern_matches (lit "/a b/C/") case_insensitive)
    as (M & EM & H); [vm_compute; reflexivity|].
  rewrite EM. cbn [option_map]. f_equal.
  apply (H (lit "/A b/c/")). right. vm_compute. reflexivity.
Defined.

Lemma rx_at_literal c r :
  existsb (Ascii.eqb c) (lit ":*{") = false ->
  rx_at 0 (c :: r)
  = if is_rx_special c
    then Some (mk_rx_match 1 None None None None (Some [c]))
    else None.
Proof.
  cbn [existsb lit]. intros H.
  apply orb_false_iff in H as [H1 H]. apply orb_false_iff in H as [H2 H].
  apply orb_false_iff in H as [H3 _].
  unfold rx_at. cbn in H1, H2, H3. now rewrite H3, H1, H2.
Qed.

Lemma scan_literal_prefix self sep a :
  literal a = true ->
  forall rest pat keys0,
    scan self sep (a ++ rest) 0 pat keys0
    = scan self sep rest 0 (pat ++ flat_map escape_char a) keys0.
Proof.
  induction a as [|c a IH]; intros Ha rest pat keys0.
  - cbn. now rewrite app_nil_r.
  - cbn [literal forallb] in Ha. apply andb_true_iff in Ha as [Hc Ha].
    apply negb_true_iff in Hc. pose proof (rx_at_literal c (a ++ rest) Hc) as E.
    cbn [app flat_map]. unfold escape_char at 1.
    destruct (is_rx_special c).
    + rewrite (scan_match _ _ _ _ _ _ E).
      cbn [mk_rx_match length_ emit optional_param_key required_param_key
           wildcard_param_key special_chars_key sub_matched sub_str default fst snd].
      change (skipn 1 (c :: a ++ rest)) with (a ++ rest).
      unfold id. rewrite (IH Ha). now rewrite <- app_assoc.
    + rewrite (scan_literal _ _ _ _ _ _ E), (IH Ha). now rewrite <- app_assoc.
Qed.

Lemma scan_literal_all self sep b pat keys0 :
  literal b = true ->
  scan self sep b 0 pat keys0 = (pat ++ flat_map escape_char b, keys0).
Proof.
  intros Hb. pose proof (scan_literal_prefix self sep b Hb [] pat keys0) as H.
  now rewrite app_nil_r in H.
Qed.

Lemma take_while_app_stop p (k b : str) :
  forallb p k = true ->
  match b with c :: _ => p c = false | [] => True end ->
  take_while p (k ++ b) = k.
Proof.
  intros Hk Hb. induction k as [|x k IH].
  - destruct b as [|c b]; [reflexivity|]. cbn. now rewrite Hb.
  - cbn [forallb] in Hk. apply andb_true_iff in Hk as [Hx Hk].
    cbn. rewrite Hx. now rewrite IH.
Qed.

Lemma rx_at_param key b :
  key <> [] -> forallb is_key_char key = true ->
  match b with
  | c :: _ => is_key_char c = false /\ c <> "("%char
  | [] => True
  end ->
  rx_at 0 (":"%char :: key ++ b)
  = Some (mk_rx_match (1 + length key) None (Some key) None None None).
Proof.
  intros Hne Hk Hb. unfold rx_at.
  change (Ascii.eqb ":" "{") with false. change (Ascii.eqb ":" ":") with true.
  cbv iota.
  rewrite (take_while_app_stop is_key_char key b Hk)
    by (destruct b; [exact I|apply Hb]).
  destruct key as [|k0 key']; [congruence|].
  rewrite drop_app_length.
  destruct b as [|c b']; [now rewrite Nat.add_0_r|].
  destruct Hb as [_ Hc]. apply Ascii.eqb_neq in Hc. rewrite Hc.
  now rewrite Nat.add_0_r.
Qed.

Lemma separator_not_key sep :
  is_separator sep = true -> is_key_char sep = false /\ sep <> "("%char.
Proof.
  intros H. apply is_separator_cases in H as [-> | ->]; split; (reflexivity || discriminate).
Qed.

Lemma make_pattern_single a key b keys0 sep :
  is_separator sep = true ->
  literal a = true -> literal b = true ->
  key <> [] -> forallb is_key_char key = true ->
  starts_with_separator sep b = true ->
  make_pattern (a ++ ":"%char :: key ++ b) keys0 sep
  = (flat_map escape_char a ++ render_atom sep AParam ++ flat_map escape_char b,
     keys0 ++ [percent_decode key]).
Proof.
  intros Hs Ha Hb Hne Hk Hsb. unfold make_pattern. cbn [make_pattern_rec].
  rewrite make_pattern_body_scan, (scan_literal_prefix _ sep a Ha).
  assert (E : rx_at 0 (":"%char :: key ++ b)
              = Some (mk_rx_match (1 + length key) None (Some key) None None None)).
  { apply rx_at_param; auto. destruct b as [|c b']; [exact I|].
    cbn in Hsb. apply Ascii.eqb_eq in Hsb as ->. now apply separator_not_key. }
  rewrite (scan_match _ _ _ _ _ _ E).
  cbn [mk_rx_match length_ emit optional_param_key required_param_key
       required_param_pattern wildcard_param_key special_chars_key
       sub_matched sub_str default fst snd].
  unfold id. rewrite skipn_cons_app.
  rewrite (scan_literal_all _ sep b _ _ Hb).
  cbn [app render_atom]. now rewrite <- !app_assoc.
Qed.

Lemma last_app_flat_map_escape pre s c :
  List.last (pre ++ flat_map escape_char (s ++ [c])) zero = c.
Proof.
  rewrite flat_map_app. cbn [flat_map]. rewrite app_nil_r.
  unfold escape_char at 2. destruct (is_rx_special c).
  - change (["\"%char; c]) with (["\"%char] ++ [c]). rewrite !app_assoc. apply last_last.
  - rewrite app_assoc. apply last_last.
Qed.

(** The end of the top-level [make_pattern]: the separator is appended
    unless the pattern already ends with it. *)
Lemma close_pattern sep pre b :
  is_separator sep = true ->
  pre = [] \/ List.last pre zero <> sep ->
  exists sepatom,
    (let pattern0 := pre ++ flat_map escape_char b in
     if match pattern0 with
        | [] => true
        | _ :: _ => negb (Ascii.eqb (List.last pattern0 zero) sep)
        end
     then pattern0 ++ ["\"%char] ++ [sep]
     else pattern0)
    = pre ++ flat_map escape_char (strip_separator sep b) ++ sepatom /\
    ((sep = "/"%char /\ sepatom = ["/"%char]) \/ sepatom = ["\"%char; sep]).
Proof.
  intros Hs Hpre. cbn zeta. unfold strip_separator.
  destruct (rev b) as [|c r'] eqn:Er;
    apply (f_equal (@rev _)) in Er; rewrite rev_involutive in Er; cbn [rev] in Er;
    subst b.
  - cbn [flat_map]. rewrite app_nil_r. exists ["\"%char; sep]. split; [|now right].
    destruct pre as [|x pre']; [reflexivity|].
    destruct Hpre as [Hpre|Hpre]; [discriminate|].
    apply Ascii.eqb_neq in Hpre. now rewrite Hpre.
  - pose proof (last_app_flat_map_escape pre (rev r') c) as Hl.
    destruct (pre ++ flat_map escape_char (rev r' ++ [c])) as [|x l] eqn:Ef.
    { exfalso. rewrite flat_map_app in Ef. cbn in Ef. unfold escape_char in Ef at 2.
      destruct (is_rx_special c);
        destruct pre; destruct (flat_map escape_char (rev r')); discriminate. }
    rewrite Hl. rewrite <- Ef. clear Ef Hl x l.
    destruct (Ascii.eqb_spec c sep) as [->|N]; cbn [negb].
    + rewrite flat_map_app. cbn [flat_map]. rewrite app_nil_r.
      destruct (is_separator_cases sep Hs) as [-> | ->].
      * exists ["/"%char]. split; [reflexivity|left; auto].
      * exists ["\"%char; "\"%char]. split; [reflexivity|right; auto].
    + exists ["\"%char; sep]. split; [|now right]. now rewrite <- !app_assoc.
Qed.

Section Exact.

Import ecma.

Variable ic : bool.

Lemma advance_zero x : advance 0 x = x.
Proof. now destruct x. Qed.

Lemma m_chars a ts :
  forall x k,
    m ic (seq_of (map Char a ++ ts)) x k
    = if prefix_match ic a (after x)
      then m ic (seq_of ts) (advance (length a) x) k
      else None.
Proof.
  induction a as [|c a IH]; intros x k.
  - cbn [map app prefix_match length]. now rewrite advance_zero.
  - cbn [map app seq_of fold_right m prefix_match length].
    unfold step_char. destruct x as [pre s caps]. cbn [after before captures].
    destruct s as [|x0 s']; [reflexivity|].
    fold (same_char ic x0 c). destruct (same_char ic x0 c); [|reflexivity].
    cbn [andb]. change (fold_right Seq Empty (map Char a ++ ts))
      with (seq_of (map Char a ++ ts)).
    rewrite IH. cbn [after]. unfold advance. cbn [after before captures firstn skipn rev].
    now rewrite <- app_assoc.
Qed.

Section LazyClass.

Variable mr : mstate -> cont -> option mstate.
Variable p : ascii -> bool.
Variable c : cont.
Hypothesis mr_step : forall x k, mr x k = step_char p x k.
Hypothesis c_stops : forall pre a r caps,
  p a = true -> c {| before := pre; after := a :: r; captures := caps |} = None.

Lemma repeat0_lazy_class run :
  forall rest pre caps fuel,
    forallb p run = true ->
    match rest with a :: _ => p a = false | [] => True end ->
    (length (run ++ rest) <= fuel)%nat ->
    repeat0 mr [] false c fuel None
            {| before := pre; after := run ++ rest; captures := caps |}
    = c {| before := rev run ++ pre; after := rest; captures := caps |}.
Proof.
  induction run as [|a run IH]; intros rest pre caps fuel Hrun Hrest Hfuel.
  - cbn [app rev]. destruct fuel as [|fuel]; [reflexivity|].
    cbn [repeat0 max_is_zero]. rewrite mr_step. unfold step_char, clear_captures.
    cbn [after before captures fold_right].
    destruct (c {| before := pre; after := rest; captures := caps |}); [reflexivity|].
    destruct rest as [|a r]; [reflexivity|]. now rewrite Hrest.
  - cbn [forallb] in Hrun. apply andb_true_iff in Hrun as [Ha Hrun].
    destruct fuel as [|fuel]; [cbn in Hfuel; lia|].
    cbn [repeat0 max_is_zero app]. rewrite (c_stops pre a (run ++ rest) caps Ha).
    rewrite mr_step. unfold step_char, clear_captures.
    cbn [after before captures fold_right]. rewrite Ha.
    replace (length (run ++ rest) =? length (a :: run ++ rest))%nat with false
      by (symmetry; apply Nat.eqb_neq; cbn [length]; lia).
    cbn [dec_max]. rewrite IH; [|assumption|assumption|cbn in Hfuel; lia].
    cbn [rev]. now rewrite <- app_assoc.
Qed.

Lemma repeat_lazy_plus pre r caps :
  repeat_matcher mr [] false c 1 None {| before := pre; after := r; captures := caps |}
  = match take_while p r with
    | [] => None
    | _ :: _ =>
        c {| before := rev (take_while p r) ++ pre;
             after := skipn (length (take_while p r)) r; captures := caps |}
    end.
Proof.
  cbn [repeat_matcher max_is_zero dec_max]. rewrite mr_step.
  unfold step_char, clear_captures. cbn [after before captures fold_right].
  destruct r as [|a r]; [reflexivity|]. cbn [take_while].
  destruct (p a) eqn:Ha; [|reflexivity].
  pose proof (take_while_skipn p r) as Hr.
  pose proof (take_while_forallb p r) as Hf.
  pose proof (take_while_stop p r) as Hs.
  cbn [length skipn rev].
  set (run := take_while p r) in *. set (rest := skipn (length run) r) in *.
  rewrite <- Hr at 1 2. rewrite repeat0_lazy_class; [|exact Hf| |now rewrite Hr].
  - now rewrite <- app_assoc.
  - destruct rest as [|b rest']; [exact I|]. now apply (Hs b rest').
Qed.

End LazyClass.

End Exact.

Lemma items_terms_static_app sep a :
  forall n items,
    items_terms sep n (items_static a ++ items)
    = map ecma.Char a ++ items_terms sep n items.
Proof.
  induction a as [|c a IH]; intros n items; [reflexivity|].
  cbn [items_static map app items_terms]. fold (items_static a).
  rewrite <- IH. destruct (is_rx_special c); reflexivity.
Qed.

Section ExactTail.

Import ecma.

Variable ic : bool.
Variable sep : ascii.
Hypothesis sep_ok : is_separator sep = true.

Lemma m_tail x :
  m ic (seq_of [Quant (Char sep) 0 (Some 1%nat) true; AssertEnd]) x kend
  = match after x with
    | [] => Some x
    | [c] => if Ascii.eqb c sep then Some (advance 1 x) else None
    | _ => None
    end.
Proof.
  destruct x as [pre s caps].
  cbn [seq_of fold_right m repeat_matcher groups_of after].
  destruct s as [|c r]; [reflexivity|].
  cbn [length repeat0 max_is_zero dec_max]. unfold clear_captures, step_char.
  cbn [after before captures fold_right].
  rewrite (canonicalize_separator ic sep c sep_ok).
  destruct (Ascii.eqb c sep); [|now destruct r].
  destruct (Nat.eqb_spec (length r) (length (c :: r))) as [E|_]; [cbn in E; lia|].
  rewrite repeat0_done. unfold kend. cbn [after m].
  destruct r as [|d r]; reflexivity.
Qed.

Lemma class_not_separator a :
  xorb true (existsb (fun it => class_item_matches ic it a) [CChar sep])
  = not_char sep a.
Proof.
  cbn [existsb class_item_matches]. unfold not_char.
  rewrite orb_false_r, Ascii.eqb_sym, (canonicalize_separator ic sep a sep_ok).
  reflexivity.
Qed.

Lemma prefix_match_stops b0 a r :
  starts_with_separator sep b0 = true -> b0 <> [] ->
  not_char sep a = true -> prefix_match ic b0 (a :: r) = false.
Proof.
  intros Hb Hne Ha. destruct b0 as [|c b1]; [congruence|].
  cbn in Hb. apply Ascii.eqb_eq in Hb as ->. cbn [prefix_match].
  unfold same_char. rewrite (canonicalize_separator ic sep a sep_ok).
  unfold not_char in Ha. apply negb_true_iff in Ha. now rewrite Ha.
Qed.

Lemma regex_match_single a b0 s :
  starts_with_separator sep b0 = true ->
  regex_match (plain_regex sep (items_static a ++ [IAtom AParam] ++ items_static b0) ic) s
  = option_map (fun v => [Some s; Some v]) (match_single ic sep a b0 s).
Proof.
  intros Hb. unfold regex_match, match_single.
  cbn [plain_regex re_ast re_icase re_groups].
  assert (Hg : items_groups (items_static a ++ [IAtom AParam] ++ items_static b0) = 1%nat).
  { rewrite !items_groups_app.
    assert (H0 : forall l, items_groups (items_static l) = 0%nat).
    { induction l as [|c l IH]; [reflexivity|].
      cbn [items_static map]. fold (items_static l).
      change (items_groups (?i :: ?r)) with (item_groups i + items_groups r)%nat.
      rewrite IH. now destruct (is_rx_special c). }
    rewrite !H0. reflexivity. }
  rewrite Hg. cbn [replicate].
  rewrite items_terms_static_app. cbn [app items_terms item_term item_groups atom_groups].
  rewrite <- (app_nil_r (items_static b0)), items_terms_static_app.
  cbn [items_terms app]. rewrite app_nil_r.
  cbn [seq_of fold_right m before].
  change (fold_right Seq Empty ?l) with (seq_of l).
  rewrite <- app_assoc. rewrite m_chars. cbn [after].
  destruct (prefix_match ic a s); [|reflexivity].
  unfold advance at 1. cbn [after before captures app seq_of fold_right m].
  change (fold_right Seq Empty ?l) with (seq_of l).
  set (K := fun y : mstate =>
              m ic (seq_of (map Char b0
                            ++ [Quant (Char sep) 0 (Some 1%nat) true; AssertEnd]))
                y kend).
  change (fun y : mstate => m ic _ y _) with K.
  cbn [atom_term m groups_of]. 
  rewrite (repeat_lazy_plus _ (not_char sep)).
  2:{ intros x k. unfold step_char. destruct (after x); [reflexivity|].
      now rewrite class_not_separator. }
  2:{ intros pre a0 r caps Ha. cbn [before after captures]. unfold K.
      rewrite m_chars. cbn [after].
      destruct b0 as [|c0 b1].
      - cbn [prefix_match length]. rewrite advance_zero, m_tail. cbn [after].
        unfold not_char in Ha. apply negb_true_iff in Ha. rewrite Ha.
        now destruct r.
      - now rewrite (prefix_match_stops (c0 :: b1) a0 r Hb). }
  set (r1 := skipn (length a) s).
  destruct (take_while (not_char sep) r1) as [|v0 v'] eqn:Ev; [reflexivity|].
  rewrite <- Ev. cbn [before after captures].
  rewrite consumed_take_while. cbn [set_capture set_nth].
  unfold K. rewrite m_chars. cbn [after].
  destruct (prefix_match ic b0 _); [|reflexivity].
  rewrite m_tail. unfold advance at 1. cbn [after].
  destruct (skipn (length b0) _) as [|c [|d r]]; try reflexivity.
  destruct (Ascii.eqb c sep); reflexivity.
Qed.

End ExactTail.

Lemma strip_starts_with_separator sep b :
  starts_with_separator sep b = true ->
  starts_with_separator sep (strip_separator sep b) = true.
Proof.
  intros Hb. unfold strip_separator.
  destruct (rev b) as [|c r'] eqn:Er; [exact Hb|].
  destruct (Ascii.eqb c sep); [|exact Hb].
  apply (f_equal (@rev _)) in Er. rewrite rev_involutive in Er. cbn [rev] in Er.
  subst b. destruct (rev r') as [|x l]; [reflexivity|exact Hb].
Qed.

Lemma make_pattern_top_single p a key b :
  percent_encode p = a ++ ":"%char :: key ++ b ->
  literal a = true -> literal b = true ->
  key <> [] -> forallb is_key_char key = true ->
  starts_with_separator (find_separator p) b = true ->
  exists sepatom,
    make_pattern_top p []
    = (["^"%char]
         ++ render (find_separator p)
              (items_static a ++ [IAtom AParam]
               ++ items_static (strip_separator (find_separator p) b))
         ++ sepatom ++ lit "?$",
       [percent_decode key]) /\
    ((find_separator p = "/"%char /\ sepatom = ["/"%char])
     \/ sepatom = ["\"%char; find_separator p]).
Proof.
  intros Ep Ha Hb Hne Hk Hsb.
  pose proof (find_separator_is_separator p) as Hs.
  unfold make_pattern_top. rewrite Ep.
  set (sep := find_separator p) in *.
  rewrite (make_pattern_single a key b [] sep Hs Ha Hb Hne Hk Hsb).
  destruct (close_pattern sep (flat_map escape_char a ++ render_atom sep AParam) b Hs)
    as (sepatom & E & Hsep).
  { right. cbn [render_atom]. rewrite !app_assoc.
    change (lit "]+?)") with (lit "]+?" ++ [")"%char]). rewrite !app_assoc.
    rewrite last_last. intros <-. discriminate Hs. }
  cbn zeta in E. rewrite <- app_assoc in E.
  cbv beta iota zeta. rewrite E. exists sepatom. split; [|exact Hsep].
  rewrite !render_app, !render_items_static. cbn [render flat_map render_item].
  rewrite app_nil_r. now rewrite <- !app_assoc.
Qed.

(** X13: for a pattern that is literal text, one required parameter
    without custom sub-pattern, and literal text that is empty or begins
    with the separator, the matcher has the decoded name as its only key;
    it accepts a path exactly when the encoded path is the first text, a
    non-empty run without the separator, the second text without its
    trailing separator and possibly one separator, and it binds the
    parameter to the decoded run. *)
Theorem single_parameter_pattern (p a key b : str) (cs : case_sensitivity) :
  percent_encode p = a ++ ":"%char :: key ++ b ->
  literal a = true -> literal b = true ->
  key <> [] -> forallb is_key_char key = true ->
  starts_with_separator (find_separator p) b = true ->
  exists M : matcher,
    match_ p cs = Some M /\
    m_keys M = [percent_decode key] /\
    forall X,
      matcher_call M X
      = match match_single (icase (make_regex_flags cs)) (find_separator p) a
                (strip_separator (find_separator p) b) (percent_encode X) with
        | Some v =>
            {| matched := true;
               params := {[ percent_decode key := percent_decode v ]} |}
        | None => {| matched := false; params := ∅ |}
        end.
Proof.
  intros Ep Ha Hb Hne Hk Hsb.
  destruct (make_pattern_top_single p a key b Ep Ha Hb Hne Hk Hsb) as (sepatom & E & Hsep).
  pose proof (find_separator_is_separator p) as Hs.
  set (sep := find_separator p) in *.
  set (b0 := strip_separator sep b) in *.
  unfold match_, matcher_new. rewrite E. cbn [regex_new ecma_engine].
  rewrite (compile_plain sep _ sepatom) by
    (try assumption; rewrite !forallb_app, !items_static_ok; reflexivity).
  eexists. split; [reflexivity|]. split; [reflexivity|]. intros X.
  unfold matcher_call. cbn [m_regex m_keys regex_match ecma_engine].
  rewrite (regex_match_single _ sep Hs a b0 _ (strip_starts_with_separator sep b Hsb)).
  destruct (match_single _ sep a b0 (percent_encode X)) as [v|]; [|reflexivity].
  cbn [option_map length seq fold_left]. unfold bind_param.
  cbn [nth smatch_at Nat.add sub_str default]. unfold id.
  now rewrite insert_empty.
Qed.

Lemma single_parameter_pattern_witness :
  option_map (fun M : matcher => matcher_call M (lit "/users/a b/posts/"))
             (match_ (lit "/users/:id/posts") case_sensitive)
  = Some {| matched := true; params := {[ lit "id" := lit "a b" ]} |}.
Proof.
  destruct (single_parameter_pattern (lit "/users/:id/posts") (lit "/users/")
              (lit "id") (lit "/posts") case_sensitive
              eq_refl eq_refl eq_refl ltac:(discriminate) eq_refl eq_refl)
    as (M & EM & _ & H).
  rewrite EM. cbn [option_map]. f_equal. rewrite H. vm_compute. reflexivity.
Defined.

Section LazyScan.

Import ecma.

Variable mr : mstate -> cont -> option mstate.
Variable p : ascii -> bool.
Variable c : cont.
Hypothesis mr_step : forall x k, mr x k = step_char p x k.

Lemma repeat0_lazy_scan s :
  forall pre caps fuel,
    (length s <= fuel)%nat ->
    repeat0 mr [] false c fuel None {| before := pre; after := s; captures := caps |}
    = lazy_scan p c s pre caps.
Proof.
  induction s as [|a r IH]; intros pre caps fuel Hfuel.
  - cbn [lazy_scan]. destruct fuel as [|fuel].
    + cbn [repeat0 max_is_zero]. now destruct (c _).
    + cbn [repeat0 max_is_zero]. destruct (c _); [reflexivity|].
      rewrite mr_step. reflexivity.
  - destruct fuel as [|fuel]; [cbn in Hfuel; lia|].
    cbn [repeat0 max_is_zero lazy_scan]. destruct (c _); [reflexivity|].
    rewrite mr_step. unfold step_char, clear_captures.
    cbn [after before captures fold_right]. destruct (p a); [|reflexivity].
    destruct (Nat.eqb_spec (length r) (length (a :: r))) as [E|_]; [cbn in E; lia|].
    cbn [dec_max]. apply IH. cbn in Hfuel. lia.
Qed.

Lemma repeat_lazy_plus_scan pre s caps :
  repeat_matcher mr [] false c 1 None {| before := pre; after := s; captures := caps |}
  = match s with
    | x0 :: r => if p x0 then lazy_scan p c r (x0 :: pre) caps else None
    | [] => None
    end.
Proof.
  cbn [repeat_matcher max_is_zero dec_max]. rewrite mr_step.
  unfold step_char, clear_captures. cbn [after before captures fold_right].
  destruct s as [|x0 r]; [reflexivity|]. destruct (p x0); [|reflexivity].
  now apply repeat0_lazy_scan.
Qed.

Variable sep : ascii.
Hypothesis c_long : forall pre a b t caps,
  c {| before := pre; after := a :: b :: t; captures := caps |} = None.
Hypothesis c_other : forall pre a caps,
  a <> sep -> c {| before := pre; after := [a]; captures := caps |} = None.
Hypothesis c_sep : forall pre caps,
  is_Some (c {| before := pre; after := [sep]; captures := caps |}).

Lemma strip_separator_cons a r :
  r <> [] -> strip_separator sep (a :: r) = a :: strip_separator sep r.
Proof.
  intros Hr. unfold strip_separator. cbn [rev].
  destruct (rev r) as [|x l] eqn:Er.
  { apply (f_equal (@rev _)) in Er. rewrite rev_involutive in Er. now subst r. }
  cbn [app]. destruct (Ascii.eqb x sep); [|reflexivity].
  rewrite rev_app_distr. reflexivity.
Qed.

Lemma lazy_scan_cons a r pre caps :
  lazy_scan p c (a :: r) pre caps
  = match c {| before := pre; after := a :: r; captures := caps |} with
    | Some z => Some z
    | None => if p a then lazy_scan p c r (a :: pre) caps else None
    end.
Proof. reflexivity. Qed.

Lemma lazy_scan_end r :
  forall pre caps,
    forallb p r = true ->
    lazy_scan p c r pre caps
    = c {| before := rev (strip_separator sep r) ++ pre;
           after := skipn (length (strip_separator sep r)) r;
           captures := caps |}.
Proof.
  induction r as [|a r IH]; intros pre caps Hp.
  - cbn. now destruct (c _).
  - cbn [forallb] in Hp. apply andb_true_iff in Hp as [Ha Hr].
    destruct r as [|b t].
    + unfold strip_separator. cbn [rev app lazy_scan].
      destruct (Ascii.eqb_spec a sep) as [->|N].
      * cbn [rev length skipn app]. destruct (c_sep pre caps) as [z Ez].
        now rewrite Ez.
      * rewrite (c_other pre a caps N), Ha. cbn [lazy_scan rev length skipn app].
        now destruct (c _).
    + rewrite strip_separator_cons by discriminate.
      rewrite lazy_scan_cons, c_long, Ha. rewrite (IH (a :: pre) caps Hr).
      cbn [rev length skipn]. now rewrite <- app_assoc.
Qed.

End LazyScan.

Lemma strip_separator_split sep r :
  exists t, r = strip_separator sep r ++ t /\ (t = [] \/ t = [sep]).
Proof.
  unfold strip_separator. destruct (rev r) as [|x l] eqn:Er.
  - exists []. rewrite app_nil_r. auto.
  - apply (f_equal (@rev _)) in Er. rewrite rev_involutive in Er. cbn [rev] in Er.
    destruct (Ascii.eqb_spec x sep) as [->|N].
    + exists [sep]. auto.
    + exists []. rewrite app_nil_r. auto.
Qed.

Lemma rx_at_wildcard key :
  key <> [] -> forallb is_key_char key = true ->
  rx_at 0 ("*"%char :: key)
  = Some (mk_rx_match (1 + length key) None None None (Some key) None).
Proof.
  intros Hne Hk. unfold rx_at.
  change (Ascii.eqb "*" "{") with false. change (Ascii.eqb "*" ":") with false.
  change (Ascii.eqb "*" "*") with true. cbv iota.
  pose proof (take_while_app_stop is_key_char key [] Hk I) as E.
  rewrite app_nil_r in E. rewrite E.
  destruct key as [|k0 key']; [congruence|]. reflexivity.
Qed.

Lemma make_pattern_wildcard a key keys0 sep :
  literal a = true -> key <> [] -> forallb is_key_char key = true ->
  make_pattern (a ++ "*"%char :: key) keys0 sep
  = (flat_map escape_char a ++ render_atom sep AWild, keys0 ++ [percent_decode key]).
Proof.
  intros Ha Hne Hk. unfold make_pattern. cbn [make_pattern_rec].
  rewrite make_pattern_body_scan, (scan_literal_prefix _ sep a Ha).
  rewrite (scan_match _ _ _ _ _ _ (rx_at_wildcard key Hne Hk)).
  cbn [mk_rx_match length_ emit optional_param_key required_param_key
       required_param_pattern wildcard_param_key special_chars_key
       sub_matched sub_str default fst snd].
  unfold id. pose proof (skipn_cons_app "*"%char key []) as E.
  rewrite app_nil_r in E. rewrite E. reflexivity.
Qed.

Lemma passes_not_space c : passes c = true -> ecma.is_space c = false.
Proof.
  destruct c as [[] [] [] [] [] [] [] []]; vm_compute; congruence.
Qed.

Lemma percent_encode_no_space s :
  forallb (fun c => negb (ecma.is_space c)) (percent_encode s) = true.
Proof.
  pose proof (percent_encode_passes s) as H.
  induction (percent_encode s) as [|c r IH]; [reflexivity|].
  cbn [forallb] in *. apply andb_true_iff in H as [Hc Hr].
  now rewrite (passes_not_space c Hc), IH.
Qed.

Section ExactWildcard.

Import ecma.

Variable ic : bool.
Variable sep : ascii.
Hypothesis sep_ok : is_separator sep = true.

Lemma regex_match_wildcard a s :
  forallb (fun c => negb (is_space c)) s = true ->
  regex_match (plain_regex sep (items_static a ++ [IAtom AWild]) ic) s
  = option_map (fun v => [Some s; Some v]) (match_wildcard ic sep a s).
Proof.
  intros Hsp. unfold regex_match, match_wildcard.
  cbn [plain_regex re_ast re_icase re_groups].
  assert (Hg : items_groups (items_static a ++ [IAtom AWild]) = 1%nat).
  { rewrite items_groups_app.
    assert (H0 : forall l, items_groups (items_static l) = 0%nat).
    { induction l as [|c l IH]; [reflexivity|].
      cbn [items_static map]. fold (items_static l).
      change (items_groups (?i :: ?r)) with (item_groups i + items_groups r)%nat.
      rewrite IH. now destruct (is_rx_special c). }
    rewrite H0. reflexivity. }
  rewrite Hg. cbn [replicate].
  rewrite items_terms_static_app. cbn [app items_terms item_term item_groups atom_groups].
  cbn [seq_of fold_right m before].
  change (fold_right Seq Empty ?l) with (seq_of l).
  rewrite <- app_assoc. rewrite m_chars. cbn [after].
  destruct (prefix_match ic a s); [|reflexivity].
  unfold advance at 1. cbn [after before captures].
  change (m ic (seq_of ([?t] ++ ?ts)) ?x ?k)
    with (m ic t x (fun y => m ic (seq_of ts) y k)).
  set (K := fun y : mstate =>
              m ic (seq_of [Quant (Char sep) 0 (Some 1%nat) true; AssertEnd]) y kend).
  change (fun y : mstate => m ic _ y _) with K.
  assert (EK : K = fun y : mstate =>
              m ic (seq_of [Quant (Char sep) 0 (Some 1%nat) true; AssertEnd]) y kend)
    by reflexivity.
  clearbody K.
  assert (Hr : forallb (fun c => negb (is_space c)) (skipn (length a) s) = true).
  { rewrite <- (firstn_skipn (length a) s), forallb_app in Hsp.
    now apply andb_true_iff in Hsp as [_ Hsp]. }
  cbn [atom_term m groups_of].
  rewrite (repeat_lazy_plus_scan _ (fun c => negb (is_space c))).
  2:{ intros x k. unfold step_char. destruct (after x); [reflexivity|].
      cbn [existsb class_item_matches xorb]. now rewrite orb_false_r. }
  destruct (skipn (length a) s) as [|x0 r]; [reflexivity|].
  cbn [forallb] in Hr. apply andb_true_iff in Hr as [Hx Hr]. rewrite Hx.
  rewrite (lazy_scan_end _ _ sep); [| | | |exact Hr].
  - destruct (strip_separator_split sep r) as (t & E & Ht).
    set (v := strip_separator sep r) in *.
    assert (Ed : skipn (length v) r = t) by (rewrite E; apply drop_app_length).
    assert (Ec : forall pre' caps',
               consumed {| before := rev (firstn (length a) s) ++ [];
                           after := x0 :: r; captures := [None] |}
                        {| before := pre'; after := t; captures := caps' |}
               = x0 :: v).
    { intros pre' caps'. rewrite E. apply (consumed_app _ (x0 :: v) t). }
    cbn [before after captures]. rewrite EK, m_tail by exact sep_ok.
    cbn [after]. rewrite Ed.
    destruct Ht as [-> | ->].
    + rewrite Ec. reflexivity.
    + rewrite Ascii.eqb_refl. unfold advance. cbn [captures]. rewrite Ec. reflexivity.
  - intros pre' a0 b0 t caps'. cbn [before after captures]. rewrite EK.
    now rewrite m_tail by exact sep_ok.
  - intros pre' a0 caps' N. cbn [before after captures]. rewrite EK.
    rewrite m_tail by exact sep_ok. cbn [after].
    apply Ascii.eqb_neq in N. now rewrite N.
  - intros pre' caps'. cbn [before after captures]. rewrite EK.
    rewrite m_tail by exact sep_ok. cbn [after]. rewrite Ascii.eqb_refl. eauto.
Qed.

End ExactWildcard.

Lemma make_pattern_top_wildcard p a key :
  percent_encode p = a ++ "*"%char :: key ->
  literal a = true -> key <> [] -> forallb is_key_char key = true ->
  exists sepatom,
    make_pattern_top p []
    = (["^"%char] ++ render (find_separator p) (items_static a ++ [IAtom AWild])
         ++ sepatom ++ lit "?$",
       [percent_decode key]) /\
    ((find_separator p = "/"%char /\ sepatom = ["/"%char])
     \/ sepatom = ["\"%char; find_separator p]).
Proof.
  intros Ep Ha Hne Hk.
  pose proof (find_separator_is_separator p) as Hs.
  unfold make_pattern_top. rewrite Ep.
  set (sep := find_separator p) in *.
  rewrite (make_pattern_wildcard a key [] sep Ha Hne Hk).
  destruct (close_pattern sep (flat_map escape_char a ++ render_atom sep AWild) [] Hs)
    as (sepatom & E & Hsep).
  { right. cbn [render_atom].
    change (lit "(\S+?)") with (lit "(\S+?" ++ [")"%char]). rewrite !app_assoc.
    rewrite last_last. intros <-. discriminate Hs. }
  cbn zeta in E. cbn [flat_map strip_separator rev] in E. rewrite !app_nil_r in E.
  cbv beta iota zeta. rewrite E. exists sepatom. split; [|exact Hsep].
  rewrite render_app, render_items_static. cbn [render flat_map render_item app].
  rewrite app_nil_r. now rewrite <- !app_assoc.
Qed.

(** X14: for a pattern that is literal text followed by one wildcard, the
    matcher has the decoded name as its only key; it accepts a path exactly
    when the encoded path is the literal text followed by a non-empty rest,
    and it binds the wildcard to the decoded rest without its trailing
    separator (to the rest itself when that is a single character). *)
Theorem wildcard_pattern (p a key : str) (cs : case_sensitivity) :
  percent_encode p = a ++ "*"%char :: key ->
  literal a = true -> key <> [] -> forallb is_key_char key = true ->
  exists M : matcher,
    match_ p cs = Some M /\
    m_keys M = [percent_decode key] /\
    forall X,
      matcher_call M X
      = match match_wildcard (icase (make_regex_flags cs)) (find_separator p) a
                (percent_encode X) with
        | Some v =>
            {| matched := true;
               params := {[ percent_decode key := percent_decode v ]} |}
        | None => {| matched := false; params := ∅ |}
        end.
Proof.
  intros Ep Ha Hne Hk.
  destruct (make_pattern_top_wildcard p a key Ep Ha Hne Hk) as (sepatom & E & Hsep).
  pose proof (find_separator_is_separator p) as Hs.
  set (sep := find_separator p) in *.
  unfold match_, matcher_new. rewrite E. cbn [regex_new ecma_engine].
  rewrite (compile_plain sep _ sepatom) by
    (try assumption; rewrite !forallb_app, !items_static_ok; reflexivity).
  eexists. split; [reflexivity|]. split; [reflexivity|]. intros X.
  unfold matcher_call. cbn [m_regex m_keys regex_match ecma_engine].
  rewrite (regex_match_wildcard _ sep Hs a _ (percent_encode_no_space X)).
  destruct (match_wildcard _ sep a (percent_encode X)) as [v|]; [|reflexivity].
  cbn [option_map length seq fold_left]. unfold bind_param.
  cbn [nth smatch_at Nat.add sub_str default]. unfold id.
  now rewrite insert_empty.
Qed.

Lemma wildcard_pattern_witness :
  option_map (fun M : matcher => matcher_call M (lit "/files/a/b c.txt/"))
             (match_ (lit "/files/*path") case_sensitive)
  = Some {| matched := true; params := {[ lit "path" := lit "a/b c.txt" ]} |}.
Proof.
  destruct (wildcard_pattern (lit "/files/*path") (lit "/files/") (lit "path")
              case_sensitive eq_refl eq_refl ltac:(discriminate) eq_refl)
    as (M & EM & _ & H).
  rewrite EM. cbn [option_map]. f_equal. rewrite H. vm_compute. reflexivity.
Defined.

Lemma seg_ok_literal_tail sep ak segs b :
  seg_ok sep ak segs b = true -> literal b = true.
Proof.
  revert ak. induction segs as [|[a key] r IH]; intros ak; cbn [seg_ok].
  - now intros [H _]%andb_true_iff.
  - intros [_ H]%andb_true_iff. now apply (IH true).
Qed.

Lemma scan_segments self sep segs :
  is_separator sep = true ->
  forall ak b pat keys0,
    seg_ok sep ak segs b = true ->
    scan self sep (seg_text segs b) 0 pat keys0
    = (pat ++ render sep (seg_items segs b),
       keys0 ++ map (fun s => percent_decode (snd s)) segs).
Proof.
  intros Hs. induction segs as [|[a key] r IH]; intros ak b pat keys0 Hok.
  - cbn [seg_text seg_items map]. rewrite app_nil_r, render_items_static.
    apply scan_literal_all. now apply (seg_ok_literal_tail sep ak []).
  - cbn [seg_ok] in Hok.
    apply andb_true_iff in Hok as [Hok Hr]. apply andb_true_iff in Hok as [Hok Hk].
    apply andb_true_iff in Hok as [Hok Hne]. apply andb_true_iff in Hok as [Ha _].
    cbn [seg_text seg_items map snd].
    rewrite (scan_literal_prefix _ sep a Ha).
    assert (E : rx_at 0 (":"%char :: key ++ seg_text r b)
                = Some (mk_rx_match (1 + length key) None (Some key) None None None)).
    { apply rx_at_param; auto; [now destruct key|].
      destruct r as [|[a' key'] r']; cbn [seg_text seg_ok] in *.
      - apply andb_true_iff in Hr as [_ Hb]. cbn [negb orb] in Hb.
        destruct b as [|c b']; [exact I|]. cbn in Hb.
        apply Ascii.eqb_eq in Hb as ->. now apply separator_not_key.
      - apply andb_true_iff in Hr as [Hr _]. apply andb_true_iff in Hr as [Hr _].
        apply andb_true_iff in Hr as [Hr _]. apply andb_true_iff in Hr as [_ Hr].
        cbn [negb orb] in Hr. apply andb_true_iff in Hr as [Hn Hsa].
        destruct a' as [|c a'']; [discriminate|]. cbn in Hsa.
        apply Ascii.eqb_eq in Hsa as ->. cbn [app]. now apply separator_not_key. }
    rewrite (scan_match _ _ _ _ _ _ E).
    cbn [mk_rx_match length_ emit optional_param_key required_param_key
         required_param_pattern wildcard_param_key special_chars_key
         sub_matched sub_str default fst snd].
    unfold id. rewrite skipn_cons_app. rewrite (IH true b _ _ Hr).
    rewrite render_app, render_items_static, render_cons.
    cbn [render_item]. now rewrite <- !app_assoc.
Qed.

Section Segments.

Import ecma.

Variable ic : bool.
Variable sep : ascii.
Hypothesis sep_ok : is_separator sep = true.

Lemma match_segments_stops segs b0 a0 t :
  seg_ok sep true segs b0 = true ->
  not_char sep a0 = true ->
  match_segments ic sep segs b0 (a0 :: t) = None.
Proof.
  intros Hok Ha. destruct segs as [|[a key] r]; cbn [seg_ok match_segments] in *.
  - apply andb_true_iff in Hok as [_ Hb]. cbn [negb orb] in Hb.
    destruct b0 as [|c b1].
    + cbn [prefix_match length skipn]. unfold not_char in Ha.
      apply negb_true_iff in Ha. rewrite Ha. now destruct t.
    + now rewrite (prefix_match_stops ic sep sep_ok (c :: b1) a0 t Hb).
  - apply andb_true_iff in Hok as [Hok _]. apply andb_true_iff in Hok as [Hok _].
    apply andb_true_iff in Hok as [Hok _]. apply andb_true_iff in Hok as [_ Hok].
    cbn [negb orb] in Hok. apply andb_true_iff in Hok as [Hn Hsa].
    rewrite (prefix_match_stops ic sep sep_ok a a0 t Hsa); [reflexivity| |exact Ha].
    now destruct a.
Qed.

Lemma m_segments segs :
  forall ak b0 n x,
    seg_ok sep ak segs b0 = true ->
    option_map captures
      (m ic (seq_of (items_terms sep n (seg_items segs b0) ++ tail_terms sep)) x kend)
    = option_map (fun vs => fill n vs (captures x))
        (match_segments ic sep segs b0 (after x)).
Proof.
  induction segs as [|[a key] r IH]; intros ak b0 n x Hok.
  - cbn [seg_items match_segments].
    rewrite <- (app_nil_r (items_static b0)), items_terms_static_app.
    cbn [items_terms]. rewrite app_nil_r, m_chars.
    destruct (prefix_match ic b0 (after x)); [|reflexivity].
    unfold tail_terms. rewrite (m_tail ic sep sep_ok). unfold advance at 1. cbn [after].
    destruct (skipn (length b0) (after x)) as [|c [|d t]]; try reflexivity.
    destruct (Ascii.eqb c sep); reflexivity.
  - cbn [seg_ok] in Hok.
    apply andb_true_iff in Hok as [Hok Hr].
    cbn [seg_items match_segments]. rewrite items_terms_static_app.
    cbn [items_terms item_term item_groups atom_groups].
    rewrite <- app_assoc, m_chars.
    destruct (prefix_match ic a (after x)); [|reflexivity].
    cbn [app].
    change (m ic (seq_of (?t :: ?ts)) ?y ?k)
      with (m ic t y (fun z => m ic (seq_of ts) z k)).
    set (K := fun z : mstate =>
                m ic (seq_of (items_terms sep (1 + n) (seg_items r b0) ++ tail_terms sep))
                  z kend).
    change (fun z : mstate => m ic (seq_of _) z kend) with K.
    assert (EK : K = fun z : mstate =>
                m ic (seq_of (items_terms sep (1 + n) (seg_items r b0) ++ tail_terms sep))
                  z kend) by reflexivity.
    clearbody K.
    unfold advance. destruct x as [pre s caps]. cbn [after before captures].
    cbn [atom_term m groups_of].
    rewrite (repeat_lazy_plus _ (not_char sep)).
    2:{ intros y k. unfold step_char. destruct (after y); [reflexivity|].
        now rewrite (class_not_separator ic sep sep_ok). }
    2:{ intros pre' a0 t caps' Ha. cbn [before after captures]. rewrite EK.
        pose proof (IH true b0 (1 + n)%nat
                      {| before := pre'; after := a0 :: t;
                         captures := set_capture (S n)
                           (Some (consumed
                                    {| before := rev (firstn (length a) s) ++ pre;
                                       after := skipn (length a) s; captures := caps |}
                                    {| before := pre'; after := a0 :: t;
                                       captures := caps' |})) caps' |} Hr) as H.
        cbn [after] in H. rewrite (match_segments_stops r b0 a0 t Hr Ha) in H.
        cbn [option_map] in H.
        now destruct (m ic _ _ kend). }
    destruct (take_while (not_char sep) (skipn (length a) s)) as [|v0 v'] eqn:Ev;
      [reflexivity|].
    rewrite <- Ev. cbn [before after captures]. rewrite consumed_take_while.
    rewrite EK. rewrite (IH true b0 (1 + n)%nat _ Hr). cbn [after captures].
    destruct (match_segments ic sep r b0 _); reflexivity.
Qed.

End Segments.

Lemma set_nth_app {A} (l1 : list A) x v l2 :
  ecma.set_nth (length l1) v (l1 ++ x :: l2) = l1 ++ v :: l2.
Proof. induction l1 as [|a l1 IH]; [reflexivity|]. cbn. now rewrite IH. Qed.

Lemma fill_replicate vs :
  forall done,
    fill (length done) vs (map Some done ++ replicate (length vs) None)
    = map Some (done ++ vs).
Proof.
  induction vs as [|v vs IH]; intros done.
  - cbn. now rewrite !app_nil_r.
  - cbn [fill length replicate ecma.set_capture].
    rewrite <- (length_map Some done) at 2. rewrite set_nth_app.
    replace (map Some done ++ Some v :: replicate (length vs) None)
      with (map Some (done ++ [v]) ++ replicate (length vs) None)
      by (rewrite map_app, <- app_assoc; reflexivity).
    replace (S (length done)) with (length (done ++ [v]))
      by (rewrite length_app; cbn; lia).
    rewrite IH, <- app_assoc. reflexivity.
Qed.

Lemma match_segments_length ic sep segs b0 :
  forall s vs, match_segments ic sep segs b0 s = Some vs -> length vs = length segs.
Proof.
  induction segs as [|[a key] r IH]; intros s vs; cbn [match_segments].
  - destruct (prefix_match ic b0 s); [|discriminate].
    destruct (skipn _ s) as [|c [|d t]]; try discriminate.
    + now intros [= <-].
    + destruct (Ascii.eqb c sep); [now intros [= <-]|discriminate].
  - destruct (prefix_match ic a s); [|discriminate]. cbn zeta.
    destruct (take_while _ _); [discriminate|].
    destruct (match_segments ic sep r b0 _) as [vs'|] eqn:E; [|discriminate].
    intros [= <-]. cbn. f_equal. now apply (IH _ _ E).
Qed.

Lemma items_groups_segments segs b0 :
  items_groups (seg_items segs b0) = length segs.
Proof.
  assert (H0 : forall l, items_groups (items_static l) = 0%nat).
  { induction l as [|c l IH]; [reflexivity|].
    cbn [items_static map]. fold (items_static l).
    change (items_groups (?i :: ?r)) with (item_groups i + items_groups r)%nat.
    rewrite IH. now destruct (is_rx_special c). }
  induction segs as [|[a key] r IH]; cbn [seg_items length]; [apply H0|].
  rewrite items_groups_app, H0.
  change (items_groups (?i :: ?r)) with (item_groups i + items_groups r)%nat.
  rewrite IH. reflexivity.
Qed.

Lemma regex_match_segments ic sep segs b0 s :
  is_separator sep = true ->
  seg_ok sep false segs b0 = true ->
  ecma.regex_match (plain_regex sep (seg_items segs b0) ic) s
  = option_map (fun vs => Some s :: map Some vs) (match_segments ic sep segs b0 s).
Proof.
  intros Hs Hok. unfold ecma.regex_match.
  cbn [plain_regex ecma.re_ast ecma.re_icase ecma.re_groups].
  rewrite items_groups_segments.
  cbn [seq_of fold_right ecma.m ecma.before].
  change (fold_right ecma.Seq ecma.Empty ?l) with (seq_of l).
  pose proof (m_segments ic sep Hs segs false b0 0%nat
                {| ecma.before := []; ecma.after := s;
                   ecma.captures := replicate (length segs) None |} Hok) as H.
  unfold tail_terms in H. cbn [ecma.after ecma.captures] in H.
  change (fun y : ecma.mstate => match ecma.after y with
                                 | [] => Some y
                                 | _ :: _ => None
                                 end) with kend.
  destruct (ecma.m ic _ _ kend) as [y|];
    destruct (match_segments ic sep segs b0 s) as [vs|] eqn:E;
    try discriminate H; [|reflexivity].
  cbn [option_map] in *. injection H as H. rewrite H.
  rewrite <- (match_segments_length _ _ _ _ _ _ E).
  f_equal. f_equal. exact (fill_replicate vs []).
Qed.

Lemma bind_fold c0 ks :
  forall vs kpre vpre (m : gmap str str),
    length kpre = length vpre -> length ks = length vs ->
    fold_left (bind_param (kpre ++ ks) (c0 :: map Some (vpre ++ vs)))
              (seq (length kpre) (length ks)) m
    = fold_left (fun m kv => <[fst kv := percent_decode (snd kv)]> m)
                (combine ks vs) m.
Proof.
  induction ks as [|k ks IH]; intros vs kpre vpre m Hpre Hl; [reflexivity|].
  destruct vs as [|v vs]; [discriminate|]. cbn [length seq fold_left combine fst snd].
  assert (E : bind_param (kpre ++ k :: ks) (c0 :: map Some (vpre ++ v :: vs)) m
                (length kpre)
              = <[k := percent_decode v]> m).
  { unfold bind_param, smatch_at. rewrite Nat.add_1_r. cbn [nth].
    rewrite nth_middle. rewrite map_app. cbn [map].
    rewrite Hpre, <- (length_map Some vpre), nth_middle. reflexivity. }
  rewrite E.
  replace (kpre ++ k :: ks) with ((kpre ++ [k]) ++ ks) by now rewrite <- app_assoc.
  replace (vpre ++ v :: vs) with ((vpre ++ [v]) ++ vs) by now rewrite <- app_assoc.
  replace (S (length kpre)) with (length (kpre ++ [k]))
    by (rewrite length_app; cbn; lia).
  apply IH; [rewrite !length_app; cbn; lia|]. cbn in Hl. lia.
Qed.

Lemma literal_strip sep b : literal b = true -> literal (strip_separator sep b) = true.
Proof.
  intros Hb. destruct (strip_separator_split sep b) as (t & E & _).
  rewrite E in Hb. unfold literal in *. rewrite forallb_app in Hb.
  now apply andb_true_iff in Hb as [Hb _].
Qed.

Lemma seg_ok_strip sep segs :
  forall ak b,
    seg_ok sep ak segs b = true ->
    seg_ok sep ak segs (strip_separator sep b) = true.
Proof.
  induction segs as [|[a key] r IH]; intros ak b; cbn [seg_ok].
  - intros [Hl Hs]%andb_true_iff. rewrite (literal_strip sep b Hl). cbn [andb].
    destruct ak; [|reflexivity]. cbn [negb orb] in *.
    now apply strip_starts_with_separator.
  - intros [H Hr]%andb_true_iff. rewrite H. now apply IH.
Qed.

Lemma render_segments sep segs b :
  render sep (seg_items segs b)
  = render sep (seg_items segs []) ++ flat_map escape_char b.
Proof.
  induction segs as [|[a key] r IH]; cbn [seg_items].
  - now rewrite render_items_static.
  - rewrite !render_app, !render_cons, IH. now rewrite <- !app_assoc.
Qed.

Lemma render_segments_last sep segs :
  segs <> [] ->
  exists l, render sep (seg_items segs []) = l ++ [")"%char].
Proof.
  induction segs as [|[a key] r IH]; [congruence|]. intros _.
  cbn [seg_items]. rewrite render_app, render_cons.
  destruct r as [|s r'].
  - cbn [seg_items items_static map render flat_map render_item render_atom].
    rewrite app_nil_r.
    exists (render sep (items_static a) ++ lit "([^\" ++ [sep] ++ lit "]+?").
    now rewrite <- !app_assoc.
  - destruct IH as (l & E); [discriminate|]. rewrite E.
    exists (render sep (items_static a) ++ render_item sep (IAtom AParam) ++ l).
    now rewrite <- !app_assoc.
Qed.

Lemma seg_items_ok segs b : forallb item_ok (seg_items segs b) = true.
Proof.
  induction segs as [|[a key] r IH]; cbn [seg_items]; [apply items_static_ok|].
  rewrite forallb_app, items_static_ok. cbn [forallb item_ok atom_ok]. exact IH.
Qed.

(** X15: for a pattern made of literal chunks and required parameters
    without custom sub-patterns, every chunk after a parameter beginning
    with the separator, the matcher has the decoded names as its keys, in
    their order; it accepts a path exactly when the encoded path is made of
    the chunks (the last one without its trailing separator), a non-empty
    run without the separator for every parameter, and possibly one
    separator at the end; and it binds every parameter to its decoded run,
    a later parameter replacing an earlier one of the same name. *)
Theorem segment_pattern (p : str) (segs : list (str * str)) (b : str)
    (cs : case_sensitivity) :
  percent_encode p = seg_text segs b ->
  seg_ok (find_separator p) false segs b = true ->
  exists M : matcher,
    match_ p cs = Some M /\
    m_keys M = map (fun s => percent_decode (snd s)) segs /\
    forall X,
      matcher_call M X
      = match match_segments (icase (make_regex_flags cs)) (find_separator p) segs
                (strip_separator (find_separator p) b) (percent_encode X) with
        | Some vs => {| matched := true; params := bind_values (m_keys M) vs |}
        | None => {| matched := false; params := ∅ |}
        end.
Proof.
  intros Ep Hok.
  pose proof (find_separator_is_separator p) as Hs.
  set (sep := find_separator p) in *.
  set (b0 := strip_separator sep b).
  set (keys := map (fun s : str * str => percent_decode (snd s)) segs).
  assert (Etop : exists sepatom,
             make_pattern_top p []
             = (["^"%char] ++ render sep (seg_items segs b0) ++ sepatom ++ lit "?$", keys)
             /\ ((sep = "/"%char /\ sepatom = ["/"%char]) \/ sepatom = ["\"%char; sep])).
  { unfold make_pattern_top. rewrite Ep. fold sep.
    unfold make_pattern. cbn [make_pattern_rec].
    rewrite make_pattern_body_scan, (scan_segments _ sep segs Hs false b [] [] Hok).
    rewrite (app_nil_l (render sep _)), (app_nil_l (map _ segs)).
    fold keys. rewrite render_segments.
    destruct (close_pattern sep (render sep (seg_items segs [])) b Hs)
      as (sepatom & E & Hsep).
    { destruct segs as [|s0 r]; [now left|right].
      destruct (render_segments_last sep (s0 :: r)) as (l & El); [discriminate|].
      rewrite El, last_last. intros <-. discriminate Hs. }
    cbn zeta in E. cbv beta iota zeta. rewrite E. exists sepatom. split; [|exact Hsep].
    fold b0. rewrite (render_segments sep segs b0). now rewrite <- !app_assoc. }
  destruct Etop as (sepatom & E & Hsep).
  unfold match_, matcher_new. rewrite E. cbn [regex_new ecma_engine].
  rewrite (compile_plain sep _ sepatom) by (try assumption; apply seg_items_ok).
  eexists. split; [reflexivity|]. split; [reflexivity|]. intros X.
  unfold matcher_call. cbn [m_regex m_keys regex_match ecma_engine].
  rewrite (regex_match_segments _ sep segs b0 _ Hs (seg_ok_strip sep segs false b Hok)).
  destruct (match_segments _ sep segs b0 (percent_encode X)) as [vs|] eqn:Em;
    [|reflexivity].
  cbn [option_map]. f_equal. unfold bind_values.
  apply match_segments_length in Em.
  apply (bind_fold (Some (percent_encode X)) keys vs [] []); [reflexivity|].
  unfold keys. now rewrite length_map.
Qed.

Lemma segment_pattern_witness :
  option_map (fun M : matcher => matcher_call M (lit "/users/42/posts/a%20b/"))
             (match_ (lit "/users/:uid/posts/:pid") case_sensitive)
  = Some {| matched := true;
            params := {[ lit "uid" := lit "42"; lit "pid" := lit "a b" ]} |}.
Proof.
  destruct (segment_pattern (lit "/users/:uid/posts/:pid")
              [(lit "/users/", lit "uid"); (lit "/posts/", lit "pid")] []
              case_sensitive eq_refl eq_refl)
    as (M & EM & EK & H).
  rewrite EM. cbn [option_map]. f_equal. rewrite H, EK. vm_compute. reflexivity.
Defined.

Lemma make_pattern_rec_deep d path keys0 sep :
  (2 <= d)%nat ->
  make_pattern_rec d path keys0 sep = make_pattern path keys0 sep.
Proof.
  intros Hd. unfold make_pattern.
  destruct d as [|[|d]]; [lia|lia|]. cbn [make_pattern_rec].
  rewrite !make_pattern_body_scan.
  destruct path as [|c r]; [reflexivity|]. cbn [length make_pattern_rec].
  apply scan_self_ext. intros inner keys1 Hb.
  rewrite !make_pattern_body_scan. now apply scan_no_brace.
Qed.

Lemma scan_make_pattern d sep s pat keys0 :
  (1 <= d)%nat ->
  scan (make_pattern_rec d) sep s 0 pat keys0
  = (pat ++ fst (make_pattern s keys0 sep), snd (make_pattern s keys0 sep)).
Proof.
  intros Hd.
  rewrite (scan_appends _ sep (make_pattern_rec_appends sep d) s 0 pat keys0).
  unfold make_pattern. cbn [make_pattern_rec]. rewrite make_pattern_body_scan.
  rewrite (scan_appends _ sep (make_pattern_rec_appends sep (length s)) s 0 [] keys0).
  cbn [fst snd app].
  destruct s as [|c r]; [reflexivity|].
  assert (E : scan (make_pattern_rec d) sep (c :: r) 0 [] []
              = scan (make_pattern_rec (length (c :: r))) sep (c :: r) 0 [] []).
  { apply scan_self_ext. intros inner keys1 Hb.
    destruct d as [|d]; [lia|]. cbn [length make_pattern_rec].
    rewrite !make_pattern_body_scan. now apply scan_no_brace. }
  now rewrite E.
Qed.

Lemma rx_at_optional inner rest :
  forallb (not_char "}") inner = true ->
  rx_at 0 ("{"%char :: inner ++ "}"%char :: rest)
  = Some (mk_rx_match (length inner + 2) (Some inner) None None None None).
Proof.
  intros Hi. unfold rx_at. change (Ascii.eqb "{" "{") with true. cbv iota.
  rewrite (take_while_app_stop (not_char "}") inner ("}"%char :: rest) Hi)
    by reflexivity.
  now rewrite drop_app_length.
Qed.

Lemma rx_at_custom key body rest :
  key <> [] -> forallb is_key_char key = true ->
  body <> [] -> forallb (not_char ")") body = true ->
  rx_at 0 (":"%char :: key ++ "("%char :: body ++ ")"%char :: rest)
  = Some (mk_rx_match (1 + length key + (length body + 2)) None (Some key)
            (Some ("("%char :: body ++ [")"%char])) None None).
Proof.
  intros Hk1 Hk2 Hb1 Hb2. unfold rx_at.
  change (Ascii.eqb ":" "{") with false. change (Ascii.eqb ":" ":") with true.
  cbv iota.
  rewrite (take_while_app_stop is_key_char key _ Hk2) by reflexivity.
  destruct key as [|k0 key']; [congruence|].
  rewrite drop_app_length. change (Ascii.eqb "(" "(") with true. cbv iota.
  rewrite (take_while_app_stop (not_char ")") body _ Hb2) by reflexivity.
  destruct body as [|b0 body']; [congruence|].
  rewrite drop_app_length. unfold mk_rx_match, sub_str, default, id.
  do 2 f_equal. cbn [app length]. rewrite length_app. cbn [length]. lia.
Qed.

(** X16: [make_pattern] translates a path token by token: literal text is
    copied with its special characters escaped; an optional group becomes
    a non-capturing optional group around the translation of its inside
    (nothing when that is empty), the keys of the inside coming before the
    keys of the rest; a required parameter with a custom sub-pattern
    contributes its name to the keys and the sub-pattern, parentheses
    included, to the pattern. *)
Theorem make_pattern_tokens (keys0 : list str) (sep : ascii) :
  (forall a rest,
      literal a = true ->
      make_pattern (a ++ rest) keys0 sep
      = (flat_map escape_char a ++ fst (make_pattern rest keys0 sep),
         snd (make_pattern rest keys0 sep))) /\
  (forall inner rest,
      forallb (not_char "}") inner = true ->
      make_pattern ("{"%char :: inner ++ "}"%char :: rest) keys0 sep
      = let sub := make_pattern inner keys0 sep in
        let r := make_pattern rest (snd sub) sep in
        (match fst sub with
         | [] => []
         | _ :: _ => lit "(?:" ++ fst sub ++ lit ")?"
         end ++ fst r, snd r)) /\
  (forall key body rest,
      key <> [] -> forallb is_key_char key = true ->
      body <> [] -> forallb (not_char ")") body = true ->
      make_pattern (":"%char :: key ++ "("%char :: body ++ ")"%char :: rest) keys0 sep
      = let r := make_pattern rest (keys0 ++ [percent_decode key]) sep in
        ("("%char :: body ++ ")"%char :: fst r, snd r)).
Proof.
  split; [|split].
  - intros a rest Ha. destruct a as [|c a'];
      [cbn [app flat_map]; now destruct (make_pattern rest keys0 sep)|].
    unfold make_pattern at 1. cbn [make_pattern_rec].
    rewrite make_pattern_body_scan, (scan_literal_prefix _ sep _ Ha).
    rewrite scan_make_pattern by (cbn [length app]; lia). reflexivity.
  - intros inner rest Hi. cbn zeta.
    unfold make_pattern at 1. cbn [make_pattern_rec].
    rewrite make_pattern_body_scan.
    rewrite (scan_match _ _ _ _ _ _ (rx_at_optional inner rest Hi)).
    cbn [mk_rx_match length_ emit optional_param_key sub_matched sub_str default].
    unfold id.
    rewrite (make_pattern_rec_deep _ inner keys0 sep)
      by (cbn [length]; rewrite length_app; cbn [length]; lia).
    replace (length inner + 2)%nat with (1 + length (inner ++ ["}"%char]))%nat
      by (rewrite length_app; cbn; lia).
    replace ("{"%char :: inner ++ "}"%char :: rest)
      with ("{"%char :: (inner ++ ["}"%char]) ++ rest)
      by (now rewrite <- app_assoc).
    rewrite skipn_cons_app.
    destruct (make_pattern inner keys0 sep) as [sub k1]. cbn [fst snd].
    rewrite scan_make_pattern by (cbn [length]; lia).
    destruct sub; reflexivity.
  - intros key body rest Hk1 Hk2 Hb1 Hb2. cbn zeta.
    unfold make_pattern at 1. cbn [make_pattern_rec].
    rewrite make_pattern_body_scan.
    rewrite (scan_match _ _ _ _ _ _ (rx_at_custom key body rest Hk1 Hk2 Hb1 Hb2)).
    cbn [mk_rx_match length_ emit optional_param_key required_param_key
         required_param_pattern sub_matched sub_str default fst snd].
    unfold id.
    replace (1 + length key + (length body + 2))%nat
      with (1 + length (key ++ "("%char :: body ++ [")"%char]))%nat
      by (rewrite !length_app; cbn [length]; rewrite length_app; cbn; lia).
    replace (":"%char :: key ++ "("%char :: body ++ ")"%char :: rest)
      with (":"%char :: (key ++ "("%char :: body ++ [")"%char]) ++ rest)
      by (rewrite <- !app_assoc; cbn [app]; now rewrite <- !app_assoc).
    rewrite skipn_cons_app. rewrite scan_make_pattern by (cbn [length]; lia).
    cbn [fst snd app]. now rewrite <- app_assoc.
Qed.

Lemma make_pattern_tokens_witness :
  make_pattern (lit "/a{.:x}/:n(\d+)") [] "/"
  = (lit "/a(?:\.([^\/]+?))?/(\d+)", [lit "x"; lit "n"]).
Proof.
  destruct (make_pattern_tokens [] "/"%char) as (Hlit & _ & _).
  change (lit "/a{.:x}/:n(\d+)") with (lit "/a" ++ lit "{.:x}/:n(\d+)").
  rewrite (Hlit (lit "/a") (lit "{.:x}/:n(\d+)") eq_refl).
  destruct (make_pattern_tokens [] "/"%char) as (_ & Hopt & _).
  change (lit "{.:x}/:n(\d+)")
    with ("{"%char :: lit ".:x" ++ "}"%char :: lit "/:n(\d+)").
  rewrite (Hopt (lit ".:x") (lit "/:n(\d+)") eq_refl).
  vm_compute. reflexivity.
Defined.

Lemma nth_set_nth_other {A} (d : A) k v (l : list A) i :
  i <> k -> nth i (ecma.set_nth k v l) d = nth i l d.
Proof.
  revert k i. induction l as [|a l IH]; intros k i Hik; [now destruct k|].
  destruct k as [|k]; destruct i as [|i]; cbn; try reflexivity; try congruence.
  apply IH. congruence.
Qed.

Lemma fresh_set_capture n v caps :
  fresh n caps -> fresh (S n) (ecma.set_capture (S n) v caps).
Proof.
  intros H i Hi. cbn [ecma.set_capture].
  rewrite nth_set_nth_other by lia. apply H. lia.
Qed.

Lemma fresh_le n m caps : (n <= m)%nat -> fresh n caps -> fresh m caps.
Proof. intros Hnm H i Hi. apply H. lia. Qed.

Lemma set_nth_same {A} (d : A) k (l : list A) :
  ecma.set_nth k (nth k l d) l = l \/ (length l <= k)%nat.
Proof.
  revert k. induction l as [|a l IH]; intros k; [right; cbn; lia|].
  destruct k as [|k]; [now left|]. cbn.
  destruct (IH k) as [E|E]; [left; now rewrite E|right; lia].
Qed.

Lemma set_nth_beyond {A} k (v : A) (l : list A) :
  (length l <= k)%nat -> ecma.set_nth k v l = l.
Proof.
  revert k. induction l as [|a l IH]; intros k Hk; [now destruct k|].
  destruct k as [|k]; [cbn in Hk; lia|]. cbn. rewrite IH; [reflexivity|cbn in Hk; lia].
Qed.

Lemma set_capture_none_fresh n g caps :
  fresh n caps -> (n < g)%nat -> ecma.set_capture g None caps = caps.
Proof.
  intros H Hg. destruct g as [|k]; [reflexivity|]. cbn [ecma.set_capture].
  destruct (set_nth_same None k caps) as [E|E].
  - rewrite (H k) in E by lia. exact E.
  - now apply set_nth_beyond.
Qed.

Lemma clear_captures_fresh n gs x :
  fresh n (ecma.captures x) -> Forall (fun g => (n < g)%nat) gs ->
  ecma.clear_captures gs x = x.
Proof.
  intros H Hgs. unfold ecma.clear_captures. destruct x as [pre s caps].
  cbn [ecma.before ecma.after ecma.captures] in *. f_equal.
  induction Hgs as [|g gs Hg Hgs IH]; [reflexivity|]. cbn [fold_right].
  rewrite IH. now apply (set_capture_none_fresh n).
Qed.

Lemma fill_opt_none g :
  forall n vs caps,
    fill_opt n (replicate g None ++ vs) caps = fill_opt (g + n) vs caps.
Proof.
  induction g as [|g IH]; intros n vs caps; [reflexivity|].
  cbn [replicate app fill_opt]. rewrite IH. f_equal. lia.
Qed.

Section LazyClassAt.

Import ecma.

Variable mr : mstate -> cont -> option mstate.
Variable p : ascii -> bool.
Variable c : cont.
Variable caps : list (option str).
Hypothesis mr_step : forall x k, mr x k = step_char p x k.
Hypothesis c_stops : forall pre a r,
  p a = true -> c {| before := pre; after := a :: r; captures := caps |} = None.

Lemma repeat0_lazy_class_at run :
  forall rest pre fuel,
    forallb p run = true ->
    match rest with a :: _ => p a = false | [] => True end ->
    (length (run ++ rest) <= fuel)%nat ->
    repeat0 mr [] false c fuel None
            {| before := pre; after := run ++ rest; captures := caps |}
    = c {| before := rev run ++ pre; after := rest; captures := caps |}.
Proof.
  induction run as [|a run IH]; intros rest pre fuel Hrun Hrest Hfuel.
  - cbn [app rev]. destruct fuel as [|fuel]; [reflexivity|].
    cbn [repeat0 max_is_zero]. rewrite mr_step. unfold step_char, clear_captures.
    cbn [after before captures fold_right].
    destruct (c {| before := pre; after := rest; captures := caps |}); [reflexivity|].
    destruct rest as [|a r]; [reflexivity|]. now rewrite Hrest.
  - cbn [forallb] in Hrun. apply andb_true_iff in Hrun as [Ha Hrun].
    destruct fuel as [|fuel]; [cbn in Hfuel; lia|].
    cbn [repeat0 max_is_zero app]. rewrite (c_stops pre a (run ++ rest) Ha).
    rewrite mr_step. unfold step_char, clear_captures.
    cbn [after before captures fold_right]. rewrite Ha.
    replace (length (run ++ rest) =? length (a :: run ++ rest))%nat with false
      by (symmetry; apply Nat.eqb_neq; cbn [length]; lia).
    cbn [dec_max]. rewrite IH; [|assumption|assumption|cbn in Hfuel; lia].
    cbn [rev]. now rewrite <- app_assoc.
Qed.

Lemma repeat_lazy_plus_at pre r :
  repeat_matcher mr [] false c 1 None {| before := pre; after := r; captures := caps |}
  = match take_while p r with
    | [] => None
    | _ :: _ =>
        c {| before := rev (take_while p r) ++ pre;
             after := skipn (length (take_while p r)) r; captures := caps |}
    end.
Proof.
  cbn [repeat_matcher max_is_zero dec_max]. rewrite mr_step.
  unfold step_char, clear_captures. cbn [after before captures fold_right].
  destruct r as [|a r]; [reflexivity|]. cbn [take_while].
  destruct (p a) eqn:Ha; [|reflexivity].
  pose proof (take_while_skipn p r) as Hr.
  pose proof (take_while_forallb p r) as Hf.
  pose proof (take_while_stop p r) as Hs.
  cbn [length skipn rev].
  set (run := take_while p r) in *. set (rest := skipn (length run) r) in *.
  rewrite <- Hr at 1 2. rewrite repeat0_lazy_class_at; [|exact Hf| |now rewrite Hr].
  - now rewrite <- app_assoc.
  - destruct rest as [|b rest']; [exact I|]. now apply (Hs b rest').
Qed.

End LazyClassAt.

Section Delimited.

Import ecma.

Variable ic : bool.
Variable sep : ascii.
Hypothesis sep_ok : is_separator sep = true.

Lemma same_char_separator a :
  same_char ic a sep = Ascii.eqb a sep.
Proof. unfold same_char. apply canonicalize_separator, sep_ok. Qed.

Lemma match_atoms_stops atoms kstop k a0 t :
  stops_atoms sep atoms kstop = true ->
  (kstop = true -> k (a0 :: t) = None) ->
  not_char sep a0 = true ->
  match_atoms ic sep atoms k (a0 :: t) = None.
Proof.
  intros Hst Hk Ha. unfold not_char in Ha. apply negb_true_iff in Ha.
  destruct atoms as [|a r]; cbn [stops_atoms match_atoms] in *; [now apply Hk|].
  destruct a as [c|c| |]; cbn [is_sep_atom] in Hst; try discriminate;
    apply Ascii.eqb_eq in Hst as ->; now rewrite same_char_separator, Ha.
Qed.

Lemma m_atoms_rep atoms :
  forall n m K kfun kstop,
    m = (atoms_groups atoms + n)%nat ->
    rep K m kfun ->
    delim_atoms sep atoms kstop = true ->
    (kstop = true -> forall a0 t, not_char sep a0 = true -> kfun (a0 :: t) = None) ->
    rep (fun x => ecma.m ic (seq_of (atoms_terms sep n atoms)) x K) n
        (match_atoms ic sep atoms kfun).
Proof.
  induction atoms as [|a r IH]; intros n m0 K kfun kstop Em HK Hd Hk.
  - cbn in Em. subst m0. exact HK.
  - assert (Hlit : forall c,
               a = ALit c \/ a = AEsc c ->
               rep (fun x => ecma.m ic (seq_of (atoms_terms sep n (a :: r))) x K) n
                   (match_atoms ic sep (a :: r) kfun)).
    { intros c Hc y Hy.
      assert (Ha : atom_groups a = 0%nat) by (destruct Hc as [-> | ->]; reflexivity).
      assert (Hd' : delim_atoms sep r kstop = true)
        by (destruct Hc as [-> | ->]; exact Hd).
      assert (Et : atom_term sep n a = Char c) by (destruct Hc as [-> | ->]; reflexivity).
      cbn [atoms_terms seq_of fold_right]. rewrite Et, Ha. cbn [ecma.m Nat.add].
      change (fold_right Seq Empty ?l) with (seq_of l).
      assert (Em' : match_atoms ic sep (a :: r) kfun (after y)
                    = match after y with
                      | x :: s' => if same_char ic x c
                                   then match_atoms ic sep r kfun s' else None
                      | [] => None
                      end) by (destruct Hc as [-> | ->]; reflexivity).
      rewrite Em'. unfold step_char. destruct y as [pre s caps].
      cbn [after before captures] in *. destruct s as [|x s']; [reflexivity|].
      fold (same_char ic x c). destruct (same_char ic x c); [|reflexivity].
      assert (Er : m0 = (atoms_groups r + n)%nat).
      { rewrite Em. unfold atoms_groups. cbn [map list_sum]. rewrite Ha. reflexivity. }
      exact (IH n m0 K kfun kstop Er HK Hd' Hk
               {| before := x :: pre; after := s'; captures := caps |} Hy). }
    destruct a as [c|c| |].
    + apply (Hlit c). now left.
    + apply (Hlit c). now right.
    + clear Hlit. cbn [delim_atoms] in Hd. apply andb_true_iff in Hd as [Hst Hd].
      assert (Er : m0 = (atoms_groups r + S n)%nat).
      { change (atoms_groups (AParam :: r)) with (1 + atoms_groups r)%nat in Em. lia. }
      pose proof (IH (S n) m0 K kfun kstop Er HK Hd Hk) as HR.
      intros y Hy. cbn [atoms_terms seq_of fold_right atom_groups Nat.add].
      change (fold_right Seq Empty ?l) with (seq_of l).
      change (ecma.m ic (Seq ?t ?rest) ?x ?k)
        with (ecma.m ic t x (fun z => ecma.m ic rest z k)).
      set (R := fun z : mstate => ecma.m ic (seq_of (atoms_terms sep (S n) r)) z K) in *.
      clearbody R.
      destruct y as [pre s caps]. cbn [after before captures] in *.
      cbn [atom_term ecma.m groups_of].
      rewrite (repeat_lazy_plus_at _ (not_char sep)).
      2:{ intros x k. unfold step_char. destruct (after x); [reflexivity|].
          now rewrite (class_not_separator ic sep sep_ok). }
      2:{ intros pre' a0 t Ha. cbn [before after captures].
          match goal with |- R ?st = None =>
            pose proof (HR st) as H
          end.
          cbn [after captures] in H.
          rewrite (match_atoms_stops r kstop kfun a0 t Hst) in H;
            [| intros Hks; now apply Hk | exact Ha].
          cbn [option_map] in H.
          destruct (R _); [|reflexivity].
          specialize (H (fresh_set_capture n _ caps Hy)). discriminate H. }
      cbn [match_atoms].
      destruct (take_while (not_char sep) s) as [|v0 v'] eqn:Ev; [reflexivity|].
      rewrite <- Ev. cbn [before after captures]. rewrite consumed_take_while.
      match goal with |- option_map captures (R ?st) = _ =>
        pose proof (HR st (fresh_set_capture n _ caps Hy)) as H
      end.
      cbn [after captures] in H. rewrite H.
      destruct (match_atoms ic sep r kfun _); reflexivity.
    + discriminate Hd.
Qed.

Lemma match_items_stops items a0 t :
  stops_items sep items = true ->
  not_char sep a0 = true ->
  match_items ic sep items (a0 :: t) = None.
Proof.
  revert a0 t. induction items as [|i r IH]; intros a0 t Hst Ha.
  - cbn [match_items match_end]. unfold not_char in Ha. apply negb_true_iff in Ha.
    rewrite Ha. now destruct t.
  - destruct i as [a|inner]; cbn [stops_items match_items] in *.
    + now apply (match_atoms_stops [a] false).
    + apply andb_true_iff in Hst as [H1 H2].
      rewrite (match_atoms_stops inner false _ a0 t H1) by (discriminate || exact Ha).
      now rewrite (IH a0 t H2 Ha).
Qed.

Lemma groups_of_atoms_terms atoms :
  forall n, Forall (fun g => (n < g)%nat) (groups_of (seq_of (atoms_terms sep n atoms))).
Proof.
  induction atoms as [|a r IH]; intros n; [constructor|].
  cbn [atoms_terms seq_of fold_right groups_of].
  change (fold_right Seq Empty ?l) with (seq_of l).
  apply Forall_app. split.
  - destruct a; cbn [atom_term groups_of app]; repeat constructor.
  - eapply Forall_impl; [apply IH|]. cbn beta. intros g Hg. lia.
Qed.

Lemma match_atoms_shorter atoms :
  forall s k1 k2,
    (forall s', (length s' + length atoms <= length s)%nat -> k1 s' = k2 s') ->
    match_atoms ic sep atoms k1 s = match_atoms ic sep atoms k2 s.
Proof.
  induction atoms as [|a r IH]; intros s k1 k2 Hk.
  - cbn [match_atoms]. apply Hk. cbn. lia.
  - assert (Hlit : forall c,
               match s with
               | x :: s' => if same_char ic x c then match_atoms ic sep r k1 s' else None
               | [] => None
               end
               = match s with
                 | x :: s' => if same_char ic x c then match_atoms ic sep r k2 s' else None
                 | [] => None
                 end).
    { intros c. destruct s as [|x s']; [reflexivity|].
      destruct (same_char ic x c); [|reflexivity].
      apply IH. intros s'' Hs. apply Hk. cbn [length] in *. lia. }
    destruct a as [c|c| |]; cbn [match_atoms]; try apply Hlit; [|reflexivity].
    pose proof (length_take_while (not_char sep) s) as Hl.
    destruct (take_while (not_char sep) s) as [|v0 v'] eqn:Ev; [reflexivity|].
    rewrite (IH _ k1 k2); [reflexivity|].
    intros s'' Hs. apply Hk. rewrite length_skipn in Hs. cbn [length] in *. lia.
Qed.

Lemma match_atoms_nil atoms k :
  atoms <> [] -> match_atoms ic sep atoms k [] = None.
Proof. destruct atoms as [|[c|c| |] r]; [congruence|reflexivity..]. Qed.

Lemma m_items_rep items :
  forall n,
    delimited sep items = true ->
    rep (fun x => ecma.m ic (seq_of (items_terms sep n items ++ tail_terms sep)) x kend)
        n (match_items ic sep items).
Proof.
  induction items as [|i r IH]; intros n Hd.
  - intros y _. cbn [items_terms app match_items]. unfold tail_terms.
    rewrite (m_tail ic sep sep_ok). unfold match_end.
    destruct (after y) as [|c [|d t]]; try reflexivity.
    destruct (Ascii.eqb c sep); reflexivity.
  - cbn [items_terms app].
    change (seq_of (?t :: ?ts)) with (Seq t (seq_of ts)).
    change (fun x : mstate => ecma.m ic (Seq ?t ?rest) x kend)
      with (fun x : mstate => ecma.m ic t x (fun z => ecma.m ic rest z kend)).
    destruct i as [a|inner]; cbn [delimited] in Hd.
    + apply andb_true_iff in Hd as [Ha Hr].
      pose proof (IH (atom_groups a + n)%nat Hr) as HR.
      pose proof (m_atoms_rep [a] n (atom_groups a + n)%nat _ _ (stops_items sep r)
                    ltac:(unfold atoms_groups; cbn; lia) HR Ha
                    (fun Hs a0 t => match_items_stops r a0 t Hs)) as H.
      cbn [match_items item_term item_groups]. intros y Hy.
      rewrite <- (H y Hy). reflexivity.
    + apply andb_true_iff in Hd as [Hd Hr]. apply andb_true_iff in Hd as [Hne Hi].
      pose proof (IH (atoms_groups inner + n)%nat Hr) as HR.
      cbn [item_term item_groups match_items]. intros y Hy.
      cbn [ecma.m repeat_matcher].
      set (Krest := fun z : mstate =>
                      ecma.m ic (seq_of (items_terms sep (atoms_groups inner + n) r
                                         ++ tail_terms sep)) z kend) in *.
      clearbody Krest.
      destruct (after y) as [|a0 t] eqn:Ey.
      * cbn [length repeat0 max_is_zero].
        rewrite match_atoms_nil by (now destruct inner).
        rewrite (HR y (fresh_le n (atoms_groups inner + n) _ ltac:(lia) Hy)), Ey.
        destruct (match_items ic sep r []); [|reflexivity].
        cbn [option_map]. now rewrite fill_opt_none.
      * cbn [length repeat0 max_is_zero dec_max].
        rewrite (clear_captures_fresh n _ y Hy (groups_of_atoms_terms inner n)).
        set (d := fun y0 : mstate =>
                    if (length (after y0) =? length (after y))%nat then None
                    else repeat0 (ecma.m ic (seq_of (atoms_terms sep n inner)))
                           (groups_of (seq_of (atoms_terms sep n inner))) true Krest
                           (length t) (Some (Nat.pred 1)) y0).
        set (kd := fun s' : str =>
                     if (length s' =? length (after y))%nat then None
                     else match_items ic sep r s').
        assert (Hrep : rep d (atoms_groups inner + n) kd).
        { intros z Hz. unfold d, kd.
          destruct (length (after z) =? length (after y))%nat; [reflexivity|].
          cbn [Nat.pred]. rewrite repeat0_done. exact (HR z Hz). }
        pose proof (m_atoms_rep inner n _ d kd (stops_items sep r) eq_refl Hrep Hi) as H.
        assert (Hkd : stops_items sep r = true ->
                      forall a1 t1, not_char sep a1 = true -> kd (a1 :: t1) = None).
        { intros Hs a1 t1 Ha1. unfold kd.
          destruct (_ =? _)%nat; [reflexivity|]. now apply match_items_stops. }
        specialize (H Hkd y Hy). cbn beta in H.
        rewrite (match_atoms_shorter inner (after y) kd (match_items ic sep r)) in H.
        2:{ intros s' Hs'. unfold kd.
            destruct (Nat.eqb_spec (length s') (length (after y))) as [E|_];
              [|reflexivity].
            exfalso. destruct inner; [discriminate|]. cbn [length] in Hs'. lia. }
        rewrite Ey in H.
        replace (length (after y)) with (S (length t)) in * by (now rewrite Ey).
        fold d.
        destruct (ecma.m ic (seq_of (atoms_terms sep n inner)) y d) as [z|];
          destruct (match_atoms ic sep inner (match_items ic sep r) (a0 :: t)) as [vs|];
          try discriminate H; [exact H|].
        rewrite (HR y (fresh_le n (atoms_groups inner + n) _ ltac:(lia) Hy)), Ey.
        destruct (match_items ic sep r (a0 :: t)); [|reflexivity].
        cbn [option_map]. now rewrite fill_opt_none.
Qed.

End Delimited.

Lemma fill_opt_replicate vs :
  forall done,
    fill_opt (length done) vs (done ++ replicate (length vs) None) = done ++ vs.
Proof.
  induction vs as [|v vs IH]; intros done.
  - cbn. reflexivity.
  - cbn [fill_opt length replicate ecma.set_capture].
    replace (S (length done)) with (length (done ++ [v]))
      by (rewrite length_app; cbn; lia).
    replace (done ++ v :: vs) with ((done ++ [v]) ++ vs) by now rewrite <- app_assoc.
    rewrite <- (IH (done ++ [v])). f_equal.
    destruct v as [w|].
    + rewrite set_nth_app. now rewrite <- app_assoc.
    + now rewrite <- app_assoc.
Qed.

Lemma match_atoms_length ic sep atoms k m :
  (forall s vs, k s = Some vs -> length vs = m) ->
  forall s vs,
    match_atoms ic sep atoms k s = Some vs ->
    length vs = (atoms_groups atoms + m)%nat.
Proof.
  intros Hk. induction atoms as [|a r IH]; intros s vs; [apply Hk|].
  assert (Hlit : forall c,
             match s with
             | x :: s' => if same_char ic x c then match_atoms ic sep r k s' else None
             | [] => None
             end = Some vs ->
             length vs = (atoms_groups r + m)%nat).
  { intros c. destruct s as [|x s']; [discriminate|].
    destruct (same_char ic x c); [apply IH|discriminate]. }
  destruct a as [c|c| |]; cbn [match_atoms]; try apply Hlit; [|discriminate].
  destruct (take_while (not_char sep) s) as [|v0 v'] eqn:Ev; [discriminate|].
  destruct (match_atoms ic sep r k _) as [vs'|] eqn:E; [|discriminate].
  intros [= <-]. cbn [length]. rewrite (IH _ _ E).
  change (atoms_groups (AParam :: r)) with (1 + atoms_groups r)%nat. lia.
Qed.

Lemma match_items_length ic sep items :
  forall s vs, match_items ic sep items s = Some vs -> length vs = items_groups items.
Proof.
  induction items as [|i r IH]; intros s vs.
  - cbn [match_items]. unfold match_end.
    destruct s as [|c [|d t]]; try discriminate.
    + now intros [= <-].
    + destruct (Ascii.eqb c sep); [now intros [= <-]|discriminate].
  - change (items_groups (i :: r)) with (item_groups i + items_groups r)%nat.
    destruct i as [a|inner]; cbn [match_items item_groups].
    + intros H. apply (match_atoms_length ic sep [a] _ _ IH) in H.
      change (atoms_groups [a]) with (atom_groups a + 0)%nat in H. lia.
    + destruct (match_atoms ic sep inner _ s) as [vs'|] eqn:E.
      * intros [= <-]. apply (match_atoms_length ic sep inner _ _ IH _ _ E).
      * destruct (match_items ic sep r s) as [vs'|] eqn:E'; [|discriminate].
        intros [= <-]. rewrite length_app, length_replicate. f_equal.
        now apply (IH s).
Qed.

Lemma regex_match_delimited ic sep items s :
  is_separator sep = true ->
  delimited sep items = true ->
  ecma.regex_match (plain_regex sep items ic) s
  = option_map (fun vs => Some s :: vs) (match_items ic sep items s).
Proof.
  intros Hs Hd. unfold ecma.regex_match.
  cbn [plain_regex ecma.re_ast ecma.re_icase ecma.re_groups].
  cbn [seq_of fold_right ecma.m ecma.before].
  change (fold_right ecma.Seq ecma.Empty ?l) with (seq_of l).
  change (fun y : ecma.mstate => match ecma.after y with
                                 | [] => Some y
                                 | _ :: _ => None
                                 end) with kend.
  assert (Hf : fresh 0 (replicate (items_groups items) (@None str))).
  { intros i _. revert i. induction (items_groups items) as [|g IH]; intros [|i];
      cbn; auto. }
  pose proof (m_items_rep ic sep Hs items 0%nat Hd
                {| ecma.before := []; ecma.after := s;
                   ecma.captures := replicate (items_groups items) None |} Hf) as H.
  cbn [ecma.after ecma.captures] in H.
  unfold tail_terms in H.
  destruct (ecma.m ic _ _ kend) as [y|];
    destruct (match_items ic sep items s) as [vs|] eqn:E;
    try discriminate H; [|reflexivity].
  cbn [option_map] in *. rewrite <- (match_items_length _ _ _ _ _ E) in H.
  pose proof (fill_opt_replicate vs []) as F. cbn [length app] in F.
  rewrite F in H. injection H as ->. reflexivity.
Qed.

Lemma bind_fold_groups c0 ks :
  forall vs kpre vpre (m : gmap str str),
    length kpre = length vpre -> length ks = length vs ->
    fold_left (bind_param (kpre ++ ks) (c0 :: vpre ++ vs))
              (seq (length kpre) (length ks)) m
    = fold_left (fun m kv => <[fst kv := percent_decode (sub_str (snd kv))]> m)
                (combine ks vs) m.
Proof.
  induction ks as [|k ks IH]; intros vs kpre vpre m Hpre Hl; [reflexivity|].
  destruct vs as [|v vs]; [discriminate|]. cbn [length seq fold_left combine fst snd].
  assert (E : bind_param (kpre ++ k :: ks) (c0 :: vpre ++ v :: vs) m (length kpre)
              = <[k := percent_decode (sub_str v)]> m).
  { unfold bind_param, smatch_at. rewrite Nat.add_1_r. cbn [nth].
    rewrite nth_middle. rewrite Hpre, nth_middle. reflexivity. }
  rewrite E.
  replace (kpre ++ k :: ks) with ((kpre ++ [k]) ++ ks) by now rewrite <- app_assoc.
  replace (vpre ++ v :: vs) with ((vpre ++ [v]) ++ vs) by now rewrite <- app_assoc.
  replace (S (length kpre)) with (length (kpre ++ [k]))
    by (rewrite length_app; cbn; lia).
  apply IH; [rewrite !length_app; cbn; lia|]. cbn in Hl. lia.
Qed.

(** The matcher of a pattern that compiles to the rendering of delimited
    items. *)
Lemma delimited_compiled (p : str) (cs : case_sensitivity)
    (items : list item) (sepatom : str) (keys : list str) :
  make_pattern_top p []
  = (["^"%char] ++ render (find_separator p) items ++ sepatom ++ lit "?$", keys) ->
  (find_separator p = "/"%char /\ sepatom = ["/"%char])
  \/ sepatom = ["\"%char; find_separator p] ->
  forallb item_ok items = true ->
  delimited (find_separator p) items = true ->
  length keys = items_groups items ->
  exists M : matcher,
    match_ p cs = Some M /\
    m_keys M = keys /\
    forall X,
      matcher_call M X
      = match match_items (icase (make_regex_flags cs)) (find_separator p) items
                (percent_encode X) with
        | Some vs => {| matched := true; params := bind_groups keys vs |}
        | None => {| matched := false; params := ∅ |}
        end.
Proof.
  intros E Hsep Hok Hd Hk.
  pose proof (find_separator_is_separator p) as Hs.
  set (sep := find_separator p) in *.
  unfold match_, matcher_new. rewrite E. cbn [regex_new ecma_engine].
  rewrite (compile_plain sep items sepatom) by assumption.
  eexists. split; [reflexivity|]. split; [reflexivity|]. intros X.
  unfold matcher_call. cbn [m_regex m_keys regex_match ecma_engine].
  rewrite (regex_match_delimited _ sep items _ Hs Hd).
  destruct (match_items _ sep items (percent_encode X)) as [vs|] eqn:Em;
    [|reflexivity].
  cbn [option_map]. f_equal. unfold bind_groups.
  apply match_items_length in Em.
  apply (bind_fold_groups (Some (percent_encode X)) keys vs [] []); [reflexivity|].
  now rewrite Hk, Em.
Qed.

Lemma render_tok_char sep c : render_atom sep (tok_atom (TChar c)) = escape_char c.
Proof. cbn [tok_atom]. unfold escape_char. now destruct (is_rx_special c). Qed.

Lemma delim_atoms_char sep c atoms kstop :
  delim_atoms sep (tok_atom (TChar c) :: atoms) kstop = delim_atoms sep atoms kstop.
Proof. cbn [tok_atom]. now destruct (is_rx_special c). Qed.

Lemma is_sep_tok sep t :
  is_sep_atom sep (tok_atom t) = true -> t = TChar sep.
Proof.
  destruct t as [c| |]; cbn [tok_atom]; [|discriminate..].
  destruct (is_rx_special c); cbn [is_sep_atom]; intros H;
    apply Ascii.eqb_eq in H; now subst.
Qed.

Lemma tok_ok_param key custom :
  tok_ok (TParam key custom) = true ->
  key <> [] /\ forallb is_key_char key = true /\ custom = [].
Proof.
  cbn [tok_ok]. intros H. apply andb_prop in H as [H Hc].
  apply andb_prop in H as [Hn Hk].
  destruct key; [discriminate|]. destruct custom; [|discriminate]. auto.
Qed.

(** The tokens inside an optional group are read back from their text. *)
Lemma scan_toks_delimited self sep :
  is_separator sep = true ->
  forall toks kstop tail pat keys0,
    forallb tok_ok toks = true ->
    delim_atoms sep (map tok_atom toks) kstop = true ->
    ends_key tail ->
    scan self sep (flat_map tok_text toks ++ tail) 0 pat keys0
    = scan self sep tail 0 (pat ++ render_atoms sep (map tok_atom toks))
           (keys0 ++ flat_map tok_keys toks).
Proof.
  intros Hs. induction toks as [|t r IH]; intros kstop tail pat keys0 Hok Hd Ht.
  { cbn. now rewrite !app_nil_r. }
  cbn [forallb] in Hok. apply andb_prop in Hok as [Hok Hr].
  cbn [map] in Hd. cbn [map flat_map]. rewrite render_atoms_cons, <- app_assoc.
  destruct t as [c|key custom|key].
  - rewrite render_tok_char. rewrite delim_atoms_char in Hd.
    rewrite (scan_literal_prefix self sep [c]);
      [|cbn [literal forallb]; cbn [tok_ok] in Hok; now rewrite Hok].
    cbn [flat_map tok_keys app]. rewrite app_nil_r.
    rewrite (IH kstop tail _ keys0 Hr Hd Ht). now rewrite <- !app_assoc.
  - apply tok_ok_param in Hok as (Hn & Hk & ->).
    cbn [map tok_atom delim_atoms] in Hd. apply andb_prop in Hd as [Hst Hd].
    cbn [tok_text]. rewrite app_nil_r. cbn [app].
    assert (E : rx_at 0 (":"%char :: key ++ flat_map tok_text r ++ tail)
                = Some (mk_rx_match (1 + length key) None (Some key) None None None)).
    { apply rx_at_param; [assumption..|].
      destruct r as [|t' r'].
      - exact Ht.
      - cbn [map stops_atoms] in Hst. apply is_sep_tok in Hst as ->.
        cbn [flat_map tok_text app]. now apply separator_not_key. }
    rewrite (scan_match _ _ _ _ _ _ E). cbn [mk_rx_match length_].
    rewrite skipn_cons_app.
    cbn [emit mk_rx_match optional_param_key required_param_key
         required_param_pattern sub_matched sub_str default fst snd].
    unfold id.
    rewrite (IH kstop tail _ _ Hr Hd Ht).
    cbn [render_atom tok_keys app]. now rewrite <- !app_assoc.
  - discriminate Hok.
Qed.

Lemma render_atoms_toks_nonempty sep toks :
  nonempty_atoms (map tok_atom toks) = true ->
  exists c sub, render_atoms sep (map tok_atom toks) = c :: sub.
Proof.
  intros H. destruct (render_atoms sep (map tok_atom toks)) as [|c sub] eqn:E.
  - apply render_atoms_nil_inv in E. rewrite E in H. discriminate.
  - eauto.
Qed.

(** The tokens of a delimited pattern are read back from their text. *)
Lemma scan_tokens_delimited d sep :
  is_separator sep = true ->
  forall toks tail pat keys0,
    forallb token_ok toks = true ->
    delimited sep (map token_item toks) = true ->
    ends_key tail ->
    scan (make_pattern_rec (S d)) sep (flat_map token_text toks ++ tail) 0 pat keys0
    = scan (make_pattern_rec (S d)) sep tail 0
           (pat ++ render sep (map token_item toks))
           (keys0 ++ flat_map token_keys toks).
Proof.
  intros Hs. induction toks as [|t r IH]; intros tail pat keys0 Hok Hd Ht.
  { cbn. now rewrite !app_nil_r. }
  cbn [forallb] in Hok. apply andb_prop in Hok as [Hok Hr].
  cbn [map] in Hd. cbn [map flat_map]. rewrite render_cons, <- app_assoc.
  destruct t as [[c|key custom|key]|inner].
  - cbn [token_item delimited] in Hd. apply andb_prop in Hd as [_ Hd].
    cbn [token_item render_item token_text tok_text token_keys].
    rewrite render_tok_char.
    rewrite (scan_literal_prefix _ sep [c]);
      [|cbn [literal forallb]; cbn [token_ok tok_ok] in Hok; now rewrite Hok].
    cbn [flat_map tok_keys app]. rewrite app_nil_r.
    rewrite (IH tail _ keys0 Hr Hd Ht). now rewrite <- !app_assoc.
  - cbn [token_ok] in Hok. apply tok_ok_param in Hok as (Hn & Hk & ->).
    cbn [token_item tok_atom delimited delim_atoms stops_atoms] in Hd.
    apply andb_prop in Hd as [Hst Hd]. apply andb_prop in Hst as [Hst _].
    cbn [token_text tok_text]. rewrite app_nil_r. cbn [app].
    assert (E : rx_at 0 (":"%char :: key ++ flat_map token_text r ++ tail)
                = Some (mk_rx_match (1 + length key) None (Some key) None None None)).
    { apply rx_at_param; [assumption..|].
      destruct r as [|[t'|inner'] r'].
      - exact Ht.
      - cbn [map token_item stops_items] in Hst. apply is_sep_tok in Hst as ->.
        cbn [flat_map token_text tok_text app]. now apply separator_not_key.
      - cbn [flat_map token_text app]. split; [reflexivity|discriminate]. }
    rewrite (scan_match _ _ _ _ _ _ E). cbn [mk_rx_match length_].
    rewrite skipn_cons_app.
    cbn [emit mk_rx_match optional_param_key required_param_key
         required_param_pattern sub_matched sub_str default fst snd].
    unfold id.
    rewrite (IH tail _ _ Hr Hd Ht).
    cbn [token_item tok_atom render_item render_atom token_keys tok_keys app].
    now rewrite <- !app_assoc.
  - discriminate Hok.
  - cbn [token_ok] in Hok. apply andb_prop in Hok as [Hin Hbr].
    cbn [token_item delimited] in Hd.
    apply andb_prop in Hd as [Hd1 Hd]. apply andb_prop in Hd1 as [Hne Hda].
    cbn [token_text]. cbn [app]. rewrite <- app_assoc. cbn [app].
    rewrite (scan_match _ _ _ _ _ _ (rx_at_optional _ _ Hbr)).
    cbn [mk_rx_match length_].
    replace (length (flat_map tok_text inner) + 2)%nat
      with (1 + length (flat_map tok_text inner ++ ["}"%char]))%nat
      by (rewrite length_app; simpl; lia).
    replace (flat_map tok_text inner ++ "}"%char :: flat_map token_text r ++ tail)
      with ((flat_map tok_text inner ++ ["}"%char]) ++ flat_map token_text r ++ tail)
      by (rewrite <- app_assoc; reflexivity).
    rewrite skipn_cons_app.
    cbn [emit mk_rx_match optional_param_key sub_matched sub_str default].
    unfold id.
    change (make_pattern_rec (S d) (flat_map tok_text inner) keys0 sep)
      with (make_pattern_body (make_pattern_rec d) (flat_map tok_text inner) keys0 sep).
    rewrite make_pattern_body_scan.
    pose proof (scan_toks_delimited (make_pattern_rec d) sep Hs inner _ [] [] keys0
                  Hin Hda I) as Ein.
    rewrite app_nil_r in Ein. rewrite Ein. cbn [scan app].
    destruct (render_atoms_toks_nonempty sep inner Hne) as (c & sub & Er).
    rewrite Er. cbn [fst snd].
    rewrite (IH tail _ _ Hr Hd Ht).
    cbn [token_item render_item token_keys]. rewrite Er. now rewrite <- !app_assoc.
Qed.

Lemma make_pattern_delimited sep toks tail keys0 :
  is_separator sep = true ->
  forallb token_ok toks = true ->
  delimited sep (map token_item toks) = true ->
  tail = [] \/ tail = [sep] ->
  make_pattern (flat_map token_text toks ++ tail) keys0 sep
  = (render sep (map token_item toks) ++ flat_map escape_char tail,
     keys0 ++ flat_map token_keys toks).
Proof.
  intros Hs Hok Hd Ht.
  set (path := flat_map token_text toks ++ tail).
  rewrite <- (make_pattern_rec_enough (S (S (length path))) path keys0 sep) by lia.
  cbn [make_pattern_rec]. rewrite make_pattern_body_scan.
  change (make_pattern_body (make_pattern_rec (length path)))
    with (make_pattern_rec (S (length path))).
  unfold path.
  rewrite (scan_tokens_delimited _ sep Hs toks tail [] keys0 Hok Hd).
  - cbn [app]. apply scan_literal_all.
    destruct Ht as [-> | ->]; [reflexivity|].
    apply is_separator_cases in Hs as [-> | ->]; reflexivity.
  - destruct Ht as [-> | ->]; [exact I|]. now apply separator_not_key.
Qed.

Lemma strip_separator_fixed sep s :
  strip_separator sep s = s -> not_closed sep s.
Proof.
  unfold strip_separator, not_closed. intros H.
  destruct (rev s) as [|c r] eqn:E; [exact I|].
  destruct (Ascii.eqb c sep); [|reflexivity].
  exfalso. apply (f_equal (@length ascii)) in H.
  rewrite length_rev in H. apply (f_equal (@length ascii)) in E.
  rewrite length_rev in E. cbn [length] in E. lia.
Qed.

(** The rendering of delimited tokens ends with the separator only when
    their text does. *)
Lemma render_not_closed sep toks :
  is_separator sep = true ->
  forallb token_ok toks = true ->
  delimited sep (map token_item toks) = true ->
  not_closed sep (flat_map token_text toks) ->
  not_closed sep (render sep (map token_item toks)).
Proof.
  intros Hs Hok Hd. unfold not_closed.
  destruct toks as [|t0 r0] using rev_ind; [intros; exact I|]. clear IHr0.
  rewrite forallb_app in Hok. apply andb_prop in Hok as [_ Hok].
  cbn [forallb] in Hok. apply andb_prop in Hok as [Hok _].
  rewrite flat_map_app, map_app, render_app.
  cbn [flat_map map]. rewrite !app_nil_r. rewrite !rev_app_distr.
  cbn [render flat_map]. rewrite app_nil_r.
  destruct t0 as [[c|key custom|key]|inner].
  - cbn [token_text tok_text token_item render_item]. rewrite render_tok_char.
    unfold escape_char. destruct (is_rx_special c); cbn [rev app]; auto.
  - cbn [token_ok] in Hok. apply tok_ok_param in Hok as (_ & _ & ->).
    intros _. apply is_separator_cases in Hs as [-> | ->]; reflexivity.
  - discriminate Hok.
  - intros _. cbn [token_item render_item].
    rewrite (app_assoc (lit "(?:")), rev_app_distr.
    apply is_separator_cases in Hs as [-> | ->]; reflexivity.
Qed.

Lemma optional_separator_open sep body :
  not_closed sep body -> optional_separator sep body = body ++ ["\"%char; sep].
Proof.
  unfold not_closed, optional_separator.
  destruct (rev body) as [|c r] eqn:E.
  - intros _. apply (f_equal (@rev ascii)) in E. rewrite rev_involutive in E.
    now subst.
  - now intros ->.
Qed.

Lemma optional_separator_closed sep pre :
  is_separator sep = true ->
  exists sepatom,
    optional_separator sep (pre ++ flat_map escape_char [sep]) = pre ++ sepatom /\
    ((sep = "/"%char /\ sepatom = ["/"%char]) \/ sepatom = ["\"%char; sep]).
Proof.
  intros Hs. unfold optional_separator.
  apply is_separator_cases in Hs as [-> | ->].
  - exists ["/"%char]. cbn [flat_map escape_char app]. 
    change (escape_char "/") with ["/"%char]. cbn [app].
    rewrite rev_unit. cbn. auto.
  - exists ["\"%char; "\"%char]. cbn [flat_map app].
    change (escape_char "\") with ["\"%char; "\"%char]. cbn [app].
    change (pre ++ ["\"%char; "\"%char]) with (pre ++ ["\"%char] ++ ["\"%char]).
    rewrite app_assoc, rev_unit. cbn. rewrite <- app_assoc. auto.
Qed.

Lemma token_items_ok sep toks :
  delimited sep (map token_item toks) = true ->
  forallb item_ok (map token_item toks) = true.
Proof.
  assert (A : forall ts, forallb atom_ok (map tok_atom ts) = true).
  { induction ts as [|[c| |] ts IH]; cbn [map forallb tok_atom]; auto.
    destruct (is_rx_special c) eqn:Ec; cbn [atom_ok]; rewrite Ec; exact IH. }
  induction toks as [|t r IH]; [reflexivity|].
  cbn [map delimited forallb]. destruct t as [t|inner]; cbn [token_item delimited].
  - intros H. apply andb_prop in H as [_ H]. rewrite (IH H), andb_true_r.
    exact (proj1 (andb_prop _ _ (A [t]))).
  - intros H. apply andb_prop in H as [H1 H]. apply andb_prop in H1 as [Hne _].
    rewrite (IH H), andb_true_r. cbn [item_ok].
    destruct (map tok_atom inner) eqn:E; [discriminate|]. rewrite <- E. apply A.
Qed.

Lemma token_keys_groups toks :
  length (flat_map token_keys toks) = items_groups (map token_item toks).
Proof.
  assert (A : forall ts, length (flat_map tok_keys ts) = atoms_groups (map tok_atom ts)).
  { induction ts as [|t ts IH]; [reflexivity|].
    cbn [flat_map map]. rewrite length_app, IH.
    change (atoms_groups (tok_atom t :: map tok_atom ts))
      with (atom_groups (tok_atom t) + atoms_groups (map tok_atom ts))%nat.
    f_equal. destruct t as [c| |]; cbn [tok_keys tok_atom]; try reflexivity.
    now destruct (is_rx_special c). }
  induction toks as [|t r IH]; [reflexivity|].
  cbn [flat_map map]. rewrite length_app, IH.
  change (items_groups (token_item t :: map token_item r))
    with (item_groups (token_item t) + items_groups (map token_item r))%nat.
  f_equal. destruct t as [t|inner]; cbn [token_keys token_item item_groups].
  - specialize (A [t]). cbn [flat_map map] in A. rewrite app_nil_r in A.
    rewrite A. unfold atoms_groups. cbn. lia.
  - apply A.
Qed.

Lemma make_pattern_top_delimited p toks :
  strip_separator (find_separator p) (percent_encode p) = flat_map token_text toks ->
  forallb token_ok toks = true ->
  delimited (find_separator p) (map token_item toks) = true ->
  exists sepatom,
    make_pattern_top p []
    = (["^"%char] ++ render (find_separator p) (map token_item toks)
         ++ sepatom ++ lit "?$",
       flat_map token_keys toks) /\
    ((find_separator p = "/"%char /\ sepatom = ["/"%char])
     \/ sepatom = ["\"%char; find_separator p]).
Proof.
  intros Ep Hok Hd.
  pose proof (find_separator_is_separator p) as Hs.
  set (sep := find_separator p) in *.
  destruct (strip_separator_split sep (percent_encode p)) as (t & Et & Ht).
  unfold make_pattern_top. fold sep. rewrite Et, Ep.
  rewrite (make_pattern_delimited sep toks t [] Hs Hok Hd Ht).
  rewrite optional_separator_last. cbn [app].
  destruct Ht as [-> | ->].
  - cbn [flat_map]. rewrite !app_nil_r.
    rewrite optional_separator_open.
    + exists ["\"%char; sep]. rewrite <- !app_assoc. auto.
    + apply render_not_closed; try assumption.
      rewrite <- Ep. apply strip_separator_fixed.
      rewrite app_nil_r in Et. now rewrite <- Et.
  - destruct (optional_separator_closed sep (render sep (map token_item toks)) Hs)
      as (sepatom & E & Hsep).
    rewrite E. exists sepatom. rewrite <- !app_assoc. auto.
Qed.

(** X19: a delimited pattern.  The encoded pattern without its trailing
    separator is the text of tokens: literal characters, parameters without
    custom sub-pattern and non-empty optional groups of these, where what
    follows a parameter, inside its group or after the group that it ends,
    is the separator, the end of the pattern, or optional groups that begin
    with the separator and are followed in the same way.  Then the pattern
    compiles, its keys are the decoded names in order, and the result of the
    matcher on a path is that of [match_items] on the encoded path: literal
    characters stand for themselves, a parameter takes the longest
    non-empty run without the separator, an optional group is taken when
    the path goes on with it and the rest fits, and one separator may end
    the path.  The parameters of a group left out are bound to the empty
    text. *)
Theorem delimited_pattern (p : str) (cs : case_sensitivity) (toks : list token) :
  strip_separator (find_separator p) (percent_encode p) = flat_map token_text toks ->
  forallb token_ok toks = true ->
  delimited (find_separator p) (map token_item toks) = true ->
  exists M : matcher,
    match_ p cs = Some M /\
    m_keys M = flat_map token_keys toks /\
    forall X,
      matcher_call M X
      = match match_items (icase (make_regex_flags cs)) (find_separator p)
                (map token_item toks) (percent_encode X) with
        | Some vs => {| matched := true; params := bind_groups (m_keys M) vs |}
        | None => {| matched := false; params := ∅ |}
        end.
Proof.
  intros Ep Hok Hd.
  destruct (make_pattern_top_delimited p toks Ep Hok Hd) as (sepatom & E & Hsep).
  destruct (delimited_compiled p cs _ sepatom _ E Hsep
              (token_items_ok _ toks Hd) Hd (token_keys_groups toks))
    as (M & EM & Ek & H).
  exists M. split; [exact EM|]. split; [exact Ek|]. intros X.
  rewrite H, Ek. reflexivity.
Qed.

Lemma delimited_pattern_witness :
  option_map (fun M : matcher =>
                (matcher_call M (lit "/x"), matcher_call M (lit "/x/y/")))
             (match_ (lit "/:foo{/:bar}/") case_sensitive)
  = Some ({| matched := true; params := {[ lit "foo" := lit "x"; lit "bar" := [] ]} |},
          {| matched := true;
             params := {[ lit "foo" := lit "x"; lit "bar" := lit "y" ]} |}).
Proof.
  destruct (delimited_pattern (lit "/:foo{/:bar}/") case_sensitive
              [TOne (TChar "/"); TOne (TParam (lit "foo") []);
               TOpt [TChar "/"%char; TParam (lit "bar") []]]
              eq_refl eq_refl eq_refl)
    as (M & EM & Ek & H).
  rewrite EM. cbn [option_map]. f_equal. rewrite !H, Ek. vm_compute. reflexivity.
Defined.
